(** * A shallow embedding of the Hexagony interpreter (hexagony-c)

    The repository holds two revisions of the interpreter:
    - [hexagony.c] at the root of the repository (the earlier revision),
      embedded in module [Root];
    - [src/hexagony.c] (the later revision), embedded in module [Src].

    The coordinate algebra, the memory store and the [modulo] helper are
    textually the same in both files and are embedded once, before the two
    modules.

    Conventions.
    - [long] and [size_t] values (coordinates, ring counts, array indices) are
      integers of [Z].  The interpreter computes with them on the integers,
      which is what the machine does as long as a coordinate stays inside an
      array that exists; the two index functions are also given on machine
      integers ([axial_to_index_long], [axial_to_mem_index_size_t]: 64-bit
      two's-complement [long], 64-bit unsigned [size_t]) for the properties
      that range over every coordinate.
      C's [/] and [%] truncate toward zero: [Z.quot] and [Z.rem].
    - [int] memory edges are 32-bit two's-complement values: every store into
      an edge goes through [wrap_int].
    - [enum axis] has no negative enumerator and is an [unsigned int] (the
      choice of gcc and clang): the sum [ptr.axis + neighbor] is computed in
      32-bit unsigned arithmetic, [wrap_uint].
    - A pointer into the memory array is the pair of a cell index and an axis.
    - [char] values are [ascii]; arithmetic on them uses their code. *)

From Stdlib Require Import ZArith Lia Bool List Ascii String.
From stdpp Require Import base list.
Import ListNotations.

Local Open Scope Z_scope.

(** ** Enumerations and records *)

(** The C integer types.  The constructor [Z] of [axis] below hides the name
    of the type of integers, which is therefore written [long], [int] or
    [size_t] as in the source. *)
Abbreviation long := BinNums.Z (only parsing).
Abbreviation int := BinNums.Z (only parsing).
Abbreviation size_t := BinNums.Z (only parsing).
Abbreviation ssize_t := BinNums.Z (only parsing).

Inductive axis := X | Y | Z.
Inductive direction := NW | NE | E | SE | SW | W.
Inductive neighbor := LEFT | RIGHT.
Inductive orientation := IN | OUT.

(** [enum axis { X, Y, Z }] *)
Definition axis_value (a : axis) : long :=
  match a with X => 0 | Y => 1 | Z => 2 end.

(** Conversion of an integer in 0..2 back to [enum axis]. *)
Definition axis_of_value (v : long) : axis :=
  if v =? 0 then X else if v =? 1 then Y else Z.

(** [enum neighbor { LEFT = -1, RIGHT = 1 }] *)
Definition neighbor_value (n : neighbor) : long :=
  match n with LEFT => -1 | RIGHT => 1 end.

Record program_cell := { value : ascii; debug : bool }.

Record memory_cell := { value_X : int; value_Y : int; value_Z : int }.

Record memory_pointer :=
  { mp_p : long; mp_q : long; mp_axis : axis; mp_direction : orientation }.

(** [direction_offset] *)
Definition direction_offset (d : direction) : long * long :=
  match d with
  | NW => (0, -1)
  | NE => (-1, 0)
  | E => (-1, 1)
  | SE => (0, 1)
  | SW => (1, 0)
  | W => (1, -1)
  end.

(** ** Integer helpers *)

(** Storing into an [int]: reduction to the 32-bit two's-complement range. *)
Definition wrap_int (z : long) : int := (z + 2 ^ 31) mod 2 ^ 32 - 2 ^ 31.

Definition int_range (z : long) : Prop := - 2 ^ 31 <= z < 2 ^ 31.

(** Conversion to [unsigned int]: reduction modulo 2^32. *)
Definition wrap_uint (z : long) : long := z mod 2 ^ 32.

(** [ptr.axis + neighbor]: [enum axis] is an [unsigned int] and [enum
    neighbor], which has the enumerator [-1], an [int]; the sum is an
    [unsigned int], so that [X + LEFT] is 4294967295. *)
Definition axis_plus (a : axis) (n : neighbor) : long :=
  wrap_uint (axis_value a + neighbor_value n).

(** [long modulo(long a, long b)] *)
Definition modulo (a b : long) : long :=
  let result := Z.rem a (Z.abs b) in
  (if result >=? 0 then result else result + b) * (if b >=? 0 then 1 else -1).

(** The [r]-th centered hexagonal number, written [3 * r * (r - 1) + 1] in
    the source wherever an array size is computed. *)
Definition hex_size (rings : long) : size_t := 3 * rings * (rings - 1) + 1.

(** ** Program index *)

(** [ssize_t axial_to_index(long p, long q, long rings)] *)
Definition axial_to_index (p q rings : long) : ssize_t :=
  let x := p in
  let y := q in
  let z := - p - q in
  if Z.abs x + Z.abs y + Z.abs z >? 2 * (rings - 1) then -1
  else
    Z.quot (3 * rings * (rings - 1)) 2
    + y + - z * (rings * 2 - 1)
    + Z.quot (z * (Z.abs z + 1)) 2.

(** ** Memory index *)

(** [size_t axial_to_mem_index(long p, long q)] *)
Definition axial_to_mem_index (p q : long) : size_t :=
  let x := p in
  let y := q in
  let z := - p - q in
  let ring := Z.quot (Z.abs x + Z.abs y + Z.abs z) 2 in
  let i := if ring >? 0 then 3 * ring * (ring - 1) + 1 else 0 in
  let i := if (x <=? 0) && (y <? 0) then i + (ring * 0 + Z.abs x) else i in
  let i := if (y >=? 0) && (z >? 0) then i + (ring * 1 + Z.abs y) else i in
  let i := if (z <=? 0) && (x <? 0) then i + (ring * 2 + Z.abs z) else i in
  let i := if (x >=? 0) && (y >? 0) then i + (ring * 3 + Z.abs x) else i in
  let i := if (y <=? 0) && (z <? 0) then i + (ring * 4 + Z.abs y) else i in
  let i := if (z >=? 0) && (x >? 0) then i + (ring * 5 + Z.abs z) else i in
  i.

(** ** The index functions on machine integers

    [axial_to_index] and [axial_to_mem_index] above compute on the integers.
    Below are the same two functions with every operation reduced the way
    the machine reduces it: a [long] is a 64-bit two's-complement integer, a
    [size_t] a 64-bit unsigned integer.  (C leaves the overflow of [long]
    undefined; the reduction is what the compiled code computes.) *)

Definition wrap_long (z : BinNums.Z) : long := (z + 2 ^ 63) mod 2 ^ 64 - 2 ^ 63.


Definition long_range (z : BinNums.Z) : Prop := - 2 ^ 63 <= z < 2 ^ 63.

(** The operations of [long]. *)
Definition long_add (a b : long) : long := wrap_long (a + b).
Definition long_sub (a b : long) : long := wrap_long (a - b).
Definition long_mul (a b : long) : long := wrap_long (a * b).
Definition long_neg (a : long) : long := wrap_long (- a).
Definition long_div (a b : long) : long := wrap_long (Z.quot a b).
Definition labs (a : long) : long := wrap_long (Z.abs a).


(** [ssize_t axial_to_index(long p, long q, long rings)] on machine integers. *)
Definition axial_to_index_long (p q rings : long) : ssize_t :=
  let x := p in
  let y := q in
  let z := long_sub (long_neg p) q in
  if long_add (long_add (labs x) (labs y)) (labs z) >? long_mul 2 (long_sub rings 1) then -1
  else
    long_add
      (long_add
         (long_add (long_div (long_mul (long_mul 3 rings) (long_sub rings 1)) 2) y)
         (long_mul (long_neg z) (long_sub (long_mul rings 2) 1)))
      (long_div (long_mul z (long_add (labs z) 1)) 2).


(** ** The memory store *)

Definition zero_cell : memory_cell := {| value_X := 0; value_Y := 0; value_Z := 0 |}.

(** The array [memory] together with its ring count [rings]; the source
    passes both by address. *)
Record memory_store := { memory : list memory_cell; memory_rings : long }.

(** [realloc_memory]: the first [old_size] cells keep their content, the
    cells from [old_size] up to [new_size] are zeroed. *)
Definition realloc_memory (memory : list memory_cell) (old_rings new_rings : long)
  : list memory_cell :=
  let old_size := hex_size old_rings in
  let new_size := hex_size new_rings in
  take (Z.to_nat old_size) memory
    ++ replicate (Z.to_nat (new_size - old_size)) zero_cell.

(** The [while] loop of [get_memory_cell]: one more ring per iteration until
    [index] fits.  [fuel] bounds the number of iterations. *)
Fixpoint grow_memory (fuel : nat) (index : size_t) (s : memory_store) : memory_store :=
  if index >=? hex_size (memory_rings s) then
    match fuel with
    | O => s
    | S fuel' =>
        grow_memory fuel' index
          {| memory := realloc_memory (memory s) (memory_rings s) (memory_rings s + 1);
             memory_rings := memory_rings s + 1 |}
    end
  else s.

(** [get_memory_cell]: the index of the cell and the store after growth. *)
Definition get_memory_cell (p q : long) (s : memory_store) : size_t * memory_store :=
  let index := axial_to_mem_index p q in
  (index, grow_memory (S (Z.to_nat index)) index s).

(** A pointer to an edge: the index of its cell and its axis. *)
Definition edge_ptr : Type := size_t * axis.

Definition cell_get (c : memory_cell) (a : axis) : int :=
  match a with X => value_X c | Y => value_Y c | Z => value_Z c end.

Definition cell_set (a : axis) (v : int) (c : memory_cell) : memory_cell :=
  match a with
  | X => {| value_X := v; value_Y := value_Y c; value_Z := value_Z c |}
  | Y => {| value_X := value_X c; value_Y := v; value_Z := value_Z c |}
  | Z => {| value_X := value_X c; value_Y := value_Y c; value_Z := v |}
  end.

(** Reading [*e].  A cell that is not allocated yet reads as the zero it will
    hold once [realloc_memory] has created it. *)
Definition deref (s : memory_store) (e : edge_ptr) : int :=
  cell_get (default zero_cell (memory s !! Z.to_nat (fst e))) (snd e).

(** Writing [*e = v], [v] converted to [int]. *)
Definition assign (s : memory_store) (e : edge_ptr) (v : long) : memory_store :=
  {| memory := alter (cell_set (snd e) (wrap_int v)) (Z.to_nat (fst e)) (memory s);
     memory_rings := memory_rings s |}.

(** [get_memory_edge] *)
Definition get_memory_edge (ptr : memory_pointer) (s : memory_store) : edge_ptr * memory_store :=
  let '(index, s) := get_memory_cell (mp_p ptr) (mp_q ptr) s in
  ((index, mp_axis ptr), s).

(** The local array [long xyz[3]] of [get_neighbor] and [move_mp]. *)
Definition xyz_get (xyz : long * long * long) (a : axis) : long :=
  let '(x, y, z) := xyz in
  match a with X => x | Y => y | Z => z end.

Definition xyz_add (xyz : long * long * long) (a : axis) (d : long) : long * long * long :=
  let '(x, y, z) := xyz in
  match a with
  | X => (x + d, y, z)
  | Y => (x, y + d, z)
  | Z => (x, y, z + d)
  end.

(** [MP.direction == IN ? OUT : IN] *)
Definition flip (o : orientation) : orientation :=
  match o with IN => OUT | OUT => IN end.

Definition neighbor_eqb (a b : neighbor) : bool :=
  match a, b with LEFT, LEFT | RIGHT, RIGHT => true | _, _ => false end.

(** ** Characters *)

Definition char_code (c : ascii) : int := Z.of_N (N_of_ascii c).

(** [isalpha], [isdigit] and [isspace] of the C locale, on character codes. *)
Definition isalpha (c : int) : bool :=
  ((65 <=? c) && (c <=? 90)) || ((97 <=? c) && (c <=? 122)).

Definition isdigit (c : int) : bool := (48 <=? c) && (c <=? 57).

Definition isspace (c : int) : bool := (c =? 32) || ((9 <=? c) && (c <=? 13)).

(** [EOF] *)
Definition EOF : int := -1.

(** ** Standard streams *)

(** What the program wrote: [printf("%c", c)] and [printf("%d", v)]. *)
Inductive output := Putc (c : int) | Printd (v : int).

(** [getchar()]: the next byte of the input, or [EOF]. *)
Definition getchar (input : list int) : int * list int :=
  match input with
  | c :: rest => (c, rest)
  | [] => (EOF, [])
  end.

(** The [do ... while] loop of [?]: discard bytes until a digit, a sign or
    the end of the input; the byte found is returned with what follows it. *)
Fixpoint skip_to_number (input : list int) : int * list int :=
  match input with
  | [] => (EOF, [])
  | ch :: rest =>
      if negb (isdigit ch) && negb (ch =? 43) && negb (ch =? 45)
      then skip_to_number rest
      else (ch, rest)
  end.

Fixpoint read_digits (acc : long) (input : list int) : long * list int :=
  match input with
  | c :: rest => if isdigit c then read_digits (acc * 10 + (c - 48)) rest else (acc, input)
  | [] => (acc, [])
  end.

(** The conversion of [scanf] accumulates a [long] and saturates at its
    bounds. *)
Definition saturate_long (v : BinNums.Z) : long :=
  if v >? 2 ^ 63 - 1 then 2 ^ 63 - 1 else if v <? - 2 ^ 63 then - 2 ^ 63 else v.

(** [scanf("%d", edge)] on an input that starts with a sign or a digit: the
    value converted, if any, and the rest of the input.  A sign that no digit
    follows is consumed and converts nothing.  The value is the saturated
    [long]; the store into the edge then reduces it to an [int]. *)
Definition scanf_d (input : list int) : option long * list int :=
  let '(sign, rest) :=
    match input with
    | c :: r => if c =? 43 then (1, r) else if c =? 45 then (-1, r) else (1, input)
    | [] => (1, [])
    end in
  match rest with
  | c :: _ =>
      if isdigit c then
        let '(v, rest') := read_digits 0 rest in (Some (saturate_long (sign * v)), rest')
      else (None, rest)
  | [] => (None, [])
  end.

(** ** The machine: locals of [main] *)

Record IP :=
  { ip_p : long; ip_q : long; ip_direction : direction; ignore_next : bool }.

Record machine :=
  { program : list program_cell;
    program_rings : long;
    IPs : list IP;
    IP_index : int;
    store : memory_store;
    MP : memory_pointer;
    stdin : list int;
    stdout : list output }.

Definition set_IPs (m : machine) (v : list IP) : machine :=
  {| program := program m; program_rings := program_rings m; IPs := v;
     IP_index := IP_index m; store := store m; MP := MP m;
     stdin := stdin m; stdout := stdout m |}.

Definition set_IP_index (m : machine) (v : int) : machine :=
  {| program := program m; program_rings := program_rings m; IPs := IPs m;
     IP_index := v; store := store m; MP := MP m;
     stdin := stdin m; stdout := stdout m |}.

Definition set_store (m : machine) (v : memory_store) : machine :=
  {| program := program m; program_rings := program_rings m; IPs := IPs m;
     IP_index := IP_index m; store := v; MP := MP m;
     stdin := stdin m; stdout := stdout m |}.

Definition set_MP (m : machine) (v : memory_pointer) : machine :=
  {| program := program m; program_rings := program_rings m; IPs := IPs m;
     IP_index := IP_index m; store := store m; MP := v;
     stdin := stdin m; stdout := stdout m |}.

Definition set_stdin (m : machine) (v : list int) : machine :=
  {| program := program m; program_rings := program_rings m; IPs := IPs m;
     IP_index := IP_index m; store := store m; MP := MP m;
     stdin := v; stdout := stdout m |}.

Definition set_stdout (m : machine) (v : list output) : machine :=
  {| program := program m; program_rings := program_rings m; IPs := IPs m;
     IP_index := IP_index m; store := store m; MP := MP m;
     stdin := stdin m; stdout := v |}.

Definition set_direction (d : direction) (ip : IP) : IP :=
  {| ip_p := ip_p ip; ip_q := ip_q ip; ip_direction := d; ignore_next := ignore_next ip |}.

Definition set_ignore_next (b : bool) (ip : IP) : IP :=
  {| ip_p := ip_p ip; ip_q := ip_q ip; ip_direction := ip_direction ip; ignore_next := b |}.

Definition set_position (p q : long) (ip : IP) : IP :=
  {| ip_p := p; ip_q := q; ip_direction := ip_direction ip; ignore_next := ignore_next ip |}.

Definition set_orientation (o : orientation) (ptr : memory_pointer) : memory_pointer :=
  {| mp_p := mp_p ptr; mp_q := mp_q ptr; mp_axis := mp_axis ptr; mp_direction := o |}.

Definition null_IP : IP :=
  {| ip_p := 0; ip_q := 0; ip_direction := NW; ignore_next := false |}.

(** [IPs[i]] *)
Definition IP_at (m : machine) (i : nat) : IP := default null_IP (IPs m !! i).

(** The value of the current memory edge, [*get_memory_edge(MP, ...)], with
    the machine after the growth the access may cause. *)
Definition current_edge (m : machine) : edge_ptr * machine :=
  let '(e, s) := get_memory_edge (MP m) (store m) in (e, set_store m s).

(** What one iteration of the loop of [main] leads to. *)
Inductive outcome :=
| Running (m : machine)   (* the loop goes on *)
| Done (m : machine)      (* [@] was executed *)
| Paused (m : machine)    (* the cell has a breakpoint: the debugger, which the
                             embedding does not follow, runs before the
                             instruction is dispatched *)
| Undefined               (* a read of the unassigned [reflection], or a fetch
                             outside the program array *)
| Trap                    (* an integer division that the machine cannot do *)
| Stale.                  (* a pointer into the memory array is used after a
                             call that reallocated the array: C leaves the
                             behaviour undefined, and the embedding does not
                             follow the run any further *)

(** [l / r] and [l % r] on [int].  The division instruction traps when [r]
    is zero and when the quotient [INT_MIN / -1] is not an [int] (in both
    cases C leaves the behaviour undefined). *)
Definition divide (l r : int) : option long :=
  if (r =? 0) || ((l =? - 2 ^ 31) && (r =? -1)) then None else Some (Z.quot l r).

Definition remainder (l r : int) : option long :=
  if (r =? 0) || ((l =? - 2 ^ 31) && (r =? -1)) then None else Some (Z.rem l r).

(** ** Mirrors and branches: the nested switches on [IP->direction] *)

Definition mirror_slash (d : direction) : direction :=
  match d with NW => E | NE => NE | E => NW | SE => W | SW => SW | W => SE end.

Definition mirror_backslash (d : direction) : direction :=
  match d with NW => NW | NE => W | E => SW | SE => SE | SW => E | W => NE end.

Definition mirror_underscore (d : direction) : direction :=
  match d with NW => SW | NE => SE | E => E | SE => NE | SW => NW | W => W end.

Definition mirror_bar (d : direction) : direction :=
  match d with NW => NE | NE => NW | E => W | SE => SW | SW => SE | W => E end.

(** [<]: the edge is read only when the IP comes in heading [E]. *)
Definition branch_lt (i : nat) (m : machine) : machine :=
  match ip_direction (IP_at m i) with
  | NW => set_IPs m (alter (set_direction W) i (IPs m))
  | NE => set_IPs m (alter (set_direction SW) i (IPs m))
  | E => let '(e, m) := current_edge m in
         set_IPs m (alter (set_direction (if deref (store m) e >? 0 then SE else NE)) i (IPs m))
  | SE => set_IPs m (alter (set_direction NW) i (IPs m))
  | SW => set_IPs m (alter (set_direction W) i (IPs m))
  | W => set_IPs m (alter (set_direction E) i (IPs m))
  end.

(** [>]: the edge is read only when the IP comes in heading [W]. *)
Definition branch_gt (i : nat) (m : machine) : machine :=
  match ip_direction (IP_at m i) with
  | NW => set_IPs m (alter (set_direction SE) i (IPs m))
  | NE => set_IPs m (alter (set_direction E) i (IPs m))
  | E => set_IPs m (alter (set_direction W) i (IPs m))
  | SE => set_IPs m (alter (set_direction E) i (IPs m))
  | SW => set_IPs m (alter (set_direction NE) i (IPs m))
  | W => let '(e, m) := current_edge m in
         set_IPs m (alter (set_direction (if deref (store m) e >? 0 then NW else SW)) i (IPs m))
  end.

(** ** Advancing an IP, with the reflection at the border *)

(** The cascade that assigns [reflection]; [None] when no branch is taken and
    the variable stays unassigned.  The edge is read in the first three
    branches only. *)
Definition choose_reflection (np nq nr : long) (m : machine) : option axis * machine :=
  if np =? 0 then
    let '(e, m) := current_edge m in (Some (if deref (store m) e >? 0 then Y else Z), m)
  else if nq =? 0 then
    let '(e, m) := current_edge m in (Some (if deref (store m) e >? 0 then Z else X), m)
  else if nr =? 0 then
    let '(e, m) := current_edge m in (Some (if deref (store m) e >? 0 then X else Y), m)
  else if nq * nr >? 0 then (Some X, m)
  else if nr * np >? 0 then (Some Y, m)
  else if np * nq >? 0 then (Some Z, m)
  else (None, m).

(** The end of the loop body: from [long np = ...] to [IP->q = nq]. *)
Definition advance (i : nat) (m : machine) : option machine :=
  let ip := IP_at m i in
  let np := ip_p ip + fst (direction_offset (ip_direction ip)) in
  let nq := ip_q ip + snd (direction_offset (ip_direction ip)) in
  let nr := - np - nq in
  if Z.abs np + Z.abs nq + Z.abs nr >=? 2 * program_rings m then
    match choose_reflection np nq nr m with
    | (Some X, m) => Some (set_IPs m (alter (set_position (- ip_p ip) (ip_p ip + ip_q ip)) i (IPs m)))
    | (Some Y, m) => Some (set_IPs m (alter (set_position (ip_p ip + ip_q ip) (- ip_q ip)) i (IPs m)))
    | (Some Z, m) => Some (set_IPs m (alter (set_position (- ip_q ip) (- ip_p ip)) i (IPs m)))
    | (None, _) => None
    end
  else Some (set_IPs m (alter (set_position np nq) i (IPs m))).

(** ** Loading the program: the first block of [main] *)

(** The state of the reading loop: the cells filled so far (their number is
    the index [i]), the ring count, and the pending breakpoint flag. *)
Fixpoint read_source (source : list ascii) (cells : list program_cell)
    (program_rings : long) (debug_next : bool) : list program_cell * long :=
  match source with
  | [] => (cells, program_rings)
  | c :: rest =>
      if (char_code c =? 96)%Z then read_source rest cells program_rings true
      else if negb (isspace (char_code c)) then
        let program_rings :=
          if Z.of_nat (length cells) >=? hex_size program_rings
          then program_rings + 1 else program_rings in
        read_source rest (cells ++ [{| value := c; debug := debug_next |}]) program_rings false
      else read_source rest cells program_rings debug_next
  end.

(** The program array after the padding loop, and [program_rings]. *)
Definition load_program (source : list ascii) : list program_cell * long :=
  let '(cells, program_rings) := read_source source [] 1 false in
  (cells ++ replicate (Z.to_nat (hex_size program_rings) - length cells)%nat
              {| value := "."%char; debug := false |},
   program_rings).

(** The initializer of [IPs]. *)
Definition initial_IPs (program_rings : long) : list IP :=
  [ {| ip_p := 0; ip_q := - (program_rings - 1); ip_direction := E; ignore_next := false |};
    {| ip_p := - (program_rings - 1); ip_q := 0; ip_direction := SE; ignore_next := false |};
    {| ip_p := - (program_rings - 1); ip_q := program_rings - 1; ip_direction := SW; ignore_next := false |};
    {| ip_p := 0; ip_q := program_rings - 1; ip_direction := W; ignore_next := false |};
    {| ip_p := program_rings - 1; ip_q := 0; ip_direction := NW; ignore_next := false |};
    {| ip_p := program_rings - 1; ip_q := - (program_rings - 1); ip_direction := NE; ignore_next := false |} ].

(** [calloc(1, sizeof(struct memory_cell))] with [memory_rings = 1]. *)
Definition initial_store : memory_store :=
  {| memory := [zero_cell]; memory_rings := 1 |}.

(** * The earlier revision: [hexagony.c] *)

Module Root.

(** [get_neighbor]: a pointer to the [neighbor] of the edge [ptr] points to. *)
Definition get_neighbor (ptr : memory_pointer) (neighbor : neighbor) (s : memory_store)
  : edge_ptr * memory_store :=
  let xyz := (mp_p ptr, mp_q ptr, - mp_p ptr - mp_q ptr) in
  let xyz :=
    match mp_direction ptr with
    | OUT =>
        match mp_axis ptr with
        | X =>
            let xyz := xyz_add xyz X 1 in
            let xyz := if neighbor_eqb neighbor LEFT then xyz_add xyz Z (-1) else xyz in
            if neighbor_eqb neighbor RIGHT then xyz_add xyz Y (-1) else xyz
        | Y =>
            let xyz := xyz_add xyz Y 1 in
            let xyz := if neighbor_eqb neighbor LEFT then xyz_add xyz X (-1) else xyz in
            if neighbor_eqb neighbor RIGHT then xyz_add xyz Z (-1) else xyz
        | Z =>
            let xyz := xyz_add xyz Z 1 in
            let xyz := if neighbor_eqb neighbor LEFT then xyz_add xyz Y (-1) else xyz in
            if neighbor_eqb neighbor RIGHT then xyz_add xyz X (-1) else xyz
        end
    | IN => xyz
    end in
  let '(cell, s) := get_memory_cell (xyz_get xyz X) (xyz_get xyz Y) s in
  ((cell, axis_of_value (modulo (axis_plus (mp_axis ptr) neighbor) 3)), s).

(** [move_mp]: the pointer after the move to its left or right neighbor. *)
Definition move_mp (ptr : memory_pointer) (neighbor : neighbor) : memory_pointer :=
  let xyz := (mp_p ptr, mp_q ptr, - mp_p ptr - mp_q ptr) in
  let '(xyz, direction) :=
    match mp_direction ptr with
    | OUT =>
        (match mp_axis ptr with
         | X =>
             let xyz := xyz_add xyz X 1 in
             let xyz := if neighbor_eqb neighbor LEFT then xyz_add xyz Z (-1) else xyz in
             if neighbor_eqb neighbor RIGHT then xyz_add xyz Y (-1) else xyz
         | Y =>
             let xyz := xyz_add xyz Y 1 in
             let xyz := if neighbor_eqb neighbor LEFT then xyz_add xyz X (-1) else xyz in
             if neighbor_eqb neighbor RIGHT then xyz_add xyz Z (-1) else xyz
         | Z =>
             let xyz := xyz_add xyz Z 1 in
             let xyz := if neighbor_eqb neighbor LEFT then xyz_add xyz Y (-1) else xyz in
             if neighbor_eqb neighbor RIGHT then xyz_add xyz X (-1) else xyz
         end, IN)
    | IN => (xyz, OUT)
    end in
  {| mp_p := xyz_get xyz X;
     mp_q := xyz_get xyz Y;
     mp_axis := axis_of_value (modulo (axis_plus (mp_axis ptr) neighbor) 3);
     mp_direction := direction |}.

(** [MP.direction = MP.direction == IN ? OUT : IN] *)
Definition reverse_mp (m : machine) : machine :=
  set_MP m (set_orientation (flip (mp_direction (MP m))) (MP m)).

(** The arms [+ - * : %]: the current edge receives [op] of the left and
    right neighbours.  The three calls that return the pointers are not
    sequenced with respect to one another, and each of them reallocates the
    array when its cell is not allocated yet: when one of them does, a
    pointer another one returned may be used after the reallocation.  [op]
    is [None] where the C operator traps. *)
Definition arith (op : int -> int -> option long) (m : machine) : outcome :=
  let '(edge, s) := get_memory_edge (MP m) (store m) in
  let '(l, s) := get_neighbor (MP m) LEFT s in
  let '(r, s) := get_neighbor (MP m) RIGHT s in
  if memory_rings s =? memory_rings (store m) then
    match op (deref s l) (deref s r) with
    | Some v => Running (set_store m (assign s edge v))
    | None => Trap
    end
  else Stale.

(** The instruction dispatch of [main] for the instruction [c], executed by
    the IP [IPs + i].  In the arm of [&] the pointer [edge] is taken before
    the call of [get_neighbor]: when that call reallocates the array, the
    store goes through a pointer into the old one. *)
Definition exec (i : nat) (c : ascii) (m : machine) : outcome :=
  if isalpha (char_code c) then
    let '(edge, m) := current_edge m in
    Running (set_store m (assign (store m) edge (char_code c)))
  else if isdigit (char_code c) then
    let '(edge, m) := current_edge m in
    let m := set_store m (assign (store m) edge (deref (store m) edge * 10)) in
    let m := set_store m (assign (store m) edge
               (deref (store m) edge
                + ((if deref (store m) edge <? 0 then -1 else 1) * char_code c - 48))) in
    Running m
  else
    match c with
    | "."%char => Running m
    | "@"%char => Done m
    | ")"%char =>
        let '(edge, m) := current_edge m in
        Running (set_store m (assign (store m) edge (deref (store m) edge + 1)))
    | "("%char =>
        let '(edge, m) := current_edge m in
        Running (set_store m (assign (store m) edge (deref (store m) edge - 1)))
    | "+"%char => arith (fun l r => Some (l + r)) m
    | "-"%char => arith (fun l r => Some (l - r)) m
    | "*"%char => arith (fun l r => Some (l * r)) m
    | ":"%char => arith divide m
    | "%"%char => arith remainder m
    | "~"%char =>
        let '(edge, m) := current_edge m in
        Running (set_store m (assign (store m) edge (deref (store m) edge * -1)))
    | ","%char =>
        let '(edge, m) := current_edge m in
        let '(ch, rest) := getchar (stdin m) in
        Running (set_stdin (set_store m (assign (store m) edge ch)) rest)
    | "?"%char =>
        let '(ch, rest) := skip_to_number (stdin m) in
        let '(edge, m) := current_edge m in
        let m := set_store m (assign (store m) edge 0) in
        if ch =? EOF then Running (set_stdin m rest)
        else
          match scanf_d (ch :: rest) with
          | (Some v, rest) => Running (set_stdin (set_store m (assign (store m) edge v)) rest)
          | (None, rest) => Running (set_stdin m rest)
          end
    | ";"%char =>
        let '(edge, m) := current_edge m in
        Running (set_stdout m (stdout m ++ [Putc (modulo (deref (store m) edge) 256)]))
    | "!"%char =>
        let '(edge, m) := current_edge m in
        Running (set_stdout m (stdout m ++ [Printd (deref (store m) edge)]))
    | "$"%char => Running (set_IPs m (alter (set_ignore_next true) i (IPs m)))
    | "/"%char =>
        Running (set_IPs m (alter (set_direction (mirror_slash (ip_direction (IP_at m i)))) i (IPs m)))
    | "\"%char =>
        Running (set_IPs m (alter (set_direction (mirror_backslash (ip_direction (IP_at m i)))) i (IPs m)))
    | "_"%char =>
        Running (set_IPs m (alter (set_direction (mirror_underscore (ip_direction (IP_at m i)))) i (IPs m)))
    | "|"%char =>
        Running (set_IPs m (alter (set_direction (mirror_bar (ip_direction (IP_at m i)))) i (IPs m)))
    | "<"%char => Running (branch_lt i m)
    | ">"%char => Running (branch_gt i m)
    | "["%char => Running (set_IP_index m (modulo (IP_index m + 1) 6))
    | "]"%char => Running (set_IP_index m (modulo (IP_index m - 1) 6))
    | "#"%char =>
        let '(edge, m) := current_edge m in
        (* no [break]: control falls through into the arm of the left brace *)
        let m := set_IP_index m (modulo (deref (store m) edge) 6) in
        Running (set_MP m (move_mp (MP m) LEFT))
    | "{"%char => Running (set_MP m (move_mp (MP m) LEFT))
    | "}"%char => Running (set_MP m (move_mp (MP m) RIGHT))
    | Ascii false true false false false true false false (* the double quote *) =>
        let m := reverse_mp m in
        let m := set_MP m (move_mp (MP m) RIGHT) in
        Running (reverse_mp m)
    | "'"%char =>
        let m := reverse_mp m in
        let m := set_MP m (move_mp (MP m) LEFT) in
        Running (reverse_mp m)
    | "="%char => Running (reverse_mp m)
    | "^"%char =>
        let '(edge, m) := current_edge m in
        Running (set_MP m (move_mp (MP m) (if deref (store m) edge <=? 0 then LEFT else RIGHT)))
    | "&"%char =>
        let '(edge, m) := current_edge m in
        let '(n, s) := get_neighbor (MP m) (if deref (store m) edge <=? 0 then LEFT else RIGHT) (store m) in
        if memory_rings s =? memory_rings (store m)
        then Running (set_store m (assign s edge (deref s n)))
        else Stale
    | _ => Running m
    end.

(** One iteration of the loop of [main].  [i] is the pointer
    [IP = IPs + IP_index] taken at the top of the body.  The instruction is
    fetched at [program + index]: an index that is negative (the sentinel
    of [axial_to_index]) or beyond the array is a read outside the array. *)
Definition step (m : machine) : outcome :=
  let i := Z.to_nat (IP_index m) in
  let ip := IP_at m i in
  if ignore_next ip then
    match advance i (set_IPs m (alter (set_ignore_next false) i (IPs m))) with
    | Some m => Running m
    | None => Undefined
    end
  else
    let index := axial_to_index (ip_p ip) (ip_q ip) (program_rings m) in
    if index <? 0 then Undefined
    else
      match program m !! Z.to_nat index with
      | None => Undefined
      | Some instruction =>
          if debug instruction then Paused m
          else
            match exec i (value instruction) m with
            | Running m =>
                match advance i m with Some m => Running m | None => Undefined end
            | Done m =>
                (* the body runs to its end before [while] tests for [@] *)
                match advance i m with Some m => Done m | None => Undefined end
            | other => other
            end
      end.

(** The loop of [main], for at most [fuel] iterations. *)
Fixpoint run (fuel : nat) (m : machine) : outcome :=
  match fuel with
  | O => Running m
  | S fuel' =>
      match step m with
      | Running m => run fuel' m
      | other => other
      end
  end.

(** [struct memory_pointer MP = {0, 0, Z, IN}] *)
Definition initial_MP : memory_pointer :=
  {| mp_p := 0; mp_q := 0; mp_axis := Z; mp_direction := IN |}.

(** The locals of [main] when the loop is entered, for the text [source] of
    the program file and the bytes [input] on the standard input. *)
Definition startup (source : list ascii) (input : list int) : machine :=
  let '(program, program_rings) := load_program source in
  {| program := program;
     program_rings := program_rings;
     IPs := initial_IPs program_rings;
     IP_index := 0;
     store := initial_store;
     MP := initial_MP;
     stdin := input;
     stdout := [] |}.

End Root.

(** * The later revision: [src/hexagony.c] *)

Module Src.

(** [get_neighbor]: a pointer to the [neighbor] of the edge [ptr] points to. *)
Definition get_neighbor (ptr : memory_pointer) (neighbor : neighbor) (s : memory_store)
  : edge_ptr * memory_store :=
  let xyz := (mp_p ptr, mp_q ptr, - mp_p ptr - mp_q ptr) in
  let neighbor_axis :=
    axis_of_value (modulo (axis_plus (mp_axis ptr) neighbor) 3) in
  let xyz :=
    match mp_direction ptr with
    | OUT => xyz_add (xyz_add xyz (mp_axis ptr) 1) neighbor_axis (-1)
    | IN => xyz
    end in
  let '(cell, s) := get_memory_cell (xyz_get xyz X) (xyz_get xyz Y) s in
  ((cell, neighbor_axis), s).

(** [move_mp]: the pointer after the move to its left or right neighbor. *)
Definition move_mp (ptr : memory_pointer) (neighbor : neighbor) : memory_pointer :=
  let xyz := (mp_p ptr, mp_q ptr, - mp_p ptr - mp_q ptr) in
  let neighbor_axis :=
    axis_of_value (modulo (axis_plus (mp_axis ptr) neighbor) 3) in
  let '(xyz, direction) :=
    match mp_direction ptr with
    | OUT => (xyz_add (xyz_add xyz (mp_axis ptr) 1) neighbor_axis (-1), IN)
    | IN => (xyz, OUT)
    end in
  {| mp_p := xyz_get xyz X;
     mp_q := xyz_get xyz Y;
     mp_axis := neighbor_axis;
     mp_direction := direction |}.

(** [MP.direction = MP.direction == IN ? OUT : IN] *)
Definition reverse_mp (m : machine) : machine :=
  set_MP m (set_orientation (flip (mp_direction (MP m))) (MP m)).

(** The arms [+ - * : %]: the current edge receives [op] of the left and
    right neighbours.  The three calls that return the pointers are not
    sequenced with respect to one another, and each of them reallocates the
    array when its cell is not allocated yet: when one of them does, a
    pointer another one returned may be used after the reallocation.  [op]
    is [None] where the C operator traps. *)
Definition arith (op : int -> int -> option long) (m : machine) : outcome :=
  let '(edge, s) := get_memory_edge (MP m) (store m) in
  let '(l, s) := get_neighbor (MP m) LEFT s in
  let '(r, s) := get_neighbor (MP m) RIGHT s in
  if memory_rings s =? memory_rings (store m) then
    match op (deref s l) (deref s r) with
    | Some v => Running (set_store m (assign s edge v))
    | None => Trap
    end
  else Stale.

(** The instruction dispatch of [main] for the instruction [c], executed by
    the IP [IPs + i].  In the arm of [&] the pointer [edge] is taken before
    the call of [get_neighbor]: when that call reallocates the array, the
    store goes through a pointer into the old one. *)
Definition exec (i : nat) (c : ascii) (m : machine) : outcome :=
  if isalpha (char_code c) then
    let '(edge, m) := current_edge m in
    Running (set_store m (assign (store m) edge (char_code c)))
  else if isdigit (char_code c) then
    let '(edge, m) := current_edge m in
    let m := set_store m (assign (store m) edge (deref (store m) edge * 10)) in
    let m := set_store m (assign (store m) edge
               (deref (store m) edge
                + (if deref (store m) edge <? 0 then -1 else 1) * (char_code c - 48))) in
    Running m
  else
    match c with
    | "."%char => Running m
    | "@"%char => Done m
    | ")"%char =>
        let '(edge, m) := current_edge m in
        Running (set_store m (assign (store m) edge (deref (store m) edge + 1)))
    | "("%char =>
        let '(edge, m) := current_edge m in
        Running (set_store m (assign (store m) edge (deref (store m) edge - 1)))
    | "+"%char => arith (fun l r => Some (l + r)) m
    | "-"%char => arith (fun l r => Some (l - r)) m
    | "*"%char => arith (fun l r => Some (l * r)) m
    | ":"%char => arith divide m
    | "%"%char => arith remainder m
    | "~"%char =>
        let '(edge, m) := current_edge m in
        Running (set_store m (assign (store m) edge (deref (store m) edge * -1)))
    | ","%char =>
        let '(edge, m) := current_edge m in
        let '(ch, rest) := getchar (stdin m) in
        Running (set_stdin (set_store m (assign (store m) edge ch)) rest)
    | "?"%char =>
        let '(ch, rest) := skip_to_number (stdin m) in
        let '(edge, m) := current_edge m in
        let m := set_store m (assign (store m) edge 0) in
        if ch =? EOF then Running (set_stdin m rest)
        else
          match scanf_d (ch :: rest) with
          | (Some v, rest) => Running (set_stdin (set_store m (assign (store m) edge v)) rest)
          | (None, rest) => Running (set_stdin m rest)
          end
    | ";"%char =>
        let '(edge, m) := current_edge m in
        Running (set_stdout m (stdout m ++ [Putc (modulo (deref (store m) edge) 256)]))
    | "!"%char =>
        let '(edge, m) := current_edge m in
        Running (set_stdout m (stdout m ++ [Printd (deref (store m) edge)]))
    | "$"%char => Running (set_IPs m (alter (set_ignore_next true) i (IPs m)))
    | "/"%char =>
        Running (set_IPs m (alter (set_direction (mirror_slash (ip_direction (IP_at m i)))) i (IPs m)))
    | "\"%char =>
        Running (set_IPs m (alter (set_direction (mirror_backslash (ip_direction (IP_at m i)))) i (IPs m)))
    | "_"%char =>
        Running (set_IPs m (alter (set_direction (mirror_underscore (ip_direction (IP_at m i)))) i (IPs m)))
    | "|"%char =>
        Running (set_IPs m (alter (set_direction (mirror_bar (ip_direction (IP_at m i)))) i (IPs m)))
    | "<"%char => Running (branch_lt i m)
    | ">"%char => Running (branch_gt i m)
    | "["%char => Running (set_IP_index m (modulo (IP_index m - 1) 6))
    | "]"%char => Running (set_IP_index m (modulo (IP_index m + 1) 6))
    | "#"%char =>
        let '(edge, m) := current_edge m in
        Running (set_IP_index m (modulo (deref (store m) edge) 6))
    | "{"%char => Running (set_MP m (move_mp (MP m) LEFT))
    | "}"%char => Running (set_MP m (move_mp (MP m) RIGHT))
    | Ascii false true false false false true false false (* the double quote *) =>
        let m := reverse_mp m in
        let m := set_MP m (move_mp (MP m) RIGHT) in
        Running (reverse_mp m)
    | "'"%char =>
        let m := reverse_mp m in
        let m := set_MP m (move_mp (MP m) LEFT) in
        Running (reverse_mp m)
    | "="%char => Running (reverse_mp m)
    | "^"%char =>
        let '(edge, m) := current_edge m in
        Running (set_MP m (move_mp (MP m) (if deref (store m) edge <=? 0 then LEFT else RIGHT)))
    | "&"%char =>
        let '(edge, m) := current_edge m in
        let '(n, s) := get_neighbor (MP m) (if deref (store m) edge <=? 0 then LEFT else RIGHT) (store m) in
        if memory_rings s =? memory_rings (store m)
        then Running (set_store m (assign s edge (deref s n)))
        else Stale
    | _ => Running m
    end.

(** One iteration of the loop of [main].  [i] is the pointer
    [IP = IPs + IP_index] taken at the top of the body.  The instruction is
    fetched at [program + index]: an index that is negative (the sentinel
    of [axial_to_index]) or beyond the array is a read outside the array. *)
Definition step (m : machine) : outcome :=
  let i := Z.to_nat (IP_index m) in
  let ip := IP_at m i in
  if ignore_next ip then
    match advance i (set_IPs m (alter (set_ignore_next false) i (IPs m))) with
    | Some m => Running m
    | None => Undefined
    end
  else
    let index := axial_to_index (ip_p ip) (ip_q ip) (program_rings m) in
    if index <? 0 then Undefined
    else
      match program m !! Z.to_nat index with
      | None => Undefined
      | Some instruction =>
          if debug instruction then Paused m
          else
            match exec i (value instruction) m with
            | Running m =>
                match advance i m with Some m => Running m | None => Undefined end
            | other => other
            end
      end.

(** The loop of [main], for at most [fuel] iterations. *)
Fixpoint run (fuel : nat) (m : machine) : outcome :=
  match fuel with
  | O => Running m
  | S fuel' =>
      match step m with
      | Running m => run fuel' m
      | other => other
      end
  end.

(** [struct memory_pointer MP = {0, 0, Z, OUT}] *)
Definition initial_MP : memory_pointer :=
  {| mp_p := 0; mp_q := 0; mp_axis := Z; mp_direction := OUT |}.

(** The locals of [main] when the loop is entered, for the text [source] of
    the program file and the bytes [input] on the standard input. *)
Definition startup (source : list ascii) (input : list int) : machine :=
  let '(program, program_rings) := load_program source in
  {| program := program;
     program_rings := program_rings;
     IPs := initial_IPs program_rings;
     IP_index := 0;
     store := initial_store;
     MP := initial_MP;
     stdin := input;
     stdout := [] |}.

End Src.

(** * Notions used to state the properties *)

(** ** Ring and sextant decomposition of a memory index

    The source only encodes a coordinate.  The decomposition below names the
    two quantities [axial_to_mem_index] adds up (the ring number and the
    clockwise offset inside the ring) and the recomposition of a coordinate
    from them, following the memory layout given in the specification. *)

(** The ring number: [(labs(x) + labs(y) + labs(z)) / 2]. *)
Definition mem_ring (p q : long) : size_t :=
  Z.quot (Z.abs p + Z.abs q + Z.abs (- p - q)) 2.

(** The index of the first cell of a ring: [ring > 0 ? 3*ring*(ring-1)+1 : 0]. *)
Definition ring_base (ring : size_t) : size_t :=
  if ring >? 0 then 3 * ring * (ring - 1) + 1 else 0.

(** The clockwise offset inside the ring: [ring * s + offset] for the sextant
    [s] the coordinate falls in. *)
Definition mem_offset (p q : long) : size_t :=
  axial_to_mem_index p q - ring_base (mem_ring p q).

(** The coordinate at clockwise offset [k] of ring [ring]: sextant
    [s = k / ring], position [o = k mod ring] inside the sextant. *)
Definition axial_of_ring_offset (ring k : size_t) : long * long :=
  if ring <=? 0 then (0, 0)
  else
    let s := k / ring in
    let o := k mod ring in
    if s =? 0 then (- o, o - ring)
    else if s =? 1 then (- ring, o)
    else if s =? 2 then (o - ring, ring)
    else if s =? 3 then (o, ring - o)
    else if s =? 4 then (ring, - o)
    else (ring - o, - ring).

(** The ring holding memory index [i]: the first [r], counting up from
    [r], with [i < hex_size (r + 1)]. *)
Fixpoint ring_search (fuel : nat) (r i : size_t) : size_t :=
  if i <? hex_size (r + 1) then r
  else match fuel with
       | O => r
       | S fuel' => ring_search fuel' (r + 1) i
       end.

Definition ring_of_index (i : size_t) : size_t := ring_search (Z.to_nat i) 0 i.

(** Inverse of [axial_to_mem_index]: ring, then offset inside the ring. *)
Definition mem_index_to_axial (i : size_t) : long * long :=
  let ring := ring_of_index i in
  axial_of_ring_offset ring (i - ring_base ring).

(** ** Well-formed stores, edges, sequences of instructions *)

(** The array holds the cells of [memory_rings] rings, as [realloc_memory]
    leaves it. *)
Definition store_ok (s : memory_store) : Prop :=
  1 <= memory_rings s /\ Z.of_nat (length (memory s)) = hex_size (memory_rings s).

(** The edge the memory pointer designates. *)
Definition MP_edge (m : machine) : edge_ptr :=
  (axial_to_mem_index (mp_p (MP m)) (mp_q (MP m)), mp_axis (MP m)).

(** [=]: the pointer seen from the other side. *)
Definition reverse (ptr : memory_pointer) : memory_pointer :=
  set_orientation (flip (mp_direction ptr)) ptr.

(** What a move to the side [a] followed by a move to the side [b] does to
    the pointer [ptr], with [move] for [move_mp]: the axis and the
    orientation are those of [ptr], the cell is another one, and the pointer
    is [ptr] again when the second move is made backwards. *)
Definition there_and_back (move : memory_pointer -> neighbor -> memory_pointer)
    (ptr : memory_pointer) (a b : neighbor) : Prop :=
  mp_axis (move (move ptr a) b) = mp_axis ptr
  /\ mp_direction (move (move ptr a) b) = mp_direction ptr
  /\ (mp_p (move (move ptr a) b), mp_q (move (move ptr a) b)) <> (mp_p ptr, mp_q ptr)
  /\ reverse (move (reverse (move ptr a)) b) = ptr.

(** The instructions that move the pointer to its left neighbour, or read
    that neighbour, at least for some value of the current edge. *)
Definition looks_left (c : ascii) : bool :=
  match c with
  | "{"%char | "'"%char | "^"%char | "&"%char
  | "+"%char | "-"%char | "*"%char | ":"%char | "%"%char => true
  | _ => false
  end.

(** The instructions [cs] executed one after the other by the IP [i] of
    the later revision, without the moves of the IP in between. *)
Fixpoint exec_all (i : nat) (cs : list ascii) (m : machine) : outcome :=
  match cs with
  | [] => Running m
  | c :: rest =>
      match Src.exec i c m with
      | Running m => exec_all i rest m
      | other => other
      end
  end.

(** A machine of the later revision whose current edge holds 214748365. *)
Definition machine_214748365 : machine :=
  set_store (Src.startup [] []) (assign initial_store (0, Z) 214748365).


(** The store of the machine an iteration leads to is well formed. *)
Definition outcome_ok (o : outcome) : Prop :=
  match o with
  | Running m | Done m | Paused m => store_ok (store m)
  | Undefined | Trap | Stale => True
  end.

(** What a run that reached [@] wrote. *)
Definition written (o : outcome) : option (list output) :=
  match o with
  | Done m => Some (stdout m)
  | _ => None
  end.

Definition Putc_string (s : string) : list output :=
  map (fun c => Putc (char_code c)) (list_ascii_of_string s).

(** ** Notions for the rest of the code *)

(** The cell [(p, q)] is inside the hexagon of [R] rings: the test of
    [axial_to_index]. *)
Definition inside (p q R : long) : Prop :=
  Z.abs p + Z.abs q + Z.abs (- p - q) <= 2 * (R - 1).

(** The bytes of the source that fill a program cell: neither the backtick
    nor white space. *)
Definition is_instruction (c : ascii) : bool :=
  negb (char_code c =? 96) && negb (isspace (char_code c)).

Definition instruction_chars (source : list ascii) : list ascii :=
  List.filter is_instruction source.

(** [R] rings hold [n] cells and, unless [R] is 1, one ring less does not. *)
Definition rings_fit (n : nat) (R : long) : Prop :=
  1 <= R /\ Z.of_nat n <= hex_size R /\ (R = 1 \/ hex_size (R - 1) < Z.of_nat n).

(** Twice the position, counted from the middle of the array, of the first
    and of the last cell of the row [z] of a hexagon of [n + 1] rings. *)
Definition row_first (n z : long) : long :=
  2 * Z.max (- n) (- n - z) - 2 * z * (2 * n + 1) + z * (Z.abs z + 1).

Definition row_last (n z : long) : long :=
  2 * Z.min n (n - z) - 2 * z * (2 * n + 1) + z * (Z.abs z + 1).

Definition IP_inside (R : long) (ip : IP) : Prop := inside (ip_p ip) (ip_q ip) R.

(** The locals of [main] are consistent: the memory array and the program
    array have the size of their ring counts, there are six IPs, all on
    cells of the program, and the active index designates one of them. *)
Definition machine_ok (m : machine) : Prop :=
  store_ok (store m)
  /\ 1 <= program_rings m
  /\ Z.of_nat (length (program m)) = hex_size (program_rings m)
  /\ length (IPs m) = 6%nat
  /\ 0 <= IP_index m <= 5
  /\ Forall (IP_inside (program_rings m)) (IPs m).


(** An iteration that ends in a consistent machine, or in a trap of the
    division or a use of a stale pointer; [Undefined] (a fetch outside the
    program array, a read of the unassigned [reflection]) is excluded. *)
Definition outcome_safe (o : outcome) : Prop :=
  match o with
  | Running m | Done m | Paused m => machine_ok m
  | Undefined => False
  | Trap | Stale => True
  end.



(** The edge a pointer designates, and the edges [get_neighbor] reaches from
    the memory pointer. *)
Definition pointer_edge (ptr : memory_pointer) : edge_ptr :=
  (axial_to_mem_index (mp_p ptr) (mp_q ptr), mp_axis ptr).

(** The pointer [get_neighbor] returns for the memory pointer, in the later
    and in the earlier revision. *)
Definition neighbor_edge (m : machine) (side : neighbor) : edge_ptr :=
  fst (Src.get_neighbor (MP m) side (store m)).

Definition Root_neighbor_edge (m : machine) (side : neighbor) : edge_ptr :=
  fst (Root.get_neighbor (MP m) side (store m)).

(** The cell of the edge is inside the array. *)
Definition in_array (s : memory_store) (e : edge_ptr) : Prop :=
  0 <= fst e < Z.of_nat (length (memory s)).

(** The cell of the current edge and the cells of its two neighbours, those
    [edge] gives, are inside the array. *)
Definition neighbours_in_array (edge : machine -> neighbor -> edge_ptr) (m : machine) : Prop :=
  in_array (store m) (MP_edge m)
  /\ in_array (store m) (edge m LEFT)
  /\ in_array (store m) (edge m RIGHT).

(** The cell of the pointer is inside the rings the array holds: an access
    does not reallocate. *)
Definition allocated (s : memory_store) (ptr : memory_pointer) : Prop :=
  mem_ring (mp_p ptr) (mp_q ptr) < memory_rings s.

(** The cell of the current edge and the cells of its two neighbours, those
    [move] reaches, are allocated. *)
Definition neighbours_allocated (move : memory_pointer -> neighbor -> memory_pointer)
    (m : machine) : Prop :=
  allocated (store m) (MP m)
  /\ allocated (store m) (move (MP m) LEFT)
  /\ allocated (store m) (move (MP m) RIGHT).

(** The outcome [o] of an instruction executed in [m] is to go on with the
    current edge set to [v], reduced to an [int], every other edge and the
    rest of the machine unchanged. *)
Definition sets_edge (o : outcome) (m : machine) (v : long) : Prop :=
  exists s,
    o = Running (set_store m s)
    /\ deref s (MP_edge m) = wrap_int v
    /\ forall e, 0 <= fst e -> e <> MP_edge m -> deref s e = deref (store m) e.

(** The machine [exec_all] leaves, when it is still running. *)
Definition after (cs : string) (m : machine) : machine :=
  match exec_all 0 (list_ascii_of_string cs) m with
  | Running m' => m'
  | _ => m
  end.

(** Left neighbour 7, right neighbour 2, seen from the initial pointer: a
    step to the left and back, then a step to the right and five more, round
    the corner the three cells share. *)
Definition machine_7_2 : machine := after "{7=}=}2}}}}}" (Src.startup [] []).

(** The machine after the first instruction of the program [$@]. *)
Definition machine_skipping : machine :=
  match Src.step (Src.startup (list_ascii_of_string "$@") []) with
  | Running m => m
  | _ => Src.startup [] []
  end.

(** * Properties *)

(** ** Tactics *)

(** Decide the comparisons of the goal from the hypotheses. *)
Ltac decide_cmp :=
  rewrite ?Z.geb_leb, ?Z.gtb_ltb;
  repeat match goal with
    | |- context [?a <=? ?b] =>
        first [ replace (a <=? b) with true by (symmetry; apply Z.leb_le; lia)
              | replace (a <=? b) with false by (symmetry; apply Z.leb_gt; lia) ]
    | |- context [?a <? ?b] =>
        first [ replace (a <? b) with true by (symmetry; apply Z.ltb_lt; lia)
              | replace (a <? b) with false by (symmetry; apply Z.ltb_ge; lia) ]
    | |- context [?a =? ?b] =>
        first [ replace (a =? b) with true by (symmetry; apply Z.eqb_eq; lia)
              | replace (a =? b) with false by (symmetry; apply Z.eqb_neq; lia) ]
    end.

(** Replace every absolute value by the term or its opposite. *)
Ltac simpl_abs :=
  repeat match goal with
    | |- context [Z.abs ?a] =>
        first [ rewrite (Z.abs_eq a) by lia | rewrite (Z.abs_neq a) by lia ]
    end.

(** Halve the even argument of the division of the goal, known to be [2 r]. *)
Ltac halve r :=
  match goal with
  | |- context [Z.quot ?e 2] =>
      replace e with (r * 2) by lia; rewrite (Z.quot_mul r 2) by lia
  end.

(** Evaluate [modulo] on constants. *)
Ltac eval_modulo :=
  repeat match goal with
    | |- context [modulo ?a ?b] =>
        let v := eval vm_compute in (modulo a b) in
        change (modulo a b) with v; cbn
    end.


(** ** Arithmetic helpers *)

Lemma quot_2_even (a : long) : Z.even a = true -> 2 * Z.quot a 2 = a.
Proof.
  intros Ha. apply Z.even_spec in Ha. destruct Ha as [k ->].
  rewrite (Z.mul_comm 2 k), Z.quot_mul; lia.
Qed.

Lemma even_consecutive (n : long) : Z.even (n * (n - 1)) = true.
Proof.
  rewrite Z.even_mul, Z.even_sub. destruct (Z.even n); reflexivity.
Qed.

Lemma even_abs_succ (z : long) : Z.even (z * (Z.abs z + 1)) = true.
Proof.
  rewrite Z.even_mul, Z.even_add.
  destruct (Z.abs_spec z) as [[_ ->] | [_ ->]].
  - destruct (Z.even z); reflexivity.
  - rewrite Z.even_opp. destruct (Z.even z); reflexivity.
Qed.

Lemma even_cubic_norm (p q : long) :
  Z.even (Z.abs p + Z.abs q + Z.abs (- p - q)) = true.
Proof.
  destruct (Z.abs_spec p) as [[_ ->] | [_ ->]];
    destruct (Z.abs_spec q) as [[_ ->] | [_ ->]];
    destruct (Z.abs_spec (- p - q)) as [[_ ->] | [_ ->]];
    repeat (rewrite Z.even_add || rewrite Z.even_sub || rewrite Z.even_opp);
    destruct (Z.even p), (Z.even q); reflexivity.
Qed.

(** ** [modulo] *)

Lemma modulo_pos (a b : long) :
  0 < b -> 0 <= modulo a b < b /\ exists k, modulo a b = a + k * b.
Proof.
  intros Hb. unfold modulo. rewrite (Z.abs_eq b) by lia.
  pose proof (Z.quot_rem' a b) as Hqr.
  assert (Hlt : Z.abs (Z.rem a b) < Z.abs b) by (apply Z.rem_bound_abs; lia).
  replace (b >=? 0) with true by (symmetry; apply Z.geb_le; lia).
  rewrite Z.mul_1_r.
  destruct (Z.geb_spec (Z.rem a b) 0) as [Hsign | Hsign].
  - split; [lia | exists (- Z.quot a b); lia].
  - split; [lia | exists (1 - Z.quot a b); lia].
Qed.

Lemma modulo_mod (a b : long) : 0 < b -> modulo a b = a mod b.
Proof.
  intros Hb. destruct (modulo_pos a b Hb) as [Hr [k Hk]].
  apply (Z.mod_unique_pos a b (- k)); [exact Hr | lia].
Qed.

(** C9.  For every [a] and every [b > 0], [modulo a b] lies in [0..b-1], is
    congruent to [a] modulo [b], and is the mathematical modulus [a mod b],
    also when [a] is negative. *)
Theorem modulo_mathematical (a b : long) :
  0 < b ->
  0 <= modulo a b < b
  /\ (exists k, modulo a b = a + k * b)
  /\ modulo a b = a mod b.
Proof.
  intros Hb. destruct (modulo_pos a b Hb) as [Hr Hk].
  split; [exact Hr | split; [exact Hk | apply modulo_mod; exact Hb]].
Qed.

Lemma modulo_mathematical_witness :
  0 < 6 /\ (0 <= modulo (-1) 6 < 6
            /\ (exists k, modulo (-1) 6 = -1 + k * 6)
            /\ modulo (-1) 6 = (-1) mod 6).
Proof. split; [lia | apply (modulo_mathematical (-1) 6); lia]. Defined.

(** ** [axial_to_index] *)

Lemma abs_cubic_z (p q : long) : Z.abs (- p - q) = Z.abs (p + q).
Proof. replace (- p - q) with (- (p + q)) by lia. apply Z.abs_opp. Qed.

(** Inside the hexagon the index is between [0] and [hex_size R - 1]. *)
Lemma axial_to_index_inside (p q R : long) :
  Z.abs p + Z.abs q + Z.abs (- p - q) <= 2 * (R - 1) ->
  0 <= axial_to_index p q R <= hex_size R - 1.
Proof.
  intros Hin. unfold axial_to_index, hex_size.
  destruct (Z.gtb_spec (Z.abs p + Z.abs q + Z.abs (- p - q)) (2 * (R - 1))) as [Hgt | _];
    [lia |].
  pose proof (quot_2_even (3 * R * (R - 1))) as HA.
  rewrite <- Z.mul_assoc, Z.even_mul, even_consecutive, orb_true_r in HA.
  specialize (HA eq_refl). rewrite Z.mul_assoc in HA.
  pose proof (quot_2_even _ (even_abs_succ (- p - q))) as HB.
  set (A := Z.quot (3 * R * (R - 1)) 2) in *.
  set (B := Z.quot ((- p - q) * (Z.abs (- p - q) + 1)) 2) in *.
  clearbody A B.
  destruct (Z.abs_spec p) as [[Hp Ep] | [Hp Ep]];
    destruct (Z.abs_spec q) as [[Hq Eq] | [Hq Eq]];
    destruct (Z.abs_spec (- p - q)) as [[Hz Ez] | [Hz Ez]];
    rewrite Ep, Eq, Ez in *; clear Ep Eq Ez; nia.
Qed.

(** On the integers, for every axial coordinate and every ring count
    [R >= 1], the program index lies in [0 .. H(R) - 1] exactly when
    [|p| + |q| + |p + q| <= 2 (R - 1)]; outside that bound the function
    returns the sentinel [-1]. *)
Lemma axial_to_index_range (p q R : long) :
  1 <= R ->
  (0 <= axial_to_index p q R <= hex_size R - 1
   <-> Z.abs p + Z.abs q + Z.abs (p + q) <= 2 * (R - 1))
  /\ (2 * (R - 1) < Z.abs p + Z.abs q + Z.abs (p + q) -> axial_to_index p q R = -1).
Proof.
  intros HR. rewrite <- abs_cubic_z.
  assert (Hout : 2 * (R - 1) < Z.abs p + Z.abs q + Z.abs (- p - q) ->
                 axial_to_index p q R = -1).
  { intros Hgt. unfold axial_to_index.
    destruct (Z.gtb_spec (Z.abs p + Z.abs q + Z.abs (- p - q)) (2 * (R - 1))); [reflexivity | lia]. }
  split; [split | exact Hout].
  - intros Hidx.
    destruct (Z.le_gt_cases (Z.abs p + Z.abs q + Z.abs (- p - q)) (2 * (R - 1))) as [Hle | Hgt];
      [exact Hle | rewrite (Hout Hgt) in Hidx; lia].
  - apply axial_to_index_inside.
Qed.

(** *** On machine integers *)

Lemma wrap_long_small (z : long) : long_range z -> wrap_long z = z.
Proof.
  unfold long_range, wrap_long. intros Hz.
  rewrite Z.mod_small by lia. lia.
Qed.

Lemma wrap_long_add_l (a b : long) : wrap_long (wrap_long a + b) = wrap_long (a + b).
Proof.
  unfold wrap_long.
  replace ((a + 2 ^ 63) mod 2 ^ 64 - 2 ^ 63 + b + 2 ^ 63)
    with ((a + 2 ^ 63) mod 2 ^ 64 + b) by lia.
  rewrite Zplus_mod_idemp_l. do 2 f_equal. lia.
Qed.



(** The cubic norm on machine integers, when it fits in a [long]. *)
Lemma cubic_norm_long (p q : long) :
  Z.abs p + Z.abs q + Z.abs (p + q) <= 2 ^ 63 - 1 ->
  long_sub (long_neg p) q = - p - q
  /\ long_add (long_add (labs p) (labs q)) (labs (- p - q))
     = Z.abs p + Z.abs q + Z.abs (- p - q).
Proof.
  intros Hnorm. pose proof (abs_cubic_z p q) as Hz.
  unfold long_sub, long_neg, long_add, labs.
  assert (E1 : wrap_long (- p) = - p) by (apply wrap_long_small; unfold long_range; lia).
  assert (E2 : wrap_long (- p - q) = - p - q)
    by (apply wrap_long_small; unfold long_range; lia).
  rewrite E1, E2. split; [reflexivity |].
  rewrite (wrap_long_small (Z.abs p)) by (unfold long_range; lia).
  rewrite (wrap_long_small (Z.abs q)) by (unfold long_range; lia).
  rewrite (wrap_long_small (Z.abs (- p - q))) by (unfold long_range; lia).
  rewrite (wrap_long_small (Z.abs p + Z.abs q)) by (unfold long_range; lia).
  apply wrap_long_small. unfold long_range. lia.
Qed.

Lemma hexagon_products (R z : long) :
  1 <= R -> 3 * R * (R - 1) <= 2 ^ 63 - 1 -> Z.abs z <= R - 1 ->
  3 * R <= 2 ^ 63 - 1
  /\ Z.abs (z * (Z.abs z + 1)) <= 3 * R * (R - 1)
  /\ Z.abs (- z * (R * 2 - 1)) <= 3 * R * (R - 1).
Proof.
  intros HR Hcube Hz. split; [nia |].
  rewrite !Z.abs_mul, Z.abs_opp.
  rewrite (Z.abs_eq (Z.abs z + 1)), (Z.abs_eq (R * 2 - 1)) by lia.
  assert (Ha : 0 <= Z.abs z) by lia.
  set (a := Z.abs z) in *. clearbody a. split; nia.
Qed.

(** Where the arithmetic of [long] does not overflow, the function on
    machine integers is the function on the integers. *)
Lemma axial_to_index_long_exact (p q R : long) :
  1 <= R -> 2 * (R - 1) <= 2 ^ 63 - 1 ->
  Z.abs p + Z.abs q + Z.abs (p + q) <= 2 ^ 63 - 1 ->
  (Z.abs p + Z.abs q + Z.abs (p + q) <= 2 * (R - 1) -> 3 * R * (R - 1) <= 2 ^ 63 - 1) ->
  axial_to_index_long p q R = axial_to_index p q R.
Proof.
  intros HR HR2 Hnorm Hcube.
  destruct (cubic_norm_long p q Hnorm) as [Ez En].
  pose proof (abs_cubic_z p q) as Hz.
  assert (Erhs : long_mul 2 (long_sub R 1) = 2 * (R - 1)).
  { unfold long_mul, long_sub.
    rewrite (wrap_long_small (R - 1)) by (unfold long_range; lia).
    apply wrap_long_small. unfold long_range. lia. }
  pose proof (axial_to_index_inside p q R) as Hin.
  unfold axial_to_index_long, axial_to_index in *. cbv zeta.
  rewrite Ez, En, Erhs.
  destruct (Z.gtb_spec (Z.abs p + Z.abs q + Z.abs (- p - q)) (2 * (R - 1))) as [Hgt | Hle];
    [reflexivity |].
  specialize (Hin Hle). specialize (Hcube ltac:(lia)). unfold hex_size in Hin.
  set (z := - p - q) in *.
  assert (Hzb : Z.abs z <= R - 1) by lia.
  assert (Hqb : Z.abs q <= R - 1) by lia.
  destruct (hexagon_products R z HR Hcube Hzb) as (H3R & HzR & HzM).
  pose proof (quot_2_even (3 * R * (R - 1))) as HA.
  rewrite <- Z.mul_assoc, Z.even_mul, even_consecutive, orb_true_r in HA.
  specialize (HA eq_refl). rewrite Z.mul_assoc in HA.
  pose proof (quot_2_even _ (even_abs_succ z)) as HB.
  set (A := 3 * R * (R - 1)) in *.
  set (B := z * (Z.abs z + 1)) in *.
  set (C := - z * (R * 2 - 1)) in *.
  assert (EA : long_div (long_mul (long_mul 3 R) (long_sub R 1)) 2 = Z.quot A 2).
  { unfold long_div, long_mul, long_sub.
    rewrite (wrap_long_small (3 * R)) by (unfold long_range; lia).
    rewrite (wrap_long_small (R - 1)) by (unfold long_range; lia).
    fold A. rewrite (wrap_long_small A) by (unfold long_range; lia).
    apply wrap_long_small. unfold long_range. lia. }
  assert (EB : long_mul (long_neg z) (long_sub (long_mul R 2) 1) = C).
  { unfold long_mul, long_neg, long_sub.
    rewrite (wrap_long_small (- z)) by (unfold long_range; lia).
    rewrite (wrap_long_small (R * 2)) by (unfold long_range; lia).
    rewrite (wrap_long_small (R * 2 - 1)) by (unfold long_range; lia).
    fold C. apply wrap_long_small. unfold long_range. lia. }
  assert (EC : long_div (long_mul z (long_add (labs z) 1)) 2 = Z.quot B 2).
  { unfold long_div, long_mul, long_add, labs.
    rewrite (wrap_long_small (Z.abs z)) by (unfold long_range; lia).
    rewrite (wrap_long_small (Z.abs z + 1)) by (unfold long_range; lia).
    fold B. rewrite (wrap_long_small B) by (unfold long_range; lia).
    apply wrap_long_small. unfold long_range. lia. }
  rewrite EA, EB, EC. unfold long_add.
  rewrite (wrap_long_small (Z.quot A 2 + q)) by (unfold long_range; lia).
  rewrite wrap_long_add_l.
  apply wrap_long_small. unfold long_range. lia.
Qed.

(** C6, counterexample.  At the coordinate [(2^62, 0)] with 2 rings the sum
    of the three absolute values is 2^63, which wraps to the smallest
    [long]: the test of the bound fails to reject the coordinate, which is
    far outside the hexagon, and the function returns neither the sentinel
    [-1] nor an index in [0 .. 6]. *)
Lemma axial_to_index_long_wraps :
  2 * (2 - 1) < Z.abs (2 ^ 62) + Z.abs 0 + Z.abs (2 ^ 62 + 0)
  /\ axial_to_index_long (2 ^ 62) 0 2 = -6917529027641081853
  /\ axial_to_index_long (2 ^ 62) 0 2 <> -1
  /\ ~ (0 <= axial_to_index_long (2 ^ 62) 0 2 <= hex_size 2 - 1).
Proof.
  assert (H : axial_to_index_long (2 ^ 62) 0 2 = -6917529027641081853)
    by (vm_compute; reflexivity).
  rewrite H. split; [vm_compute; reflexivity | split; [reflexivity | split]].
  - discriminate.
  - intros [Hlo _]. apply Hlo. reflexivity.
Qed.

(** C6, amended.  For every axial coordinate [(p, q)] and every ring count
    [R >= 1] for which the arithmetic of [long] does not overflow (the sum
    [|p| + |q| + |p + q|] and the bound [2 (R - 1)] fit in a [long], and so
    does [3 R (R - 1)] when the coordinate is inside the hexagon), the
    program index the machine computes lies in [0 .. H(R) - 1] exactly when
    [|p| + |q| + |p + q| <= 2 (R - 1)]; outside that bound the function
    returns the sentinel [-1]. *)
Theorem axial_to_index_long_range (p q R : long) :
  1 <= R -> 2 * (R - 1) <= 2 ^ 63 - 1 ->
  Z.abs p + Z.abs q + Z.abs (p + q) <= 2 ^ 63 - 1 ->
  (Z.abs p + Z.abs q + Z.abs (p + q) <= 2 * (R - 1) -> 3 * R * (R - 1) <= 2 ^ 63 - 1) ->
  (0 <= axial_to_index_long p q R <= hex_size R - 1
   <-> Z.abs p + Z.abs q + Z.abs (p + q) <= 2 * (R - 1))
  /\ (2 * (R - 1) < Z.abs p + Z.abs q + Z.abs (p + q) -> axial_to_index_long p q R = -1).
Proof.
  intros HR HR2 Hnorm Hcube.
  rewrite (axial_to_index_long_exact p q R HR HR2 Hnorm Hcube).
  rewrite <- abs_cubic_z.
  assert (Hout : 2 * (R - 1) < Z.abs p + Z.abs q + Z.abs (- p - q) ->
                 axial_to_index p q R = -1).
  { intros Hgt. unfold axial_to_index.
    destruct (Z.gtb_spec (Z.abs p + Z.abs q + Z.abs (- p - q)) (2 * (R - 1)));
      [reflexivity | lia]. }
  split; [| exact Hout]. split.
  - intros Hrange.
    destruct (Z.le_gt_cases (Z.abs p + Z.abs q + Z.abs (- p - q)) (2 * (R - 1)))
      as [Hle | Hgt]; [exact Hle |].
    rewrite (Hout Hgt) in Hrange. lia.
  - apply axial_to_index_inside.
Qed.

Lemma axial_to_index_long_range_witness :
  (0 <= axial_to_index_long 1 (-1) 2 <= hex_size 2 - 1
   <-> Z.abs 1 + Z.abs (-1) + Z.abs (1 + -1) <= 2 * (2 - 1))
  /\ (2 * (2 - 1) < Z.abs 1 + Z.abs (-1) + Z.abs (1 + -1) -> axial_to_index_long 1 (-1) 2 = -1).
Proof.
  apply (axial_to_index_long_range 1 (-1) 2).
  - lia.
  - vm_compute. discriminate.
  - vm_compute. discriminate.
  - intros _. vm_compute. discriminate.
Defined.


(** ** [axial_to_mem_index]: rings and sextants *)

Lemma hex_size_succ (r : long) : hex_size (r + 1) = hex_size r + 6 * r.
Proof. unfold hex_size. lia. Qed.

Lemma hex_size_le (a b : long) : 1 <= a <= b -> hex_size a <= hex_size b.
Proof. unfold hex_size. nia. Qed.

Lemma hex_size_lower (r : long) : 1 <= r -> r <= hex_size r.
Proof. unfold hex_size. nia. Qed.

Lemma ring_base_pos (r : long) : 0 < r -> ring_base r = hex_size r.
Proof. intros Hr. unfold ring_base, hex_size. decide_cmp. reflexivity. Qed.

Lemma mem_ring_double (p q : long) :
  2 * mem_ring p q = Z.abs p + Z.abs q + Z.abs (- p - q).
Proof. unfold mem_ring. apply quot_2_even, even_cubic_norm. Qed.

Lemma mem_ring_origin (p q : long) : mem_ring p q = 0 <-> p = 0 /\ q = 0.
Proof. pose proof (mem_ring_double p q). lia. Qed.

Lemma mem_ring_nonneg (p q : long) : 0 <= mem_ring p q.
Proof. pose proof (mem_ring_double p q). lia. Qed.

(** Offsets split into a sextant and a position inside it. *)
Lemma sextant_div_mod (r s o : long) :
  0 < r -> 0 <= o < r -> (r * s + o) / r = s /\ (r * s + o) mod r = o.
Proof.
  intros Hr Ho. split.
  - symmetry. apply (Z.div_unique_pos _ r s o); lia.
  - symmetry. apply (Z.mod_unique_pos _ r s o); lia.
Qed.

(** The six sextants, as the recomposition lists them. *)
Lemma axial_of_sextant (r s o : long) :
  0 < r -> 0 <= s < 6 -> 0 <= o < r ->
  axial_of_ring_offset r (r * s + o) =
    if s =? 0 then (- o, o - r)
    else if s =? 1 then (- r, o)
    else if s =? 2 then (o - r, r)
    else if s =? 3 then (o, r - o)
    else if s =? 4 then (r, - o)
    else (r - o, - r).
Proof.
  intros Hr Hs Ho. unfold axial_of_ring_offset.
  destruct (sextant_div_mod r s o Hr Ho) as [-> ->].
  replace (r <=? 0) with false by (symmetry; apply Z.leb_gt; lia).
  reflexivity.
Qed.

(** Encoding the coordinate at position [o] of sextant [s] of ring [r]. *)
Lemma encode_sextant (r s o : long) :
  0 < r -> 0 <= s < 6 -> 0 <= o < r ->
  axial_to_mem_index (fst (axial_of_ring_offset r (r * s + o)))
                     (snd (axial_of_ring_offset r (r * s + o)))
  = hex_size r + (r * s + o)
  /\ mem_ring (fst (axial_of_ring_offset r (r * s + o)))
              (snd (axial_of_ring_offset r (r * s + o))) = r.
Proof.
  intros Hr Hs Ho. rewrite (axial_of_sextant r s o Hr Hs Ho).
  assert (Hcase : s = 0 \/ s = 1 \/ s = 2 \/ s = 3 \/ s = 4 \/ s = 5) by lia.
  unfold axial_to_mem_index, mem_ring, hex_size.
  destruct Hcase as [-> | [-> | [-> | [-> | [-> | ->]]]]];
    simpl (_ =? _); cbn [fst snd];
    simpl_abs; halve r; decide_cmp;
    rewrite ?andb_false_r, ?andb_false_l; cbn [andb]; split; lia.
Qed.

(** Every coordinate but the origin sits in one sextant of its ring. *)
Lemma point_sextant (p q : long) :
  0 < mem_ring p q ->
  exists s o, 0 <= s < 6 /\ 0 <= o < mem_ring p q
              /\ axial_of_ring_offset (mem_ring p q) (mem_ring p q * s + o) = (p, q).
Proof.
  intros Hr. pose proof (mem_ring_double p q) as Hd.
  set (r := mem_ring p q) in *. clearbody r.
  assert (Hcase :
    (p <= 0 /\ q < 0) \/ (q >= 0 /\ - p - q > 0) \/ (- p - q <= 0 /\ p < 0) \/
    (p >= 0 /\ q > 0) \/ (q <= 0 /\ - p - q < 0) \/ (- p - q >= 0 /\ p > 0)) by lia.
  destruct Hcase as [H | [H | [H | [H | [H | H]]]]].
  - exists 0, (- p). split; [lia | split; [lia |]].
    rewrite axial_of_sextant by lia. cbn [Z.eqb]. f_equal; lia.
  - exists 1, q. split; [lia | split; [lia |]].
    rewrite axial_of_sextant by lia. simpl (_ =? _). f_equal; lia.
  - exists 2, (p + q). split; [lia | split; [lia |]].
    rewrite axial_of_sextant by lia. simpl (_ =? _). f_equal; lia.
  - exists 3, p. split; [lia | split; [lia |]].
    rewrite axial_of_sextant by lia. simpl (_ =? _). f_equal; lia.
  - exists 4, (- q). split; [lia | split; [lia |]].
    rewrite axial_of_sextant by lia. simpl (_ =? _). f_equal; lia.
  - exists 5, (- p - q). split; [lia | split; [lia |]].
    rewrite axial_of_sextant by lia. simpl (_ =? _). f_equal; lia.
Qed.

(** The index of a coordinate off the origin: the base of its ring plus the
    offset of its sextant position. *)
Lemma mem_index_decompose (p q : long) :
  0 < mem_ring p q ->
  exists s o, 0 <= s < 6 /\ 0 <= o < mem_ring p q
              /\ axial_to_mem_index p q = hex_size (mem_ring p q) + (mem_ring p q * s + o)
              /\ axial_of_ring_offset (mem_ring p q) (mem_ring p q * s + o) = (p, q).
Proof.
  intros Hr. destruct (point_sextant p q Hr) as (s & o & Hs & Ho & Hpt).
  exists s, o. split; [exact Hs | split; [exact Ho | split; [| exact Hpt]]].
  destruct (encode_sextant (mem_ring p q) s o Hr Hs Ho) as [Henc _].
  rewrite Hpt in Henc. exact Henc.
Qed.

Lemma axial_to_mem_index_origin : axial_to_mem_index 0 0 = 0.
Proof. reflexivity. Qed.

(** The index lies in the block of its ring. *)
Lemma mem_index_in_ring (p q : long) :
  ring_base (mem_ring p q) <= axial_to_mem_index p q < hex_size (mem_ring p q + 1).
Proof.
  pose proof (mem_ring_nonneg p q) as Hr.
  destruct (Z.eq_dec (mem_ring p q) 0) as [H0 | Hn].
  - rewrite H0. apply mem_ring_origin in H0. destruct H0 as [-> ->].
    rewrite axial_to_mem_index_origin. unfold ring_base, hex_size. cbn. lia.
  - destruct (mem_index_decompose p q) as (s & o & Hs & Ho & Hidx & _); [lia |].
    rewrite ring_base_pos, hex_size_succ, Hidx by lia. nia.
Qed.

Lemma ring_base_nonneg (r : long) : 0 <= ring_base r.
Proof.
  unfold ring_base. destruct (Z.gtb_spec r 0); [nia | lia].
Qed.

Lemma axial_to_mem_index_nonneg (p q : long) : 0 <= axial_to_mem_index p q.
Proof.
  pose proof (mem_index_in_ring p q). pose proof (ring_base_nonneg (mem_ring p q)). lia.
Qed.

(** A ring block holds one ring only. *)
Lemma ring_block_unique (a b i : long) :
  0 <= a -> 0 <= b ->
  ring_base a <= i < hex_size (a + 1) ->
  ring_base b <= i < hex_size (b + 1) ->
  a = b.
Proof.
  unfold ring_base, hex_size. intros Ha Hb HA HB.
  destruct (Z.gtb_spec a 0), (Z.gtb_spec b 0); nia.
Qed.

Lemma ring_search_spec (fuel : nat) (r i : long) :
  0 <= r -> ring_base r <= i -> i < r + 1 + Z.of_nat fuel ->
  0 <= ring_search fuel r i
  /\ ring_base (ring_search fuel r i) <= i < hex_size (ring_search fuel r i + 1).
Proof.
  revert r. induction fuel as [| fuel IH]; intros r Hr Hlo Hfuel; cbn [ring_search].
  - destruct (Z.ltb_spec i (hex_size (r + 1))) as [Hlt | Hge]; [lia |].
    pose proof (hex_size_lower (r + 1)). lia.
  - destruct (Z.ltb_spec i (hex_size (r + 1))) as [Hlt | Hge]; [lia |].
    apply IH; [lia | rewrite ring_base_pos by lia; exact Hge | lia].
Qed.

Lemma ring_of_index_spec (i : long) :
  0 <= i ->
  0 <= ring_of_index i
  /\ ring_base (ring_of_index i) <= i < hex_size (ring_of_index i + 1).
Proof.
  intros Hi. unfold ring_of_index. apply ring_search_spec; [lia | cbn; lia | lia].
Qed.

Lemma ring_of_mem_index (p q : long) :
  ring_of_index (axial_to_mem_index p q) = mem_ring p q.
Proof.
  pose proof (axial_to_mem_index_nonneg p q) as Hi.
  destruct (ring_of_index_spec _ Hi) as [H0 Hblock].
  apply (ring_block_unique _ _ (axial_to_mem_index p q));
    [exact H0 | apply mem_ring_nonneg | exact Hblock | apply mem_index_in_ring].
Qed.

(** Recomposition from ring and offset undoes the decomposition. *)
Lemma axial_of_ring_offset_inverse (p q : long) :
  axial_of_ring_offset (mem_ring p q) (mem_offset p q) = (p, q).
Proof.
  pose proof (mem_ring_nonneg p q) as Hr. unfold mem_offset.
  destruct (Z.eq_dec (mem_ring p q) 0) as [H0 | Hn].
  - rewrite H0. apply mem_ring_origin in H0. destruct H0 as [-> ->]. reflexivity.
  - destruct (mem_index_decompose p q) as (s & o & Hs & Ho & Hidx & Hpt); [lia |].
    rewrite ring_base_pos, Hidx by lia.
    replace (hex_size (mem_ring p q) + (mem_ring p q * s + o) - hex_size (mem_ring p q))
      with (mem_ring p q * s + o) by lia.
    exact Hpt.
Qed.

Lemma mem_index_to_axial_left_inverse (p q : long) :
  mem_index_to_axial (axial_to_mem_index p q) = (p, q).
Proof.
  unfold mem_index_to_axial. rewrite ring_of_mem_index.
  apply axial_of_ring_offset_inverse.
Qed.

Lemma mem_index_to_axial_right_inverse (i : long) :
  0 <= i ->
  axial_to_mem_index (fst (mem_index_to_axial i)) (snd (mem_index_to_axial i)) = i.
Proof.
  intros Hi. unfold mem_index_to_axial.
  destruct (ring_of_index_spec i Hi) as [Hr Hblock].
  set (r := ring_of_index i) in *. clearbody r.
  destruct (Z.eq_dec r 0) as [-> | Hn].
  - assert (i = 0) by (unfold ring_base, hex_size in Hblock; simpl in Hblock; lia).
    subst i. reflexivity.
  - rewrite ring_base_pos in * by lia. rewrite hex_size_succ in Hblock.
    set (k := i - hex_size r) in *.
    assert (Hk : k = r * (k / r) + k mod r) by (apply Z.div_mod; lia).
    assert (Ho : 0 <= k mod r < r) by (apply Z.mod_pos_bound; lia).
    assert (Hs : 0 <= k / r < 6).
    { split; [apply Z.div_pos; lia | apply Z.div_lt_upper_bound; lia]. }
    rewrite Hk.
    destruct (encode_sextant r (k / r) (k mod r)) as [-> _]; lia.
Qed.

(** On the integers, [axial_to_mem_index] is a bijection from the axial
    coordinates to the natural numbers: its values are not negative,
    distinct coordinates have distinct indices, every natural number is the
    index of a coordinate, and recomposing a coordinate from its ring number
    and its offset inside the ring gives the coordinate back, so that
    [mem_index_to_axial] is the inverse on both sides. *)
Lemma axial_to_mem_index_bijection :
  (forall p q : long, 0 <= axial_to_mem_index p q)
  /\ (forall p q p' q' : long,
         axial_to_mem_index p q = axial_to_mem_index p' q' -> p = p' /\ q = q')
  /\ (forall n : nat, exists p q : long, axial_to_mem_index p q = Z.of_nat n)
  /\ (forall p q : long,
         axial_to_mem_index p q = ring_base (mem_ring p q) + mem_offset p q
         /\ 0 <= mem_offset p q < Z.max 1 (6 * mem_ring p q)
         /\ axial_of_ring_offset (mem_ring p q) (mem_offset p q) = (p, q))
  /\ (forall p q : long, mem_index_to_axial (axial_to_mem_index p q) = (p, q))
  /\ (forall n : nat,
         axial_to_mem_index (fst (mem_index_to_axial (Z.of_nat n)))
                            (snd (mem_index_to_axial (Z.of_nat n))) = Z.of_nat n).
Proof.
  split; [exact axial_to_mem_index_nonneg |].
  split.
  { intros p q p' q' Heq.
    pose proof (mem_index_to_axial_left_inverse p q) as H1.
    pose proof (mem_index_to_axial_left_inverse p' q') as H2.
    rewrite Heq, H2 in H1. injection H1 as -> ->. split; reflexivity. }
  split.
  { intros n. eexists _, _. apply mem_index_to_axial_right_inverse. lia. }
  split.
  { intros p q. split; [unfold mem_offset; lia | split].
    - pose proof (mem_index_in_ring p q) as Hb. pose proof (mem_ring_nonneg p q) as Hr.
      unfold mem_offset. rewrite hex_size_succ in Hb.
      destruct (Z.eq_dec (mem_ring p q) 0) as [H0 | Hn].
      + rewrite H0 in *. unfold ring_base, hex_size in *. simpl in *. lia.
      + rewrite ring_base_pos in * by lia. lia.
    - apply axial_of_ring_offset_inverse. }
  split; [exact mem_index_to_axial_left_inverse |].
  intros n. apply mem_index_to_axial_right_inverse. lia.
Qed.

(** *** On machine integers *)







(** ** The memory store *)

Lemma initial_store_ok : store_ok initial_store.
Proof. split; [cbn; lia | reflexivity]. Qed.

Lemma realloc_memory_length (l : list memory_cell) (r : long) :
  1 <= r -> Z.of_nat (length l) = hex_size r ->
  Z.of_nat (length (realloc_memory l r (r + 1))) = hex_size (r + 1).
Proof.
  intros Hr Hlen. unfold realloc_memory.
  rewrite take_ge by lia.
  rewrite length_app, length_replicate.
  pose proof (hex_size_succ r). lia.
Qed.

Lemma realloc_memory_lookup (l : list memory_cell) (r : long) (i : nat) :
  Z.of_nat (length l) = hex_size r ->
  default zero_cell (realloc_memory l r (r + 1) !! i) = default zero_cell (l !! i).
Proof.
  intros Hlen. unfold realloc_memory. rewrite take_ge by lia.
  destruct (Nat.lt_ge_cases i (length l)) as [Hlt | Hge].
  - rewrite lookup_app_l by exact Hlt. reflexivity.
  - rewrite lookup_app_r by exact Hge.
    rewrite (proj2 (lookup_ge_None l i) Hge).
    destruct (replicate _ zero_cell !! (i - length l)%nat) as [c |] eqn:Hc; [| reflexivity].
    apply lookup_replicate in Hc. destruct Hc as [-> _]. reflexivity.
Qed.

Lemma grow_memory_ok (fuel : nat) (index : long) (s : memory_store) :
  store_ok s ->
  store_ok (grow_memory fuel index s)
  /\ (forall e, deref (grow_memory fuel index s) e = deref s e)
  /\ (index < memory_rings s + Z.of_nat fuel ->
      index < hex_size (memory_rings (grow_memory fuel index s))).
Proof.
  revert s. induction fuel as [| fuel IH]; intros s [Hr Hlen]; cbn [grow_memory].
  - destruct (Z.geb_spec index (hex_size (memory_rings s))) as [Hge | Hlt].
    + split; [split; assumption | split; [reflexivity |]].
      pose proof (hex_size_lower _ Hr). lia.
    + split; [split; assumption | split; [reflexivity | lia]].
  - destruct (Z.geb_spec index (hex_size (memory_rings s))) as [Hge | Hlt].
    + edestruct IH as (Hok & Hderef & Hfit).
      2: { split; [exact Hok | split].
           - intros e. rewrite Hderef. unfold deref. cbn [memory].
             rewrite realloc_memory_lookup by exact Hlen. reflexivity.
           - intros Hfuel. apply Hfit. cbn [memory_rings]. lia. }
      split; cbn [memory memory_rings]; [lia | apply realloc_memory_length; assumption].
    + split; [split; assumption | split; [reflexivity | lia]].
Qed.

(** [get_memory_cell] returns the index of the coordinate, inside the array
    it leaves, and changes the value of no edge. *)
Lemma get_memory_cell_ok (p q : long) (s : memory_store) :
  store_ok s ->
  fst (get_memory_cell p q s) = axial_to_mem_index p q
  /\ store_ok (snd (get_memory_cell p q s))
  /\ (forall e, deref (snd (get_memory_cell p q s)) e = deref s e)
  /\ (Z.to_nat (axial_to_mem_index p q) < length (memory (snd (get_memory_cell p q s))))%nat.
Proof.
  intros Hok. unfold get_memory_cell. cbn [fst snd].
  pose proof (axial_to_mem_index_nonneg p q) as Hi.
  destruct (grow_memory_ok (S (Z.to_nat (axial_to_mem_index p q)))
              (axial_to_mem_index p q) s Hok) as ([Hr Hlen] & Hderef & Hfit).
  split; [reflexivity | split; [split; assumption | split; [exact Hderef |]]].
  destruct Hok as [Hr0 _]. lia.
Qed.

Lemma deref_assign_same (s : memory_store) (e : edge_ptr) (v : long) :
  (Z.to_nat (fst e) < length (memory s))%nat ->
  deref (assign s e v) e = wrap_int v.
Proof.
  intros Hlt. unfold deref, assign. cbn [memory].
  rewrite list_lookup_alter_eq.
  destruct (lookup_lt_is_Some_2 (memory s) _ Hlt) as [c ->].
  destruct e as [i []]; reflexivity.
Qed.

Lemma deref_assign_other (s : memory_store) (e e' : edge_ptr) (v : long) :
  0 <= fst e -> 0 <= fst e' -> e' <> e ->
  deref (assign s e v) e' = deref s e'.
Proof.
  intros He He' Hne. unfold deref, assign. cbn [memory].
  destruct e as [i a], e' as [i' a']. cbn [fst snd] in *.
  destruct (Z.eq_dec i i') as [<- | Hi].
  - rewrite list_lookup_alter_eq.
    destruct (memory s !! Z.to_nat i) as [c |]; [| reflexivity].
    destruct a, a'; try reflexivity; congruence.
  - rewrite list_lookup_alter_ne by lia. reflexivity.
Qed.

Lemma assign_ok (s : memory_store) (e : edge_ptr) (v : long) :
  store_ok s -> store_ok (assign s e v).
Proof.
  intros [Hr Hlen]. split; cbn [assign memory memory_rings]; [exact Hr |].
  rewrite length_alter. exact Hlen.
Qed.

(** ** The memory pointer *)

(** The axis [move_mp] and [get_neighbor] go to.  [X + LEFT] is the
    unsigned 4294967295, a multiple of 3: the neighbour to the left of an
    edge of axis [X] is taken on axis [X] itself, not on [Z]. *)
Lemma neighbor_axis_table (a : axis) (side : neighbor) :
  axis_of_value (modulo (axis_plus a side) 3)
  = match a, side with
    | X, LEFT => X | Y, LEFT => X | Z, LEFT => Y
    | X, RIGHT => Y | Y, RIGHT => Z | Z, RIGHT => X
    end.
Proof. destruct a, side; reflexivity. Qed.

(** The two revisions move the pointer and address neighbours alike (the
    [switch] of the earlier one spells out the two array updates of the
    later one), except to the left of an outward pointer on axis [X]: there
    the earlier revision decrements [xyz[Z]], the later one
    [xyz[neighbor_axis]], which is [xyz[X]]. *)
Lemma move_mp_revisions (ptr : memory_pointer) (side : neighbor) :
  mp_axis ptr <> X \/ mp_direction ptr = IN \/ side = RIGHT ->
  Root.move_mp ptr side = Src.move_mp ptr side.
Proof.
  destruct ptr as [p q [] []], side; try reflexivity.
  cbn. intros [H | [H | H]]; congruence.
Qed.

Lemma get_neighbor_revisions (ptr : memory_pointer) (side : neighbor) (s : memory_store) :
  mp_axis ptr <> X \/ mp_direction ptr = IN \/ side = RIGHT ->
  Root.get_neighbor ptr side s = Src.get_neighbor ptr side s.
Proof.
  destruct ptr as [p q [] []], side; try reflexivity.
  cbn. intros [H | [H | H]]; congruence.
Qed.

Lemma get_neighbor_move_mp (ptr : memory_pointer) (side : neighbor) (s : memory_store) :
  Src.get_neighbor ptr side s = get_memory_edge (Src.move_mp ptr side) s.
Proof. destruct ptr as [p q [] []], side; reflexivity. Qed.

Lemma Root_get_neighbor_move_mp (ptr : memory_pointer) (side : neighbor) (s : memory_store) :
  Root.get_neighbor ptr side s = get_memory_edge (Root.move_mp ptr side) s.
Proof. destruct ptr as [p q [] []], side; reflexivity. Qed.

(** C10.  In both revisions, for every pointer, side and store, the edge
    [get_neighbor] addresses (cell index and axis, with the store the access
    leaves) is the edge [get_memory_edge] addresses once [move_mp] has moved
    the pointer to that side. *)
Theorem neighbor_is_edge_after_move (ptr : memory_pointer) (side : neighbor)
    (s : memory_store) :
  Src.get_neighbor ptr side s = get_memory_edge (Src.move_mp ptr side) s
  /\ Root.get_neighbor ptr side s = get_memory_edge (Root.move_mp ptr side) s.
Proof.
  split.
  - apply get_neighbor_move_mp.
  - apply Root_get_neighbor_move_mp.
Qed.

(** C8, counterexample.  From the initial pointer of the later revision, a
    move to the left then a move to the right ends one cell away, and a move
    to the right then a move to the left does not come back either; the
    same holds with the moves of the earlier revision. *)
Lemma move_left_right_displaces :
  Src.move_mp (Src.move_mp Src.initial_MP LEFT) RIGHT
    = {| mp_p := 0; mp_q := -1; mp_axis := Z; mp_direction := OUT |}
  /\ Src.move_mp (Src.move_mp Src.initial_MP LEFT) RIGHT <> Src.initial_MP
  /\ Src.move_mp (Src.move_mp Src.initial_MP RIGHT) LEFT <> Src.initial_MP
  /\ Root.move_mp (Root.move_mp Src.initial_MP LEFT) RIGHT <> Src.initial_MP
  /\ Root.move_mp (Root.move_mp Src.initial_MP RIGHT) LEFT <> Src.initial_MP.
Proof. repeat split; try reflexivity; discriminate. Qed.

Lemma move_mp_left_then_right (ptr : memory_pointer) :
  mp_axis ptr <> X ->
  there_and_back Src.move_mp ptr LEFT RIGHT /\ there_and_back Root.move_mp ptr LEFT RIGHT.
Proof.
  intros Ha. destruct ptr as [p q [] []]; cbn in Ha; try congruence;
    (split; (split; [reflexivity | split; [reflexivity | split]])).
  all: unfold reverse; cbn; repeat (rewrite neighbor_axis_table; cbn).
  all: try (intros [=]; lia).
  all: unfold set_orientation; cbn; f_equal; lia.
Qed.

Lemma move_mp_right_then_left (ptr : memory_pointer) :
  mp_axis ptr <> Z ->
  there_and_back Src.move_mp ptr RIGHT LEFT /\ there_and_back Root.move_mp ptr RIGHT LEFT.
Proof.
  intros Ha. destruct ptr as [p q [] []]; cbn in Ha; try congruence;
    (split; (split; [reflexivity | split; [reflexivity | split]])).
  all: unfold reverse; cbn; repeat (rewrite neighbor_axis_table; cbn).
  all: try (intros [=]; lia).
  all: unfold set_orientation; cbn; f_equal; lia.
Qed.

Lemma move_mp_twice_orientation (ptr : memory_pointer) (a b : neighbor) :
  mp_direction (Src.move_mp (Src.move_mp ptr a) b) = mp_direction ptr
  /\ mp_direction (Root.move_mp (Root.move_mp ptr a) b) = mp_direction ptr.
Proof. destruct ptr as [p q [] []], a, b; split; reflexivity. Qed.

(** C8, amended.  In both revisions, two moves of the pointer restore its
    orientation.  A move to the left followed by a move to the right, from a
    pointer that is not on axis [X], and a move to the right followed by a
    move to the left, from a pointer that is not on axis [Z], restore the
    axis as well but leave the pointer on another cell; the pointer is back
    in its original state when the second move is made backwards, with the
    orientation reversed before and after it.  (The axis excluded is the one
    from which the move to the left starts on axis [X].) *)
Theorem move_mp_left_right (ptr : memory_pointer) :
  (mp_axis ptr <> X ->
   there_and_back Src.move_mp ptr LEFT RIGHT /\ there_and_back Root.move_mp ptr LEFT RIGHT)
  /\ (mp_axis ptr <> Z ->
      there_and_back Src.move_mp ptr RIGHT LEFT /\ there_and_back Root.move_mp ptr RIGHT LEFT)
  /\ (forall a b,
        mp_direction (Src.move_mp (Src.move_mp ptr a) b) = mp_direction ptr
        /\ mp_direction (Root.move_mp (Root.move_mp ptr a) b) = mp_direction ptr).
Proof.
  split; [apply move_mp_left_then_right |].
  split; [apply move_mp_right_then_left |].
  intros a b. apply move_mp_twice_orientation.
Qed.

Lemma move_mp_left_right_witness :
  (there_and_back Src.move_mp Src.initial_MP LEFT RIGHT
   /\ there_and_back Root.move_mp Src.initial_MP LEFT RIGHT)
  /\ (there_and_back Src.move_mp (Src.move_mp Src.initial_MP RIGHT) RIGHT LEFT
      /\ there_and_back Root.move_mp (Src.move_mp Src.initial_MP RIGHT) RIGHT LEFT).
Proof.
  split.
  - apply (proj1 (move_mp_left_right Src.initial_MP)). discriminate.
  - apply (proj1 (proj2 (move_mp_left_right (Src.move_mp Src.initial_MP RIGHT)))).
    discriminate.
Defined.

(** ** Reflection at the border of the program *)

(** Three integers of sum zero: one is zero or two have the same sign. *)
Lemma cubic_sign_cases (np nq : long) :
  np = 0 \/ nq = 0 \/ - np - nq = 0
  \/ nq * (- np - nq) > 0 \/ (- np - nq) * np > 0 \/ np * nq > 0.
Proof. nia. Qed.

(** The cascade always assigns [reflection], wherever the IP stands. *)
Lemma choose_reflection_assigned (np nq : long) (m : machine) :
  fst (choose_reflection np nq (- np - nq) m) <> None.
Proof.
  unfold choose_reflection, current_edge.
  destruct (get_memory_edge (MP m) (store m)) as [e s].
  destruct (Z.eqb_spec np 0); [discriminate |].
  destruct (Z.eqb_spec nq 0); [discriminate |].
  destruct (Z.eqb_spec (- np - nq) 0); [discriminate |].
  destruct (Z.gtb_spec (nq * (- np - nq)) 0); [discriminate |].
  destruct (Z.gtb_spec ((- np - nq) * np) 0); [discriminate |].
  destruct (Z.gtb_spec (np * nq) 0); [discriminate |].
  pose proof (cubic_sign_cases np nq). lia.
Qed.

(** Advancing an IP never reads an unassigned [reflection]. *)
Lemma advance_defined (i : nat) (m : machine) : advance i m <> None.
Proof.
  unfold advance.
  destruct (_ >=? _); [| discriminate].
  match goal with
  | |- context [choose_reflection ?a ?b ?c m] =>
      pose proof (choose_reflection_assigned a b m) as H;
      destruct (choose_reflection a b c m) as [[[] |] m']
  end; try discriminate.
  exfalso. apply H. reflexivity.
Qed.

(** C5.  For every position inside the program hexagon and every facing
    direction, when the tentative next position leaves the hexagon one of the
    six conditions of the cascade holds, so the reflection axis is assigned. *)
Theorem reflection_axis_assigned (p q R : long) (d : direction) (m : machine) :
  Z.abs p + Z.abs q + Z.abs (p + q) <= 2 * (R - 1) ->
  let np := p + fst (direction_offset d) in
  let nq := q + snd (direction_offset d) in
  let nr := - np - nq in
  Z.abs np + Z.abs nq + Z.abs nr >= 2 * R ->
  (np = 0 \/ nq = 0 \/ nr = 0 \/ nq * nr > 0 \/ nr * np > 0 \/ np * nq > 0)
  /\ fst (choose_reflection np nq nr m) <> None.
Proof.
  intros Hin np nq nr Hout. split.
  - apply cubic_sign_cases.
  - apply choose_reflection_assigned.
Qed.

Lemma reflection_axis_assigned_witness :
  Z.abs 0 + Z.abs (-1) + Z.abs (0 + -1) <= 2 * (2 - 1)
  /\ Z.abs (0 + fst (direction_offset NW)) + Z.abs (-1 + snd (direction_offset NW))
     + Z.abs (- (0 + fst (direction_offset NW)) - (-1 + snd (direction_offset NW))) >= 2 * 2
  /\ fst (choose_reflection (0 + fst (direction_offset NW)) (-1 + snd (direction_offset NW))
            (- (0 + fst (direction_offset NW)) - (-1 + snd (direction_offset NW)))
            (Src.startup [] [])) <> None.
Proof.
  split; [cbn; lia | split; [cbn; lia |]].
  apply (reflection_axis_assigned 0 (-1) 2 NW (Src.startup [] [])); cbn; lia.
Defined.

(** ** Switching the active IP: the brackets and the hash *)

Lemma current_edge_spec (m : machine) :
  store_ok (store m) ->
  fst (current_edge m) = MP_edge m
  /\ snd (current_edge m) = set_store m (store (snd (current_edge m)))
  /\ store_ok (store (snd (current_edge m)))
  /\ (forall e, deref (store (snd (current_edge m))) e = deref (store m) e)
  /\ (Z.to_nat (fst (MP_edge m)) < length (memory (store (snd (current_edge m)))))%nat.
Proof.
  intros Hok. unfold current_edge, get_memory_edge, MP_edge.
  destruct (get_memory_cell_ok (mp_p (MP m)) (mp_q (MP m)) (store m) Hok)
    as (Hidx & Hok' & Hderef & Hlen).
  destruct (get_memory_cell (mp_p (MP m)) (mp_q (MP m)) (store m)) as [index s].
  cbn [fst snd] in *. subst index.
  repeat split; try assumption; apply Hok'.
Qed.

Lemma Src_exec_left_bracket (i : nat) (m : machine) :
  Src.exec i "["%char m = Running (set_IP_index m (modulo (IP_index m - 1) 6)).
Proof. reflexivity. Qed.

Lemma Src_exec_right_bracket (i : nat) (m : machine) :
  Src.exec i "]"%char m = Running (set_IP_index m (modulo (IP_index m + 1) 6)).
Proof. reflexivity. Qed.

Lemma Root_exec_left_bracket (i : nat) (m : machine) :
  Root.exec i "["%char m = Running (set_IP_index m (modulo (IP_index m + 1) 6)).
Proof. reflexivity. Qed.

Lemma Root_exec_right_bracket (i : nat) (m : machine) :
  Root.exec i "]"%char m = Running (set_IP_index m (modulo (IP_index m - 1) 6)).
Proof. reflexivity. Qed.

(** In [src/hexagony.c] the left bracket steps the active index back and
    the right bracket steps it forward, modulo 6; nothing else changes. *)
Lemma Src_brackets (i : nat) (m : machine) :
  0 <= IP_index m <= 5 ->
  Src.exec i "["%char m = Running (set_IP_index m ((IP_index m - 1) mod 6))
  /\ Src.exec i "]"%char m = Running (set_IP_index m ((IP_index m + 1) mod 6))
  /\ 0 <= (IP_index m - 1) mod 6 <= 5
  /\ 0 <= (IP_index m + 1) mod 6 <= 5.
Proof.
  intros _. rewrite Src_exec_left_bracket, Src_exec_right_bracket.
  rewrite !modulo_mod by lia.
  pose proof (Z.mod_pos_bound (IP_index m - 1) 6).
  pose proof (Z.mod_pos_bound (IP_index m + 1) 6).
  repeat split; lia.
Qed.

(** In [hexagony.c] the two arms are exchanged, for every active index. *)
Lemma Root_brackets (i : nat) (m : machine) :
  Root.exec i "["%char m = Running (set_IP_index m ((IP_index m + 1) mod 6))
  /\ Root.exec i "]"%char m = Running (set_IP_index m ((IP_index m - 1) mod 6)).
Proof.
  rewrite Root_exec_left_bracket, Root_exec_right_bracket.
  rewrite !modulo_mod by lia. split; reflexivity.
Qed.

(** C1, on [hexagony.c].  The program made of a left bracket alone, started
    with the active index 0, has the active index 1 after its first
    instruction, where [(0 - 1) mod 6] is 5; the program made of a right
    bracket has the active index 5, where [(0 + 1) mod 6] is 1. *)
Theorem Root_brackets_exchanged :
  IP_index (Root.startup ["["%char] []) = 0
  /\ (exists m, Root.step (Root.startup ["["%char] []) = Running m /\ IP_index m = 1)
  /\ (0 - 1) mod 6 = 5
  /\ (exists m, Root.step (Root.startup ["]"%char] []) = Running m /\ IP_index m = 5)
  /\ (0 + 1) mod 6 = 1.
Proof.
  split; [reflexivity | split; [| split; [reflexivity | split; [| reflexivity]]]];
    eexists; (split; [vm_compute; reflexivity | reflexivity]).
Qed.

(** In [src/hexagony.c], [#] makes the active index the current edge modulo
    6 and leaves the memory pointer, the IPs, the streams and the value of
    every edge as they were. *)
Lemma Src_hash (i : nat) (m : machine) :
  store_ok (store m) ->
  exists m',
    Src.exec i "#"%char m = Running m'
    /\ IP_index m' = deref (store m) (MP_edge m) mod 6
    /\ 0 <= IP_index m' <= 5
    /\ MP m' = MP m
    /\ IPs m' = IPs m
    /\ program m' = program m /\ program_rings m' = program_rings m
    /\ stdin m' = stdin m /\ stdout m' = stdout m
    /\ (forall e, deref (store m') e = deref (store m) e).
Proof.
  intros Hok.
  destruct (current_edge_spec m Hok) as (Hedge & Hm & _ & Hderef & _).
  change (Src.exec i "#"%char m)
    with (let '(edge, m1) := current_edge m in
          Running (set_IP_index m1 (modulo (deref (store m1) edge) 6))).
  destruct (current_edge m) as [edge m1]. cbn [fst snd] in *. subst edge.
  eexists. split; [reflexivity |].
  rewrite Hm. cbn [IP_index MP IPs program program_rings stdin stdout store
                   set_IP_index set_store].
  rewrite modulo_mod, Hderef by lia.
  pose proof (Z.mod_pos_bound (deref (store m) (MP_edge m)) 6).
  repeat split; try reflexivity; try lia. exact Hderef.
Qed.

(** In [hexagony.c], [#] also moves the memory pointer to its left
    neighbour: the arm has no [break]. *)
Lemma Root_hash (i : nat) (m : machine) :
  exists m',
    Root.exec i "#"%char m = Running m'
    /\ MP m' = Root.move_mp (MP m) LEFT
    /\ MP m' <> MP m.
Proof.
  change (Root.exec i "#"%char m)
    with (let '(edge, m1) := current_edge m in
          let m2 := set_IP_index m1 (modulo (deref (store m1) edge) 6) in
          Running (set_MP m2 (Root.move_mp (MP m2) LEFT))).
  unfold current_edge. destruct (get_memory_edge (MP m) (store m)) as [edge s].
  eexists. split; [reflexivity |]. cbn [MP set_MP set_IP_index set_store].
  split; [reflexivity |].
  destruct (MP m) as [p q a []]; cbn; intros [=].
Qed.

(** C3, on [hexagony.c].  The program made of [#] alone: after its first
    instruction the memory pointer has left [(0, 0, Z, IN)] for
    [(0, 0, Y, OUT)]. *)
Theorem Root_hash_moves_pointer :
  MP (Root.startup ["#"%char] [])
    = {| mp_p := 0; mp_q := 0; mp_axis := Z; mp_direction := IN |}
  /\ exists m,
       Root.step (Root.startup ["#"%char] []) = Running m
       /\ IP_index m = 0
       /\ MP m = {| mp_p := 0; mp_q := 0; mp_axis := Y; mp_direction := OUT |}.
Proof.
  split; [reflexivity |].
  eexists. split; [vm_compute; reflexivity | split; reflexivity].
Qed.

(** ** Startup *)

(** C4, counterexample.  [hexagony.c] enters its loop with the pointer
    turned inwards. *)
Lemma Root_startup_pointer_inwards :
  MP (Root.startup ["@"%char] [])
    = {| mp_p := 0; mp_q := 0; mp_axis := Z; mp_direction := IN |}
  /\ MP (Root.startup ["@"%char] [])
    <> {| mp_p := 0; mp_q := 0; mp_axis := Z; mp_direction := OUT |}.
Proof. split; [reflexivity | discriminate]. Qed.

(** C4, amended.  Whatever the program and the input, the loop is entered
    with the memory pointer at [p = 0], [q = 0] on the axis [Z]; it is turned
    outwards in [src/hexagony.c] and inwards in [hexagony.c]. *)
Theorem startup_pointer (source : list ascii) (input : list int) :
  MP (Src.startup source input)
    = {| mp_p := 0; mp_q := 0; mp_axis := Z; mp_direction := OUT |}
  /\ MP (Root.startup source input)
    = {| mp_p := 0; mp_q := 0; mp_axis := Z; mp_direction := IN |}.
Proof.
  unfold Src.startup, Root.startup.
  destruct (load_program source) as [program program_rings].
  split; reflexivity.
Qed.

(** ** Digits *)

Lemma wrap_int_small (z : long) : int_range z -> wrap_int z = z.
Proof.
  unfold int_range, wrap_int. intros Hz.
  rewrite Z.mod_small by lia. lia.
Qed.

Lemma isdigit_range (c : int) : isdigit c = true <-> 48 <= c <= 57.
Proof. unfold isdigit. rewrite andb_true_iff, !Z.leb_le. reflexivity. Qed.

Lemma isdigit_not_isalpha (c : int) : isdigit c = true -> isalpha c = false.
Proof.
  intros Hd. apply isdigit_range in Hd. unfold isalpha.
  apply orb_false_iff. split; apply andb_false_iff.
  - left. apply Z.leb_gt. lia.
  - left. apply Z.leb_gt. lia.
Qed.

(** The digit arm of the later revision: what the two assignments leave.
    [w] is the edge after [*edge *= 10]; its sign selects the sign of the
    digit. *)
Lemma Src_digit (i : nat) (c : ascii) (m : machine) :
  isdigit (char_code c) = true ->
  store_ok (store m) ->
  exists m',
    Src.exec i c m = Running m'
    /\ (let w := wrap_int (deref (store m) (MP_edge m) * 10) in
        deref (store m') (MP_edge m)
        = wrap_int (w + (if w <? 0 then -1 else 1) * (char_code c - 48)))
    /\ (forall e, 0 <= fst e -> e <> MP_edge m -> deref (store m') e = deref (store m) e)
    /\ MP m' = MP m /\ IPs m' = IPs m /\ IP_index m' = IP_index m
    /\ stdin m' = stdin m /\ stdout m' = stdout m.
Proof.
  intros Hd Hok.
  destruct (current_edge_spec m Hok) as (Hedge & Hm & Hok1 & Hderef & Hlen).
  unfold Src.exec. rewrite (isdigit_not_isalpha _ Hd), Hd.
  destruct (current_edge m) as [edge m1]. cbn [fst snd] in *. subst edge.
  eexists. split; [reflexivity |].
  rewrite Hm. cbn [IP_index MP IPs stdin stdout store set_store].
  pose proof (axial_to_mem_index_nonneg (mp_p (MP m)) (mp_q (MP m))) as Hnn.
  assert (Hlen1 : (Z.to_nat (fst (MP_edge m))
                   < length (memory (assign (store m1) (MP_edge m)
                                       (deref (store m1) (MP_edge m) * 10))))%nat).
  { cbn [assign memory]. rewrite length_alter. exact Hlen. }
  repeat split.
  - cbn zeta. rewrite deref_assign_same by exact Hlen1.
    rewrite deref_assign_same by exact Hlen.
    rewrite Hderef. reflexivity.
  - intros e He Hne.
    rewrite !deref_assign_other by (assumption || exact Hnn).
    apply Hderef.
Qed.

(** The digit arm of the earlier revision: the sign multiplies the character
    code, and the code of the character zero is subtracted afterwards. *)
Lemma Root_digit (i : nat) (c : ascii) (m : machine) :
  isdigit (char_code c) = true ->
  store_ok (store m) ->
  exists m',
    Root.exec i c m = Running m'
    /\ (let w := wrap_int (deref (store m) (MP_edge m) * 10) in
        deref (store m') (MP_edge m)
        = wrap_int (w + ((if w <? 0 then -1 else 1) * char_code c - 48)))
    /\ (forall e, 0 <= fst e -> e <> MP_edge m -> deref (store m') e = deref (store m) e)
    /\ MP m' = MP m /\ IPs m' = IPs m /\ IP_index m' = IP_index m
    /\ stdin m' = stdin m /\ stdout m' = stdout m.
Proof.
  intros Hd Hok.
  destruct (current_edge_spec m Hok) as (Hedge & Hm & Hok1 & Hderef & Hlen).
  unfold Root.exec. rewrite (isdigit_not_isalpha _ Hd), Hd.
  destruct (current_edge m) as [edge m1]. cbn [fst snd] in *. subst edge.
  eexists. split; [reflexivity |].
  rewrite Hm. cbn [IP_index MP IPs stdin stdout store set_store].
  pose proof (axial_to_mem_index_nonneg (mp_p (MP m)) (mp_q (MP m))) as Hnn.
  assert (Hlen1 : (Z.to_nat (fst (MP_edge m))
                   < length (memory (assign (store m1) (MP_edge m)
                                       (deref (store m1) (MP_edge m) * 10))))%nat).
  { cbn [assign memory]. rewrite length_alter. exact Hlen. }
  repeat split.
  - cbn zeta. rewrite deref_assign_same by exact Hlen1.
    rewrite deref_assign_same by exact Hlen.
    rewrite Hderef. reflexivity.
  - intros e He Hne.
    rewrite !deref_assign_other by (assumption || exact Hnn).
    apply Hderef.
Qed.

(** It is the machine reached from startup by the digits of that number. *)
Lemma machine_214748365_reached :
  exec_all 0 (list_ascii_of_string "214748365") (Src.startup [] [])
  = Running machine_214748365.
Proof. vm_compute. reflexivity. Qed.

(** C2, counterexample.  With 214748365 in the current edge, the digit 1 of
    [src/hexagony.c] leaves -2147483647: the product by 10 wraps to a negative
    value and the digit is subtracted.  The claimed value, the wrapped
    [e * 10 + 1] for this positive [e], is -2147483645. *)
Lemma digit_after_wrapped_product :
  deref (store machine_214748365) (MP_edge machine_214748365) = 214748365
  /\ (exists m', Src.exec 0 "1"%char machine_214748365 = Running m'
                 /\ deref (store m') (MP_edge machine_214748365) = -2147483647)
  /\ wrap_int (214748365 * 10 + (if 214748365 <? 0 then - (char_code "1" - 48)
                                 else char_code "1" - 48)) = -2147483645.
Proof.
  split; [reflexivity | split; [| reflexivity]].
  eexists. split; [vm_compute; reflexivity | reflexivity].
Qed.

(** Two integers have the same 32-bit reduction when their difference is a
    multiple of 2^32. *)
Lemma wrap_int_congruent (a b : long) :
  wrap_int a = wrap_int b <-> (a - b) mod 2 ^ 32 = 0.
Proof.
  unfold wrap_int.
  replace (a - b) with ((a + 2 ^ 31) - (b + 2 ^ 31)) by lia.
  rewrite <- Z.cong_iff_0. lia.
Qed.

Lemma wrap_int_multiple (z : long) : exists k, wrap_int z = z + k * 2 ^ 32.
Proof.
  unfold wrap_int. exists (- ((z + 2 ^ 31) / 2 ^ 32)).
  pose proof (Z.div_mod (z + 2 ^ 31) (2 ^ 32)). lia.
Qed.

(** The value the digit arm of the later revision leaves is the claimed one
    exactly when the digit is zero or the wrapped product has kept the sign
    of the edge. *)
Lemma digit_claimed_iff (e d : long) :
  0 <= d <= 9 ->
  let w := wrap_int (e * 10) in
  wrap_int (w + (if w <? 0 then - d else d)) = wrap_int (e * 10 + (if e <? 0 then - d else d))
  <-> d = 0 \/ (w <? 0) = (e <? 0).
Proof.
  intros Hd w. rewrite wrap_int_congruent.
  destruct (wrap_int_multiple (e * 10)) as [k Hk]. fold w in Hk.
  assert (Hmul : forall x, (x + k * 2 ^ 32) mod 2 ^ 32 = x mod 2 ^ 32)
    by (intros x; apply Z.mod_add; lia).
  destruct (w <? 0), (e <? 0).
  - replace (w + - d - (e * 10 + - d)) with (0 + k * 2 ^ 32) by lia.
    rewrite Hmul. split; [right; reflexivity | reflexivity].
  - replace (w + - d - (e * 10 + d)) with (- (2 * d) + k * 2 ^ 32) by lia.
    rewrite Hmul. split.
    + intros H. left.
      destruct (Z.eq_dec d 0) as [-> | Hne]; [reflexivity |].
      rewrite Z.mod_opp_l_nz in H by (rewrite ?Z.mod_small; lia).
      rewrite Z.mod_small in H by lia. lia.
    + intros [-> | [=]]. reflexivity.
  - replace (w + d - (e * 10 + - d)) with (2 * d + k * 2 ^ 32) by lia.
    rewrite Hmul. split.
    + intros H. left. rewrite Z.mod_small in H by lia. lia.
    + intros [-> | [=]]. reflexivity.
  - replace (w + d - (e * 10 + d)) with (0 + k * 2 ^ 32) by lia.
    rewrite Hmul. split; [right; reflexivity | reflexivity].
Qed.

Lemma wrapped_product_sign (e : long) :
  int_range (e * 10) -> (wrap_int (e * 10) <? 0) = (e <? 0).
Proof.
  intros Hrange. rewrite (wrap_int_small _ Hrange).
  destruct (Z.ltb_spec (e * 10) 0), (Z.ltb_spec e 0); reflexivity || lia.
Qed.

(** C2, amended.  For every digit instruction [c], of value [d = c - '0']
    in 0..9, and every machine, with [e] the current edge and [w] the
    product [e * 10] reduced to an [int]: [src/hexagony.c] sets the current
    edge to [w + (w < 0 ? -d : +d)], reduced to an [int], and leaves every
    other edge unchanged; the sign that selects the sign of the digit is
    that of the reduced product.  The result is the claimed
    [e * 10 + (e < 0 ? -d : +d)], reduced, exactly when [d] is zero or [w]
    has the sign of [e], as it has whenever [e * 10] is in the range of
    [int].  [hexagony.c] leaves the same value when [w >= 0]. *)
Theorem digit_appended (i : nat) (c : ascii) (m : machine) :
  isdigit (char_code c) = true ->
  store_ok (store m) ->
  let e := deref (store m) (MP_edge m) in
  let d := char_code c - 48 in
  let w := wrap_int (e * 10) in
  0 <= d <= 9
  /\ (exists m',
         Src.exec i c m = Running m'
         /\ deref (store m') (MP_edge m) = wrap_int (w + (if w <? 0 then - d else d))
         /\ (deref (store m') (MP_edge m) = wrap_int (e * 10 + (if e <? 0 then - d else d))
             <-> d = 0 \/ (w <? 0) = (e <? 0))
         /\ forall e', 0 <= fst e' -> e' <> MP_edge m ->
                       deref (store m') e' = deref (store m) e')
  /\ (int_range (e * 10) -> (w <? 0) = (e <? 0))
  /\ (0 <= w ->
      exists m',
        Root.exec i c m = Running m'
        /\ deref (store m') (MP_edge m) = wrap_int (w + (if w <? 0 then - d else d))
        /\ forall e', 0 <= fst e' -> e' <> MP_edge m ->
                      deref (store m') e' = deref (store m) e').
Proof.
  intros Hd Hok e d w. subst e d w.
  set (e := deref (store m) (MP_edge m)) in *.
  set (d := char_code c - 48).
  set (w := wrap_int (e * 10)).
  assert (Hdr : 0 <= d <= 9) by (apply isdigit_range in Hd; unfold d; lia).
  split; [exact Hdr | split; [| split]].
  - destruct (Src_digit i c m Hd Hok) as (m' & Hexec & Hval & Hframe & _).
    cbn zeta in Hval. fold e d w in Hval.
    assert (Hw : deref (store m') (MP_edge m) = wrap_int (w + (if w <? 0 then - d else d))).
    { rewrite Hval. f_equal. destruct (w <? 0); lia. }
    exists m'. split; [exact Hexec | split; [exact Hw | split; [| exact Hframe]]].
    rewrite Hw. apply digit_claimed_iff. exact Hdr.
  - apply wrapped_product_sign.
  - intros Hpos.
    destruct (Root_digit i c m Hd Hok) as (m' & Hexec & Hval & Hframe & _).
    exists m'. split; [exact Hexec | split; [| exact Hframe]].
    cbn zeta in Hval. fold e w in Hval.
    rewrite Hval.
    replace (w <? 0) with false by (symmetry; apply Z.ltb_ge; exact Hpos).
    f_equal. unfold d. lia.
Qed.

Lemma digit_appended_witness :
  isdigit (char_code "1") = true
  /\ store_ok (store machine_214748365)
  /\ (exists m',
         Src.exec 0 "1"%char machine_214748365 = Running m'
         /\ deref (store m') (MP_edge machine_214748365) = -2147483647).
Proof.
  assert (H1 : isdigit (char_code "1") = true) by reflexivity.
  assert (H2 : store_ok (store machine_214748365))
    by (apply assign_ok; exact initial_store_ok).
  split; [exact H1 | split; [exact H2 |]].
  pose proof (digit_appended 0 "1"%char machine_214748365 H1 H2) as H.
  cbv zeta in H. destruct H as (_ & (m' & Hexec & Hval & _) & _).
  exists m'. split; [exact Hexec | rewrite Hval; reflexivity].
Defined.

(** In [hexagony.c] a digit after a negative edge subtracts the character
    code and then 48 more: with -1 in the current edge, the digit 2 leaves
    -108, where [-1 * 10 - 2] is -12. *)
Lemma Root_digit_negative_edge :
  exists m m',
    Root.exec 0 "("%char (Root.startup [] []) = Running m
    /\ deref (store m) (MP_edge m) = -1
    /\ Root.exec 0 "2"%char m = Running m'
    /\ deref (store m') (MP_edge m) = -108.
Proof.
  eexists. eexists.
  split; [vm_compute; reflexivity | split; [reflexivity | split; [vm_compute; reflexivity | reflexivity]]].
Qed.

(** ** The store stays well formed *)

Lemma current_edge_ok (m : machine) :
  store_ok (store m) -> store_ok (store (snd (current_edge m))).
Proof. intros Hok. apply (current_edge_spec m Hok). Qed.

Lemma get_memory_edge_ok (ptr : memory_pointer) (s : memory_store) :
  store_ok s -> store_ok (snd (get_memory_edge ptr s)).
Proof.
  intros Hok. unfold get_memory_edge.
  pose proof (get_memory_cell_ok (mp_p ptr) (mp_q ptr) s Hok) as (_ & H & _).
  destruct (get_memory_cell (mp_p ptr) (mp_q ptr) s). exact H.
Qed.

Lemma Src_get_neighbor_ok (ptr : memory_pointer) (side : neighbor) (s : memory_store) :
  store_ok s -> store_ok (snd (Src.get_neighbor ptr side s)).
Proof. rewrite get_neighbor_move_mp. apply get_memory_edge_ok. Qed.

Lemma Root_get_neighbor_ok (ptr : memory_pointer) (side : neighbor) (s : memory_store) :
  store_ok s -> store_ok (snd (Root.get_neighbor ptr side s)).
Proof. rewrite Root_get_neighbor_move_mp. apply get_memory_edge_ok. Qed.

(** One step of the argument: the store after an access or an assignment. *)
Ltac ok_step :=
  match goal with
  | |- store_ok (assign _ _ _) => apply assign_ok
  | H : current_edge ?m = (_, ?m1) |- store_ok (store ?m1) =>
      let K := fresh in
      assert (K : store_ok (store (snd (current_edge m))))
        by (apply current_edge_ok; ok_step);
      rewrite H in K; exact K
  | H : get_memory_edge ?p ?s = (_, ?s1) |- store_ok ?s1 =>
      let K := fresh in
      assert (K : store_ok (snd (get_memory_edge p s)))
        by (apply get_memory_edge_ok; ok_step);
      rewrite H in K; exact K
  | H : Src.get_neighbor ?p ?d ?s = (_, ?s1) |- store_ok ?s1 =>
      let K := fresh in
      assert (K : store_ok (snd (Src.get_neighbor p d s)))
        by (apply Src_get_neighbor_ok; ok_step);
      rewrite H in K; exact K
  | H : Root.get_neighbor ?p ?d ?s = (_, ?s1) |- store_ok ?s1 =>
      let K := fresh in
      assert (K : store_ok (snd (Root.get_neighbor p d s)))
        by (apply Root_get_neighbor_ok; ok_step);
      rewrite H in K; exact K
  | |- _ => assumption
  end.

(** Split on every scrutinee of the goal, then follow the store. *)
Ltac ok_cases :=
  repeat match goal with
    | |- context [match ?x with _ => _ end] => destruct x eqn:?
    end;
  cbn [outcome_ok store set_store set_IPs set_IP_index set_MP set_stdin set_stdout];
  try exact I; repeat ok_step.

Lemma Src_exec_ok (i : nat) (c : ascii) (m : machine) :
  store_ok (store m) -> outcome_ok (Src.exec i c m).
Proof.
  intros Hok. unfold Src.exec, Src.arith, Src.reverse_mp, branch_lt, branch_gt.
  ok_cases.
Qed.

Lemma Root_exec_ok (i : nat) (c : ascii) (m : machine) :
  store_ok (store m) -> outcome_ok (Root.exec i c m).
Proof.
  intros Hok. unfold Root.exec, Root.arith, Root.reverse_mp, branch_lt, branch_gt.
  ok_cases.
Qed.

Lemma choose_reflection_ok (np nq nr : long) (m : machine) :
  store_ok (store m) -> store_ok (store (snd (choose_reflection np nq nr m))).
Proof.
  intros Hok. unfold choose_reflection.
  repeat match goal with
    | |- context [match ?x with _ => _ end] => destruct x eqn:?
    end;
  cbn [snd]; repeat ok_step.
Qed.

Lemma advance_ok (i : nat) (m m' : machine) :
  store_ok (store m) -> advance i m = Some m' -> store_ok (store m').
Proof.
  intros Hok. unfold advance.
  destruct (_ >=? _); [| intros [= <-]; exact Hok].
  match goal with
  | |- context [choose_reflection ?a ?b ?c m] =>
      pose proof (choose_reflection_ok a b c m Hok) as H;
      destruct (choose_reflection a b c m) as [[[] |] m1]
  end; intros [= <-]; exact H.
Qed.

(** Every iteration of the loop of [src/hexagony.c] leaves a well-formed
    store, and the loop is entered with one. *)
Lemma Src_step_ok (m : machine) : store_ok (store m) -> outcome_ok (Src.step m).
Proof.
  intros Hok. unfold Src.step.
  destruct (ignore_next _).
  - destruct (advance _ _) as [m' |] eqn:Hadv; [| exact I].
    apply (advance_ok _ _ _ (Hok : store_ok (store (set_IPs m _))) Hadv).
  - destruct (_ <? 0); [exact I |].
    destruct (program m !! _) as [instruction |]; [| exact I].
    destruct (debug instruction); [exact Hok |].
    pose proof (Src_exec_ok (Z.to_nat (IP_index m)) (value instruction) m Hok) as Hexec.
    destruct (Src.exec _ _ m) as [m1 | m1 | m1 | | |]; try exact Hexec.
    destruct (advance _ m1) as [m' |] eqn:Hadv; [| exact I].
    apply (advance_ok _ _ _ Hexec Hadv).
Qed.

Lemma Root_step_ok (m : machine) : store_ok (store m) -> outcome_ok (Root.step m).
Proof.
  intros Hok. unfold Root.step.
  destruct (ignore_next _).
  - destruct (advance _ _) as [m' |] eqn:Hadv; [| exact I].
    apply (advance_ok _ _ _ (Hok : store_ok (store (set_IPs m _))) Hadv).
  - destruct (_ <? 0); [exact I |].
    destruct (program m !! _) as [instruction |]; [| exact I].
    destruct (debug instruction); [exact Hok |].
    pose proof (Root_exec_ok (Z.to_nat (IP_index m)) (value instruction) m Hok) as Hexec.
    destruct (Root.exec _ _ m) as [m1 | m1 | m1 | | |]; try exact Hexec;
      (destruct (advance _ m1) as [m' |] eqn:Hadv; [| exact I]);
      apply (advance_ok _ _ _ Hexec Hadv).
Qed.

Lemma startup_ok (source : list ascii) (input : list int) :
  store_ok (store (Src.startup source input))
  /\ store_ok (store (Root.startup source input)).
Proof.
  unfold Src.startup, Root.startup.
  destruct (load_program source). split; exact initial_store_ok.
Qed.

(** The loop never reads an unassigned [reflection]: no iteration of either
    revision ends in [Undefined] on a cell of the program. *)
Lemma Src_step_defined (m : machine) :
  0 <= axial_to_index (ip_p (IP_at m (Z.to_nat (IP_index m))))
         (ip_q (IP_at m (Z.to_nat (IP_index m)))) (program_rings m) ->
  is_Some (program m !! Z.to_nat (axial_to_index (ip_p (IP_at m (Z.to_nat (IP_index m))))
                                    (ip_q (IP_at m (Z.to_nat (IP_index m))))
                                    (program_rings m))) ->
  Src.step m <> Undefined.
Proof.
  intros Hidx [instruction Hcell]. unfold Src.step.
  destruct (ignore_next _).
  - pose proof (advance_defined (Z.to_nat (IP_index m))
                  (set_IPs m (alter (set_ignore_next false) (Z.to_nat (IP_index m)) (IPs m)))).
    destruct (advance _ _); [discriminate | congruence].
  - cbv zeta. match goal with
    | |- context [?a <? 0] => destruct (Z.ltb_spec a 0) as [Hneg | _]; [lia |]
    end.
    rewrite Hcell. destruct (debug instruction); [discriminate |].
    assert (Hexec : Src.exec (Z.to_nat (IP_index m)) (value instruction) m <> Undefined).
    { unfold Src.exec, Src.arith.
      repeat match goal with
        | |- context [match ?x with _ => _ end] => destruct x eqn:?
        end; discriminate. }
    destruct (Src.exec _ _ m) as [m1 | m1 | m1 | | |]; try discriminate; [| congruence].
    pose proof (advance_defined (Z.to_nat (IP_index m)) m1).
    destruct (advance _ m1); [discriminate | congruence].
Qed.

(** ** Runs of whole programs *)

(** The scenarios of the specification, in both revisions. *)
Example run_exit :
  written (Src.run 10 (Src.startup (list_ascii_of_string "@") [])) = Some []
  /\ written (Root.run 10 (Root.startup (list_ascii_of_string "@") [])) = Some [].
Proof. split; vm_compute; reflexivity. Qed.

Example run_print_zero :
  written (Src.run 10 (Src.startup (list_ascii_of_string "!@") [])) = Some [Printd 0]
  /\ written (Root.run 10 (Root.startup (list_ascii_of_string "!@") [])) = Some [Printd 0].
Proof. split; vm_compute; reflexivity. Qed.

Example run_print_one :
  written (Src.run 10 (Src.startup (list_ascii_of_string "1!@") [])) = Some [Printd 1]
  /\ written (Root.run 10 (Root.startup (list_ascii_of_string "1!@") [])) = Some [Printd 1].
Proof. split; vm_compute; reflexivity. Qed.

Example run_space :
  written (Src.run 10 (Src.startup (list_ascii_of_string "32;@") [])) = Some [Putc 32]
  /\ written (Root.run 10 (Root.startup (list_ascii_of_string "32;@") [])) = Some [Putc 32].
Proof. split; vm_compute; reflexivity. Qed.

Example run_echo :
  written (Src.run 10 (Src.startup (list_ascii_of_string ",;@") [65])) = Some [Putc 65]
  /\ written (Src.run 10 (Src.startup (list_ascii_of_string ",;@") [])) = Some [Putc 255]
  /\ written (Root.run 10 (Root.startup (list_ascii_of_string ",;@") [65])) = Some [Putc 65]
  /\ written (Root.run 10 (Root.startup (list_ascii_of_string ",;@") [])) = Some [Putc 255].
Proof. repeat split; vm_compute; reflexivity. Qed.

(** A program of three rings that uses mirrors, branches, the wrap at the
    border and the arithmetic on neighbours.  The earlier revision starts
    with the pointer inwards: the neighbours of the first [*] are edges of
    the cell of the pointer.  The later revision starts with the pointer
    outwards: the neighbours are in two cells of the next ring, which the
    calls of [get_neighbor] have to allocate. *)
Example run_hello_world :
  written (Root.run 200
             (Root.startup (list_ascii_of_string "H;e;l;d;*;r;o;Wl;;o;*433;@.>;23<\4;*/") []))
  = Some (Putc_string "Hello, World!")
  /\ Src.run 200
       (Src.startup (list_ascii_of_string "H;e;l;d;*;r;o;Wl;;o;*433;@.>;23<\4;*/") [])
     = Stale.
Proof. split; vm_compute; reflexivity. Qed.

(** * The rest of the code: memory growth, program array, loader, loop *)

(** ** Growth of the memory array *)

Lemma realloc_memory_extends (l : list memory_cell) (r : long) :
  1 <= r -> Z.of_nat (length l) = hex_size r ->
  realloc_memory l r (r + 1) = l ++ replicate (Z.to_nat (6 * r)) zero_cell.
Proof.
  intros Hr Hlen. unfold realloc_memory. rewrite take_ge by lia.
  rewrite hex_size_succ. do 2 f_equal. lia.
Qed.

Lemma grow_memory_extends (fuel : nat) (index : long) (s : memory_store) :
  store_ok s ->
  memory_rings s <= memory_rings (grow_memory fuel index s)
  /\ memory (grow_memory fuel index s)
     = memory s ++ replicate (Z.to_nat (hex_size (memory_rings (grow_memory fuel index s))
                                         - hex_size (memory_rings s))) zero_cell.
Proof.
  revert s. induction fuel as [| fuel IH]; intros s [Hr Hlen]; cbn [grow_memory].
  - destruct (index >=? _); (split; [lia |]);
      rewrite Z.sub_diag; cbn; rewrite app_nil_r; reflexivity.
  - destruct (index >=? _).
    + set (s' := {| memory := realloc_memory (memory s) (memory_rings s) (memory_rings s + 1);
                    memory_rings := memory_rings s + 1 |}).
      assert (Hok' : store_ok s').
      { split; cbn [s' memory memory_rings]; [lia | apply realloc_memory_length; assumption]. }
      destruct (IH s' Hok') as [Hle Hmem].
      pose proof (hex_size_le (memory_rings s') (memory_rings (grow_memory fuel index s'))
                    (conj (proj1 Hok') Hle)) as Hmono.
      cbn [s' memory memory_rings] in Hle, Hmem, Hmono. split; [lia |].
      rewrite Hmem, realloc_memory_extends by assumption.
      rewrite <- app_assoc. f_equal. rewrite <- replicate_add. f_equal.
      pose proof (hex_size_succ (memory_rings s)). lia.
    + split; [lia |]. rewrite Z.sub_diag; cbn; rewrite app_nil_r; reflexivity.
Qed.

Lemma grow_memory_rings (fuel : nat) (index rho : long) (s : memory_store) :
  store_ok s -> 0 <= rho ->
  ring_base rho <= index < hex_size (rho + 1) ->
  index < memory_rings s + Z.of_nat fuel ->
  memory_rings (grow_memory fuel index s) = Z.max (memory_rings s) (rho + 1).
Proof.
  revert s. induction fuel as [| fuel IH]; intros s [Hr Hlen] Hrho Hblock Hfuel;
    cbn [grow_memory].
  - destruct (Z.geb_spec index (hex_size (memory_rings s))) as [Hge | Hlt].
    + pose proof (hex_size_lower _ Hr). lia.
    + destruct (Z.le_gt_cases (memory_rings s) rho) as [Hle | Hgt]; [| lia].
      pose proof (hex_size_le (memory_rings s) rho). rewrite ring_base_pos in Hblock; lia.
  - destruct (Z.geb_spec index (hex_size (memory_rings s))) as [Hge | Hlt].
    + assert (memory_rings s <= rho).
      { destruct (Z.le_gt_cases (memory_rings s) rho) as [Hle | Hgt]; [exact Hle |].
        pose proof (hex_size_le (rho + 1) (memory_rings s)). lia. }
      rewrite IH; cbn [memory memory_rings]; try assumption; try lia.
      split; cbn [memory memory_rings]; [lia | apply realloc_memory_length; assumption].
    + destruct (Z.le_gt_cases (memory_rings s) rho) as [Hle | Hgt]; [| lia].
      pose proof (hex_size_le (memory_rings s) rho). rewrite ring_base_pos in Hblock; lia.
Qed.

(** X1.  On a well-formed store, [get_memory_cell] returns the index
    [axial_to_mem_index p q], which lies inside the array it leaves; the
    store stays well formed and every edge keeps its value. *)
Theorem get_memory_cell_in_bounds (p q : long) (s : memory_store) :
  store_ok s ->
  fst (get_memory_cell p q s) = axial_to_mem_index p q
  /\ (0 <= fst (get_memory_cell p q s)
      < Z.of_nat (length (memory (snd (get_memory_cell p q s)))))
  /\ store_ok (snd (get_memory_cell p q s))
  /\ forall e, deref (snd (get_memory_cell p q s)) e = deref s e.
Proof.
  intros Hok. destruct (get_memory_cell_ok p q s Hok) as (Hidx & Hok' & Hderef & Hlen).
  pose proof (axial_to_mem_index_nonneg p q).
  rewrite Hidx. repeat split; try assumption; try lia; apply Hok'.
Qed.

(** X2.  [get_memory_cell] leaves [max rings (ring + 1)] rings, where
    [ring] is the ring of the cell asked for: the array is the old one
    followed by zeroed cells, and it is untouched when the ring of the cell
    was already allocated. *)
Theorem get_memory_cell_growth (p q : long) (s : memory_store) :
  store_ok s ->
  memory_rings (snd (get_memory_cell p q s)) = Z.max (memory_rings s) (mem_ring p q + 1)
  /\ memory (snd (get_memory_cell p q s))
     = memory s ++ replicate (Z.to_nat (hex_size (Z.max (memory_rings s) (mem_ring p q + 1))
                                         - hex_size (memory_rings s))) zero_cell
  /\ (mem_ring p q < memory_rings s -> snd (get_memory_cell p q s) = s).
Proof.
  intros Hok. unfold get_memory_cell. cbn [snd].
  pose proof (axial_to_mem_index_nonneg p q) as Hnn.
  assert (Hrings : memory_rings (grow_memory (S (Z.to_nat (axial_to_mem_index p q)))
                                   (axial_to_mem_index p q) s)
                   = Z.max (memory_rings s) (mem_ring p q + 1)).
  { apply grow_memory_rings; [exact Hok | apply mem_ring_nonneg | apply mem_index_in_ring |].
    destruct Hok. lia. }
  destruct (grow_memory_extends (S (Z.to_nat (axial_to_mem_index p q)))
              (axial_to_mem_index p q) s Hok) as [_ Hmem].
  rewrite Hrings in Hmem.
  split; [exact Hrings | split; [exact Hmem |]].
  intros Hin.
  destruct (grow_memory _ _ s) as [mem' rings'] eqn:Hg. cbn [memory memory_rings] in *.
  destruct s as [mem rings]. cbn [memory memory_rings] in *.
  rewrite Hmem, Hrings. replace (Z.max rings (mem_ring p q + 1)) with rings by lia.
  rewrite Z.sub_diag. cbn. rewrite app_nil_r. reflexivity.
Qed.

(** ** [axial_to_index]: rows of the program array *)

Lemma axial_to_index_double (p q R : long) :
  inside p q R ->
  2 * axial_to_index p q R
  = 3 * R * (R - 1) + 2 * q - 2 * (- p - q) * (2 * R - 1)
    + (- p - q) * (Z.abs (- p - q) + 1).
Proof.
  unfold inside, axial_to_index. intros Hin.
  destruct (Z.gtb_spec (Z.abs p + Z.abs q + Z.abs (- p - q)) (2 * (R - 1))); [lia |].
  pose proof (quot_2_even (3 * R * (R - 1))) as HA.
  rewrite <- Z.mul_assoc, Z.even_mul, even_consecutive, orb_true_r in HA.
  specialize (HA eq_refl). rewrite Z.mul_assoc in HA.
  pose proof (quot_2_even _ (even_abs_succ (- p - q))) as HB.
  lia.
Qed.

Lemma row_last_succ (n z : long) :
  - n <= z < n -> row_last n (z + 1) = row_first n z - 2.
Proof. unfold row_last, row_first. nia. Qed.

Lemma row_first_le_last (n z : long) : - n <= z <= n -> row_first n z <= row_last n z.
Proof. unfold row_last, row_first. nia. Qed.

Lemma rows_ordered (k : nat) (n z : long) :
  - n <= z -> z + Z.of_nat k + 1 <= n ->
  row_last n (z + Z.of_nat k + 1) < row_first n z.
Proof.
  induction k as [| k IH]; intros Hlo Hhi.
  - replace (z + Z.of_nat 0 + 1) with (z + 1) by lia. rewrite row_last_succ; lia.
  - replace (z + Z.of_nat (S k) + 1) with ((z + Z.of_nat k + 1) + 1) by lia.
    rewrite row_last_succ by lia.
    pose proof (row_first_le_last n (z + Z.of_nat k + 1)).
    specialize (IH Hlo). lia.
Qed.

Lemma index_in_row (p q R : long) :
  inside p q R ->
  row_first (R - 1) (- p - q)
  <= 2 * axial_to_index p q R - 3 * R * (R - 1)
  <= row_last (R - 1) (- p - q)
  /\ - (R - 1) <= - p - q <= R - 1.
Proof.
  intros Hin. rewrite (axial_to_index_double p q R Hin).
  unfold inside in Hin. unfold row_first, row_last. lia.
Qed.

(** X3.  Two cells inside the hexagon with the same program index are the
    same cell. *)
Theorem axial_to_index_injective (p q p' q' R : long) :
  inside p q R -> inside p' q' R ->
  axial_to_index p q R = axial_to_index p' q' R ->
  p = p' /\ q = q'.
Proof.
  intros Hin Hin' Heq.
  destruct (index_in_row p q R Hin) as [Hrow Hz].
  destruct (index_in_row p' q' R Hin') as [Hrow' Hz'].
  rewrite <- Heq in Hrow'.
  assert (Hsame : - p - q = - p' - q').
  { destruct (Z.lt_trichotomy (- p - q) (- p' - q')) as [Hlt | [Heqz | Hgt]]; [| exact Heqz |].
    - pose proof (rows_ordered (Z.to_nat (- p' - q' - (- p - q) - 1)) (R - 1) (- p - q)) as H.
      replace (- p - q + Z.of_nat (Z.to_nat (- p' - q' - (- p - q) - 1)) + 1)
        with (- p' - q') in H by lia.
      lia.
    - pose proof (rows_ordered (Z.to_nat (- p - q - (- p' - q') - 1)) (R - 1) (- p' - q')) as H.
      replace (- p' - q' + Z.of_nat (Z.to_nat (- p - q - (- p' - q') - 1)) + 1)
        with (- p - q) in H by lia.
      lia. }
  pose proof (axial_to_index_double p q R Hin) as H1.
  pose proof (axial_to_index_double p' q' R Hin') as H2.
  rewrite Heq, H2, Hsame in H1. lia.
Qed.

Lemma axial_to_index_east_step (p q R : long) :
  inside p q R -> inside (p - 1) (q + 1) R ->
  axial_to_index (p - 1) (q + 1) R = axial_to_index p q R + 1.
Proof.
  intros Hin Hin'.
  pose proof (axial_to_index_double p q R Hin) as H1.
  pose proof (axial_to_index_double (p - 1) (q + 1) R Hin') as H2.
  replace (- (p - 1) - (q + 1)) with (- p - q) in H2 by lia. lia.
Qed.

Lemma axial_to_index_first (R : long) : 1 <= R -> axial_to_index 0 (- (R - 1)) R = 0.
Proof.
  intros HR.
  assert (Hin : inside 0 (- (R - 1)) R) by (unfold inside; lia).
  pose proof (axial_to_index_double _ _ _ Hin) as H.
  replace (- 0 - - (R - 1)) with (R - 1) in H by lia.
  rewrite (Z.abs_eq (R - 1)) in H by lia. nia.
Qed.

(** ** Loading the program *)

Lemma read_source_values (source : list ascii) (cells : list program_cell)
    (R : long) (dbg : bool) :
  map value (fst (read_source source cells R dbg))
  = map value cells ++ instruction_chars source.
Proof.
  revert cells R dbg. induction source as [| c rest IH]; intros cells R dbg; cbn [read_source].
  - cbn. rewrite app_nil_r. reflexivity.
  - unfold instruction_chars. cbn [List.filter]. unfold is_instruction at 1.
    destruct (char_code c =? 96); cbn [negb andb].
    + apply IH.
    + destruct (isspace (char_code c)); cbn [negb].
      * apply IH.
      * rewrite IH, map_app. cbn [map value]. rewrite <- app_assoc. reflexivity.
Qed.

Lemma read_source_rings (source : list ascii) (cells : list program_cell)
    (R : long) (dbg : bool) :
  rings_fit (length cells) R ->
  rings_fit (length (fst (read_source source cells R dbg)))
            (snd (read_source source cells R dbg)).
Proof.
  revert cells R dbg. induction source as [| c rest IH]; intros cells R dbg Hfit;
    cbn [read_source].
  - exact Hfit.
  - destruct (char_code c =? 96); [apply IH; exact Hfit |].
    destruct (isspace (char_code c)); cbn [negb]; [apply IH; exact Hfit |].
    apply IH. destruct Hfit as (HR & Hle & Hmin).
    unfold rings_fit. rewrite length_app. cbn [length].
    destruct (Z.geb_spec (Z.of_nat (length cells)) (hex_size R)) as [Hge | Hlt].
    + pose proof (hex_size_succ R).
      replace (R + 1 - 1) with R by lia.
      split; [lia | split; [lia | right; lia]].
    + split; [lia | split; [lia |]]. destruct Hmin; [left; assumption | right; lia].
Qed.

Lemma read_source_no_breakpoint (source : list ascii) (cells : list program_cell)
    (R : long) :
  Forall (fun c => char_code c <> 96) source ->
  Forall (fun cell => debug cell = false) cells ->
  Forall (fun cell => debug cell = false) (fst (read_source source cells R false)).
Proof.
  revert cells R. induction source as [| c rest IH]; intros cells R Hsrc Hcells;
    cbn [read_source].
  - exact Hcells.
  - apply Forall_cons in Hsrc. destruct Hsrc as [Hc Hrest].
    destruct (Z.eqb_spec (char_code c) 96); [contradiction |].
    destruct (isspace (char_code c)); cbn [negb]; [apply IH; assumption |].
    apply IH; [assumption |]. apply Forall_app. split; [assumption |].
    repeat constructor.
Qed.

Lemma load_program_fit (source : list ascii) :
  rings_fit (length (instruction_chars source)) (snd (load_program source))
  /\ Z.of_nat (length (fst (load_program source))) = hex_size (snd (load_program source)).
Proof.
  unfold load_program.
  pose proof (read_source_rings source [] 1 false) as Hfit.
  pose proof (read_source_values source [] 1 false) as Hval.
  destruct (read_source source [] 1 false) as [cells R]. cbn [fst snd] in *.
  assert (Hlen : length cells = length (instruction_chars source)).
  { rewrite <- (length_map value cells), Hval. reflexivity. }
  rewrite <- Hlen.
  assert (H0 : rings_fit (@length program_cell []) 1).
  { unfold rings_fit, hex_size. cbn. lia. }
  specialize (Hfit H0). split; [exact Hfit |].
  destruct Hfit as (HR & Hle & _).
  rewrite length_app, length_replicate. lia.
Qed.

Lemma load_program_values_eq (source : list ascii) :
  map value (fst (load_program source))
  = instruction_chars source
    ++ replicate (Z.to_nat (hex_size (snd (load_program source)))
                  - length (instruction_chars source))%nat "."%char.
Proof.
  unfold load_program.
  pose proof (read_source_values source [] 1 false) as Hval.
  destruct (read_source source [] 1 false) as [cells R]. cbn [fst snd] in *.
  rewrite map_app, Hval. cbn [map app]. f_equal.
  assert (Hlen : length cells = length (instruction_chars source)).
  { rewrite <- (length_map value cells), Hval. reflexivity. }
  rewrite Hlen. 
  change (map value (replicate ?n ?x)) with (value <$> replicate n x).
  rewrite fmap_replicate. reflexivity.
Qed.

(** X7.  A source without a backtick gives a program with no breakpoint:
    no cell has its [debug] flag set. *)
Theorem load_program_no_breakpoint (source : list ascii) :
  Forall (fun c => char_code c <> 96) source ->
  Forall (fun cell => debug cell = false) (fst (load_program source)).
Proof.
  intros Hsrc. unfold load_program.
  pose proof (read_source_no_breakpoint source [] 1 Hsrc (Forall_nil_2 _)) as H.
  destruct (read_source source [] 1 false) as [cells R]. cbn [fst] in *.
  apply Forall_app. split; [exact H |]. apply Forall_replicate. reflexivity.
Qed.

(** ** The loop keeps the machine consistent *)

Lemma modulo_6_range (a : long) : 0 <= modulo a 6 <= 5.
Proof. pose proof (modulo_pos a 6). lia. Qed.

Lemma IPs_redirected (R : long) (f : IP -> IP) (i : nat) (l : list IP) :
  (forall ip, ip_p (f ip) = ip_p ip /\ ip_q (f ip) = ip_q ip) ->
  Forall (IP_inside R) l -> Forall (IP_inside R) (alter f i l).
Proof.
  intros Hf Hl. apply Forall_alter; [exact Hl |].
  intros ip _ Hip. unfold IP_inside in *. destruct (Hf ip) as [-> ->]. exact Hip.
Qed.

Lemma machine_ok_store (m : machine) : machine_ok m -> store_ok (store m).
Proof. intros H. apply H. Qed.

Lemma machine_ok_set_store (m : machine) (s : memory_store) :
  machine_ok m -> store_ok s -> machine_ok (set_store m s).
Proof. intros (_ & H) Hs. split; [exact Hs | exact H]. Qed.

Lemma machine_ok_set_MP (m : machine) (ptr : memory_pointer) :
  machine_ok m -> machine_ok (set_MP m ptr).
Proof. intros H. exact H. Qed.

Lemma machine_ok_set_stdin (m : machine) (input : list int) :
  machine_ok m -> machine_ok (set_stdin m input).
Proof. intros H. exact H. Qed.

Lemma machine_ok_set_stdout (m : machine) (out : list output) :
  machine_ok m -> machine_ok (set_stdout m out).
Proof. intros H. exact H. Qed.

Lemma machine_ok_set_IP_index (m : machine) (a : long) :
  machine_ok m -> machine_ok (set_IP_index m (modulo a 6)).
Proof.
  intros (Hs & HR & Hp & Hl & _ & Hin).
  repeat (split; [assumption |]). split; [apply modulo_6_range | exact Hin].
Qed.

Lemma machine_ok_redirect (m : machine) (f : IP -> IP) (i : nat) :
  (forall ip, ip_p (f ip) = ip_p ip /\ ip_q (f ip) = ip_q ip) ->
  machine_ok m -> machine_ok (set_IPs m (alter f i (IPs m))).
Proof.
  intros Hf (Hs & HR & Hp & Hl & Hi & Hin).
  repeat (split; [assumption |]).
  split; [cbn [IPs set_IPs]; rewrite length_alter; exact Hl |].
  split; [exact Hi | apply IPs_redirected; assumption].
Qed.

Lemma machine_ok_current_edge (m m0 : machine) (e : edge_ptr) :
  machine_ok m -> current_edge m = (e, m0) -> machine_ok m0.
Proof.
  intros Hm Heq.
  destruct (current_edge_spec m (machine_ok_store m Hm)) as (_ & Hset & Hok & _).
  rewrite Heq in Hset, Hok. cbn [snd] in Hset, Hok. rewrite Hset.
  apply machine_ok_set_store; assumption.
Qed.

(** One step of the argument that a machine stays consistent. *)
Ltac safe_step :=
  match goal with
  | |- machine_ok (set_store _ _) => apply machine_ok_set_store
  | |- machine_ok (set_MP _ _) => apply machine_ok_set_MP
  | |- machine_ok (set_stdin _ _) => apply machine_ok_set_stdin
  | |- machine_ok (set_stdout _ _) => apply machine_ok_set_stdout
  | |- machine_ok (set_IP_index _ (modulo _ 6)) => apply machine_ok_set_IP_index
  | |- machine_ok (set_IPs ?m (alter _ _ (IPs ?m))) =>
      apply machine_ok_redirect; [intros ?; split; reflexivity |]
  | H : current_edge ?m = (_, ?m0) |- machine_ok ?m0 =>
      eapply (machine_ok_current_edge m m0); [| exact H]
  | |- store_ok (store _) => apply machine_ok_store
  | |- _ => ok_step
  end.

Ltac safe_cases :=
  repeat match goal with
    | |- context [match ?x with _ => _ end] => destruct x eqn:?
    end;
  cbn [outcome_safe]; try exact I; repeat safe_step.

Lemma Src_exec_safe (i : nat) (c : ascii) (m : machine) :
  machine_ok m -> outcome_safe (Src.exec i c m).
Proof.
  intros Hm. pose proof (machine_ok_store m Hm) as Hs.
  unfold Src.exec, Src.arith, Src.reverse_mp, branch_lt, branch_gt.
  safe_cases.
Qed.

Lemma Root_exec_safe (i : nat) (c : ascii) (m : machine) :
  machine_ok m -> outcome_safe (Root.exec i c m).
Proof.
  intros Hm. pose proof (machine_ok_store m Hm) as Hs.
  unfold Root.exec, Root.arith, Root.reverse_mp, branch_lt, branch_gt.
  safe_cases.
Qed.

Lemma inside_even_bound (np nq R : long) :
  Z.abs np + Z.abs nq + Z.abs (- np - nq) < 2 * R -> inside np nq R.
Proof.
  intros Hlt. unfold inside. pose proof (mem_ring_double np nq). lia.
Qed.

Lemma choose_reflection_safe (np nq : long) (m : machine) :
  machine_ok m ->
  exists a,
    fst (choose_reflection np nq (- np - nq) m) = Some a
    /\ machine_ok (snd (choose_reflection np nq (- np - nq) m))
    /\ IPs (snd (choose_reflection np nq (- np - nq) m)) = IPs m
    /\ program_rings (snd (choose_reflection np nq (- np - nq) m)) = program_rings m.
Proof.
  intros Hm. pose proof (choose_reflection_assigned np nq m) as Hsome.
  assert (Hrest : machine_ok (snd (choose_reflection np nq (- np - nq) m))
                  /\ IPs (snd (choose_reflection np nq (- np - nq) m)) = IPs m
                  /\ program_rings (snd (choose_reflection np nq (- np - nq) m))
                     = program_rings m).
  { unfold choose_reflection.
    pose proof (current_edge_spec m (machine_ok_store m Hm)) as (_ & Hset & Hok & _).
    destruct (current_edge m) as [e m0]. cbn [snd] in Hset, Hok.
    repeat match goal with
      | |- context [if ?b then _ else _] => destruct b
      end; cbn [snd];
      try (split; [exact Hm | split; reflexivity]);
      (split; [rewrite Hset; apply machine_ok_set_store; assumption
              | rewrite Hset; split; reflexivity]). }
  destruct (fst (choose_reflection np nq (- np - nq) m)) as [a |]; [| contradiction].
  exists a. split; [reflexivity | exact Hrest].
Qed.

Lemma lookup_IP_at (m : machine) (i : nat) :
  machine_ok m -> (i < 6)%nat ->
  IPs m !! i = Some (IP_at m i) /\ IP_inside (program_rings m) (IP_at m i).
Proof.
  intros (_ & _ & _ & Hl & _ & Hin) Hi. unfold IP_at.
  destruct (lookup_lt_is_Some_2 (IPs m) i) as [ip Hip]; [lia |].
  rewrite Hip. split; [reflexivity |].
  exact (Forall_lookup_1 _ _ _ _ Hin Hip).
Qed.

Lemma machine_ok_move (m : machine) (i : nat) (p q : long) :
  machine_ok m -> inside p q (program_rings m) ->
  machine_ok (set_IPs m (alter (set_position p q) i (IPs m))).
Proof.
  intros (Hs & HR & Hp & Hl & Hi & Hin) Hpq.
  repeat (split; [assumption |]).
  split; [cbn [IPs set_IPs]; rewrite length_alter; exact Hl |].
  split; [exact Hi |].
  cbn [IPs set_IPs program_rings]. apply Forall_alter; [exact Hin |].
  intros ip _ _. exact Hpq.
Qed.

Lemma advance_safe (i : nat) (m : machine) :
  machine_ok m -> (i < 6)%nat ->
  exists m', advance i m = Some m' /\ machine_ok m'.
Proof.
  intros Hm Hi. destruct (lookup_IP_at m i Hm Hi) as [_ Hin].
  unfold advance. set (ip := IP_at m i) in *.
  set (np := ip_p ip + fst (direction_offset (ip_direction ip))).
  set (nq := ip_q ip + snd (direction_offset (ip_direction ip))).
  destruct (Z.geb_spec (Z.abs np + Z.abs nq + Z.abs (- np - nq)) (2 * program_rings m))
    as [Hout | Hstay].
  - destruct (choose_reflection_safe np nq m Hm) as (a & Ha & Hm1 & HIPs & HR).
    destruct (choose_reflection np nq (- np - nq) m) as [o m1].
    cbn [fst snd] in *. subst o.
    unfold IP_inside, inside in Hin.
    destruct a; eexists; (split; [reflexivity |]);
      apply machine_ok_move; try exact Hm1; rewrite HR; unfold inside; lia.
  - eexists. split; [reflexivity |]. apply machine_ok_move; [exact Hm |].
    apply inside_even_bound. exact Hstay.
Qed.

Lemma fetch_inside (m : machine) (ip : IP) :
  machine_ok m -> IP_inside (program_rings m) ip ->
  is_Some (program m !! Z.to_nat (axial_to_index (ip_p ip) (ip_q ip) (program_rings m))).
Proof.
  intros (_ & _ & Hp & _) Hin. apply lookup_lt_is_Some_2.
  pose proof (axial_to_index_inside _ _ _ Hin). lia.
Qed.

Lemma Src_step_safe (m : machine) : machine_ok m -> outcome_safe (Src.step m).
Proof.
  intros Hm. unfold Src.step.
  assert (Hi : (Z.to_nat (IP_index m) < 6)%nat).
  { destruct Hm as (_ & _ & _ & _ & Hi & _). lia. }
  destruct (lookup_IP_at m _ Hm Hi) as [_ Hin].
  destruct (ignore_next _).
  - destruct (advance_safe (Z.to_nat (IP_index m))
                (set_IPs m (alter (set_ignore_next false) (Z.to_nat (IP_index m)) (IPs m))))
      as (m' & -> & Hm'); [| exact Hi | exact Hm'].
    apply machine_ok_redirect; [intros ?; split; reflexivity | exact Hm].
  - pose proof (axial_to_index_inside _ _ _ Hin) as Hidx. cbv zeta.
    match goal with
    | |- context [?a <? 0] => destruct (Z.ltb_spec a 0) as [Hneg | _]; [lia |]
    end.
    destruct (fetch_inside m _ Hm Hin) as [instruction ->].
    destruct (debug instruction); [exact Hm |].
    pose proof (Src_exec_safe (Z.to_nat (IP_index m)) (value instruction) m Hm) as Hexec.
    destruct (Src.exec _ _ m) as [m1 | m1 | m1 | | |]; try exact Hexec.
    destruct (advance_safe (Z.to_nat (IP_index m)) m1 Hexec Hi) as (m' & -> & Hm').
    exact Hm'.
Qed.

Lemma Root_step_safe (m : machine) : machine_ok m -> outcome_safe (Root.step m).
Proof.
  intros Hm. unfold Root.step.
  assert (Hi : (Z.to_nat (IP_index m) < 6)%nat).
  { destruct Hm as (_ & _ & _ & _ & Hi & _). lia. }
  destruct (lookup_IP_at m _ Hm Hi) as [_ Hin].
  destruct (ignore_next _).
  - destruct (advance_safe (Z.to_nat (IP_index m))
                (set_IPs m (alter (set_ignore_next false) (Z.to_nat (IP_index m)) (IPs m))))
      as (m' & -> & Hm'); [| exact Hi | exact Hm'].
    apply machine_ok_redirect; [intros ?; split; reflexivity | exact Hm].
  - pose proof (axial_to_index_inside _ _ _ Hin) as Hidx. cbv zeta.
    match goal with
    | |- context [?a <? 0] => destruct (Z.ltb_spec a 0) as [Hneg | _]; [lia |]
    end.
    destruct (fetch_inside m _ Hm Hin) as [instruction ->].
    destruct (debug instruction); [exact Hm |].
    pose proof (Root_exec_safe (Z.to_nat (IP_index m)) (value instruction) m Hm) as Hexec.
    destruct (Root.exec _ _ m) as [m1 | m1 | m1 | | |]; try exact Hexec;
      destruct (advance_safe (Z.to_nat (IP_index m)) m1 Hexec Hi) as (m' & -> & Hm');
      exact Hm'.
Qed.



Lemma Src_run_safe (fuel : nat) (m : machine) :
  machine_ok m -> outcome_safe (Src.run fuel m).
Proof.
  revert m. induction fuel as [| fuel IH]; intros m Hm; cbn [Src.run].
  - exact Hm.
  - pose proof (Src_step_safe m Hm) as Hstep.
    destruct (Src.step m); try exact Hstep. apply IH. exact Hstep.
Qed.

Lemma Root_run_safe (fuel : nat) (m : machine) :
  machine_ok m -> outcome_safe (Root.run fuel m).
Proof.
  revert m. induction fuel as [| fuel IH]; intros m Hm; cbn [Root.run].
  - exact Hm.
  - pose proof (Root_step_safe m Hm) as Hstep.
    destruct (Root.step m); try exact Hstep. apply IH. exact Hstep.
Qed.

(** ** Instructions *)

(** An access to a cell of a ring the array holds leaves the store as it
    is; in general the array holds the rings up to that of the cell. *)
Lemma get_memory_edge_allocated (ptr : memory_pointer) (s : memory_store) :
  store_ok s -> allocated s ptr -> get_memory_edge ptr s = (pointer_edge ptr, s).
Proof.
  intros [Hr Hlen] Hin. unfold allocated in Hin.
  unfold get_memory_edge, get_memory_cell, pointer_edge.
  cbn [grow_memory].
  pose proof (mem_index_in_ring (mp_p ptr) (mp_q ptr)) as [_ Hidx].
  pose proof (mem_ring_nonneg (mp_p ptr) (mp_q ptr)) as Hnn.
  pose proof (hex_size_le (mem_ring (mp_p ptr) (mp_q ptr) + 1) (memory_rings s)) as Hle.
  destruct (Z.geb_spec (axial_to_mem_index (mp_p ptr) (mp_q ptr)) (hex_size (memory_rings s)));
    [lia | reflexivity].
Qed.

Lemma get_memory_edge_rings (ptr : memory_pointer) (s : memory_store) :
  store_ok s ->
  memory_rings (snd (get_memory_edge ptr s))
  = Z.max (memory_rings s) (mem_ring (mp_p ptr) (mp_q ptr) + 1).
Proof.
  intros Hok. unfold get_memory_edge, get_memory_cell. cbn [snd].
  pose proof (axial_to_mem_index_nonneg (mp_p ptr) (mp_q ptr)) as Hnn.
  apply grow_memory_rings;
    [exact Hok | apply mem_ring_nonneg | apply mem_index_in_ring |].
  destruct Hok. lia.
Qed.

(** The two revisions do the arithmetic alike when the pointer is not on
    axis [X]. *)
Lemma arith_revisions (op : int -> int -> option long) (m : machine) :
  mp_axis (MP m) <> X -> Root.arith op m = Src.arith op m.
Proof.
  intros Hax. unfold Root.arith, Src.arith.
  destruct (get_memory_edge (MP m) (store m)) as [edge s].
  rewrite get_neighbor_revisions by (left; exact Hax).
  destruct (Src.get_neighbor (MP m) LEFT s) as [l s1].
  rewrite get_neighbor_revisions by (left; exact Hax). reflexivity.
Qed.

(** The two revisions execute an instruction alike, the digits, the two
    brackets and the hash apart, when the instruction does not look to the
    left or the pointer is not on axis [X]. *)
Lemma exec_revisions (i : nat) (c : ascii) (m : machine) :
  isdigit (char_code c) = false ->
  c <> "["%char -> c <> "]"%char -> c <> "#"%char ->
  looks_left c = false \/ mp_axis (MP m) <> X ->
  Root.exec i c m = Src.exec i c m.
Proof.
  intros Hd Hl Hr Hh Hleft. unfold Root.exec, Src.exec.
  destruct (isalpha (char_code c)); [reflexivity |].
  rewrite Hd.
  change Root.reverse_mp with Src.reverse_mp.
  destruct c as [[] [] [] [] [] [] [] []]; try reflexivity; try congruence;
    cbv beta iota;
    try (destruct Hleft as [Hleft | Hax]; [discriminate Hleft |]);
    try (rewrite !arith_revisions by exact Hax; reflexivity);
    unfold current_edge, Src.reverse_mp;
    try destruct (get_memory_edge (MP m) (store m)) as [e0 s0];
    cbn [MP set_MP set_store set_orientation mp_axis store];
    rewrite ?move_mp_revisions, ?get_neighbor_revisions by (cbn; auto);
    reflexivity.
Qed.

Lemma get_memory_edge_spec (ptr : memory_pointer) (s : memory_store) :
  store_ok s ->
  fst (get_memory_edge ptr s) = pointer_edge ptr
  /\ store_ok (snd (get_memory_edge ptr s))
  /\ (forall e, deref (snd (get_memory_edge ptr s)) e = deref s e)
  /\ (Z.to_nat (fst (pointer_edge ptr)) < length (memory (snd (get_memory_edge ptr s))))%nat
  /\ (length (memory s) <= length (memory (snd (get_memory_edge ptr s))))%nat.
Proof.
  intros Hok. unfold get_memory_edge, pointer_edge.
  destruct (get_memory_cell_ok (mp_p ptr) (mp_q ptr) s Hok) as (Hidx & Hok' & Hderef & Hlen).
  assert (Hmono : (length (memory s)
                   <= length (memory (snd (get_memory_cell (mp_p ptr) (mp_q ptr) s))))%nat).
  { unfold get_memory_cell. cbn [snd].
    destruct (grow_memory_extends (S (Z.to_nat (axial_to_mem_index (mp_p ptr) (mp_q ptr))))
                (axial_to_mem_index (mp_p ptr) (mp_q ptr)) s Hok) as [_ ->].
    rewrite length_app. lia. }
  destruct (get_memory_cell (mp_p ptr) (mp_q ptr) s) as [index s'].
  cbn [fst snd] in *. subst index. repeat split; try assumption; apply Hok'.
Qed.

(** A cell is inside the array exactly when its ring is one of the rings
    the array holds. *)
Lemma in_array_allocated (s : memory_store) (ptr : memory_pointer) :
  store_ok s -> in_array s (pointer_edge ptr) <-> allocated s ptr.
Proof.
  intros [Hr Hlen]. unfold in_array, allocated, pointer_edge. cbn [fst]. rewrite Hlen.
  pose proof (mem_index_in_ring (mp_p ptr) (mp_q ptr)) as [Hlo Hhi].
  pose proof (mem_ring_nonneg (mp_p ptr) (mp_q ptr)) as Hnn.
  pose proof (axial_to_mem_index_nonneg (mp_p ptr) (mp_q ptr)) as Hidx.
  split.
  - intros [_ Hlt].
    destruct (Z.lt_ge_cases (mem_ring (mp_p ptr) (mp_q ptr)) (memory_rings s))
      as [Hin | Hout]; [exact Hin |].
    rewrite ring_base_pos in Hlo by lia.
    pose proof (hex_size_le (memory_rings s) (mem_ring (mp_p ptr) (mp_q ptr))). lia.
  - intros Hin.
    pose proof (hex_size_le (mem_ring (mp_p ptr) (mp_q ptr) + 1) (memory_rings s)). lia.
Qed.

(** The pointer [get_neighbor] returns is the edge of the pointer [move_mp]
    leaves. *)
Lemma neighbor_edge_move (m : machine) (side : neighbor) :
  neighbor_edge m side = pointer_edge (Src.move_mp (MP m) side)
  /\ Root_neighbor_edge m side = pointer_edge (Root.move_mp (MP m) side).
Proof.
  unfold neighbor_edge, Root_neighbor_edge.
  rewrite get_neighbor_move_mp, Root_get_neighbor_move_mp. split; reflexivity.
Qed.

Lemma neighbours_in_array_allocated (m : machine) :
  store_ok (store m) ->
  (neighbours_in_array neighbor_edge m <-> neighbours_allocated Src.move_mp m)
  /\ (neighbours_in_array Root_neighbor_edge m <-> neighbours_allocated Root.move_mp m).
Proof.
  intros Hok. unfold neighbours_in_array, neighbours_allocated.
  destruct (neighbor_edge_move m LEFT) as [-> ->].
  destruct (neighbor_edge_move m RIGHT) as [-> ->].
  change (MP_edge m) with (pointer_edge (MP m)).
  rewrite !(in_array_allocated _ _ Hok). split; reflexivity.
Qed.

(** The arithmetic arms when the three cells are allocated: no call
    reallocates, and the current edge receives [op] of the two neighbours,
    which are the edges the braces lead to. *)
Lemma Src_arith_spec (op : int -> int -> option long) (m : machine) :
  store_ok (store m) -> neighbours_allocated Src.move_mp m ->
  Src.arith op m
  = match op (deref (store m) (neighbor_edge m LEFT))
             (deref (store m) (neighbor_edge m RIGHT)) with
    | Some v => Running (set_store m (assign (store m) (MP_edge m) v))
    | None => Trap
    end.
Proof.
  intros Hok (H0 & Hl & Hr). unfold Src.arith, neighbor_edge.
  rewrite (get_memory_edge_allocated _ _ Hok H0).
  rewrite get_neighbor_move_mp, (get_memory_edge_allocated _ _ Hok Hl).
  rewrite get_neighbor_move_mp, (get_memory_edge_allocated _ _ Hok Hr).
  rewrite Z.eqb_refl. reflexivity.
Qed.

Lemma Root_arith_spec (op : int -> int -> option long) (m : machine) :
  store_ok (store m) -> neighbours_allocated Root.move_mp m ->
  Root.arith op m
  = match op (deref (store m) (Root_neighbor_edge m LEFT))
             (deref (store m) (Root_neighbor_edge m RIGHT)) with
    | Some v => Running (set_store m (assign (store m) (MP_edge m) v))
    | None => Trap
    end.
Proof.
  intros Hok (H0 & Hl & Hr). unfold Root.arith, Root_neighbor_edge.
  rewrite (get_memory_edge_allocated _ _ Hok H0).
  rewrite Root_get_neighbor_move_mp, (get_memory_edge_allocated _ _ Hok Hl).
  rewrite Root_get_neighbor_move_mp, (get_memory_edge_allocated _ _ Hok Hr).
  rewrite Z.eqb_refl. reflexivity.
Qed.




(** A store into the current edge, when its cell is allocated. *)
Lemma sets_edge_assign (m : machine) (v : long) :
  store_ok (store m) -> allocated (store m) (MP m) ->
  sets_edge (Running (set_store m (assign (store m) (MP_edge m) v))) m v.
Proof.
  intros Hok Hin. exists (assign (store m) (MP_edge m) v).
  pose proof (axial_to_mem_index_nonneg (mp_p (MP m)) (mp_q (MP m))) as Hnn.
  assert (Hlen : (Z.to_nat (fst (MP_edge m)) < length (memory (store m)))%nat).
  { pose proof (get_memory_edge_spec (MP m) (store m) Hok) as (_ & _ & _ & Hlen & _).
    rewrite (get_memory_edge_allocated _ _ Hok Hin) in Hlen. exact Hlen. }
  split; [reflexivity | split].
  - apply deref_assign_same. exact Hlen.
  - intros e He Hne. apply deref_assign_other; assumption.
Qed.

(** Writing [v] through the pointer [current_edge] returns. *)
Lemma write_current_edge (m : machine) (v : int -> long) :
  store_ok (store m) ->
  exists s,
    (let '(edge, m1) := current_edge m in
     set_store m1 (assign (store m1) edge (v (deref (store m1) edge))))
    = set_store m s
    /\ deref s (MP_edge m) = wrap_int (v (deref (store m) (MP_edge m)))
    /\ (forall e, 0 <= fst e -> e <> MP_edge m -> deref s e = deref (store m) e)
    /\ store_ok s.
Proof.
  intros Hok.
  destruct (current_edge_spec m Hok) as (Hedge & Hm & Hok1 & Hderef & Hlen).
  destruct (current_edge m) as [edge m1]. cbn [fst snd] in *. subst edge.
  exists (assign (store m1) (MP_edge m) (v (deref (store m1) (MP_edge m)))).
  split.
  { transitivity (set_store (set_store m (store m1))
                    (assign (store m1) (MP_edge m) (v (deref (store m1) (MP_edge m)))));
      [f_equal; exact Hm | reflexivity]. }
  pose proof (axial_to_mem_index_nonneg (mp_p (MP m)) (mp_q (MP m))) as Hnn.
  split; [| split].
  - rewrite deref_assign_same by exact Hlen. rewrite Hderef. reflexivity.
  - intros e He Hne. rewrite deref_assign_other by (assumption || exact Hnn). apply Hderef.
  - apply assign_ok. exact Hok1.
Qed.

Lemma wrap_int_range (z : long) : int_range (wrap_int z).
Proof.
  unfold int_range, wrap_int. pose proof (Z.mod_pos_bound (z + 2 ^ 31) (2 ^ 32)). lia.
Qed.

Lemma isalpha_not_isdigit (c : int) : isalpha c = true -> isdigit c = false.
Proof.
  intros Ha. destruct (isdigit c) eqn:Hd; [| reflexivity].
  rewrite (isdigit_not_isalpha c Hd) in Ha. discriminate.
Qed.

(** X13.  A letter sets the current edge to its character code and leaves
    every other edge unchanged, in both revisions. *)
Theorem letter_sets_edge (i : nat) (c : ascii) (m : machine) :
  isalpha (char_code c) = true ->
  store_ok (store m) ->
  exists s,
    Src.exec i c m = Running (set_store m s)
    /\ Root.exec i c m = Running (set_store m s)
    /\ deref s (MP_edge m) = char_code c
    /\ forall e, 0 <= fst e -> e <> MP_edge m -> deref s e = deref (store m) e.
Proof.
  intros Ha Hok.
  destruct (write_current_edge m (fun _ => char_code c) Hok) as (s & Hs & Hval & Hframe & _).
  exists s.
  assert (HSrc : Src.exec i c m = Running (set_store m s)).
  { unfold Src.exec. rewrite Ha. rewrite <- Hs.
    destruct (current_edge m). reflexivity. }
  assert (HRoot : Root.exec i c m = Running (set_store m s)).
  { unfold Root.exec. rewrite Ha. rewrite <- Hs.
    destruct (current_edge m). reflexivity. }
  split; [exact HSrc | split; [exact HRoot | split; [| exact Hframe]]].
  rewrite Hval. apply wrap_int_small.
  unfold isalpha in Ha. unfold int_range. lia.
Qed.

Lemma unary_arm (i : nat) (c : ascii) (v : int -> long) (m : machine) :
  store_ok (store m) ->
  Src.exec i c m
  = (let '(edge, m1) := current_edge m in
     Running (set_store m1 (assign (store m1) edge (v (deref (store m1) edge))))) ->
  exists s,
    Src.exec i c m = Running (set_store m s)
    /\ deref s (MP_edge m) = wrap_int (v (deref (store m) (MP_edge m)))
    /\ (forall e, 0 <= fst e -> e <> MP_edge m -> deref s e = deref (store m) e)
    /\ store_ok s.
Proof.
  intros Hok Harm.
  destruct (write_current_edge m v Hok) as (s & Hs & Hrest).
  exists s. split; [| exact Hrest].
  rewrite Harm, <- Hs. destruct (current_edge m). reflexivity.
Qed.

Lemma MP_edge_set_store (m : machine) (s : memory_store) :
  MP_edge (set_store m s) = MP_edge m.
Proof. reflexivity. Qed.

(** X14.  The closing parenthesis adds one to the current edge and the
    opening one subtracts one, with 32-bit wrap-around: the largest [int]
    becomes the smallest and back.  A decrement after an increment restores
    the edge. *)
Theorem increment_decrement_wrap (i : nat) (m : machine) :
  store_ok (store m) ->
  int_range (deref (store m) (MP_edge m)) ->
  exists s1 s2 s3,
    Src.exec i ")"%char m = Running (set_store m s1)
    /\ deref s1 (MP_edge m) = wrap_int (deref (store m) (MP_edge m) + 1)
    /\ (deref (store m) (MP_edge m) = 2 ^ 31 - 1 -> deref s1 (MP_edge m) = - 2 ^ 31)
    /\ Src.exec i "("%char (set_store m s1) = Running (set_store m s2)
    /\ deref s2 (MP_edge m) = deref (store m) (MP_edge m)
    /\ Src.exec i "("%char m = Running (set_store m s3)
    /\ deref s3 (MP_edge m) = wrap_int (deref (store m) (MP_edge m) - 1)
    /\ (deref (store m) (MP_edge m) = - 2 ^ 31 -> deref s3 (MP_edge m) = 2 ^ 31 - 1).
Proof.
  intros Hok Hrange.
  destruct (unary_arm i ")"%char (fun e => e + 1) m Hok eq_refl) as (s1 & H1 & V1 & _ & Hok1).
  destruct (unary_arm i "("%char (fun e => e - 1) (set_store m s1) Hok1 eq_refl)
    as (s2 & H2 & V2 & _ & _).
  destruct (unary_arm i "("%char (fun e => e - 1) m Hok eq_refl) as (s3 & H3 & V3 & _ & _).
  exists s1, s2, s3. cbn [store set_store] in *. rewrite MP_edge_set_store in V2.
  split; [exact H1 | split; [exact V1 | split; [| split; [exact H2 | split; [| split; [exact H3 | split; [exact V3 |]]]]]]].
  - intros He. rewrite V1, He. reflexivity.
  - rewrite V2, V1. unfold wrap_int, int_range in *.
    destruct (Z.eq_dec (deref (store m) (MP_edge m)) (2 ^ 31 - 1)) as [-> | Hne];
      [reflexivity |].
    rewrite (Z.mod_small (deref (store m) (MP_edge m) + 1 + 2 ^ 31)) by lia.
    rewrite Z.mod_small by lia. lia.
  - intros He. rewrite V3, He. reflexivity.
Qed.

(** X15.  The tilde negates the current edge with 32-bit wrap-around: the
    smallest [int] is its own opposite.  Two negations restore the edge. *)
Theorem negate_twice (i : nat) (m : machine) :
  store_ok (store m) ->
  int_range (deref (store m) (MP_edge m)) ->
  exists s1 s2,
    Src.exec i "~"%char m = Running (set_store m s1)
    /\ deref s1 (MP_edge m) = wrap_int (- deref (store m) (MP_edge m))
    /\ (deref (store m) (MP_edge m) = - 2 ^ 31 -> deref s1 (MP_edge m) = - 2 ^ 31)
    /\ Src.exec i "~"%char (set_store m s1) = Running (set_store m s2)
    /\ deref s2 (MP_edge m) = deref (store m) (MP_edge m).
Proof.
  intros Hok Hrange.
  destruct (unary_arm i "~"%char (fun e => e * -1) m Hok eq_refl) as (s1 & H1 & V1 & _ & Hok1).
  destruct (unary_arm i "~"%char (fun e => e * -1) (set_store m s1) Hok1 eq_refl)
    as (s2 & H2 & V2 & _ & _).
  exists s1, s2. cbn [store set_store] in *. rewrite MP_edge_set_store in V2.
  replace (deref (store m) (MP_edge m) * -1) with (- deref (store m) (MP_edge m)) in V1 by lia.
  split; [exact H1 | split; [exact V1 | split; [| split; [exact H2 |]]]].
  - intros He. rewrite V1, He. reflexivity.
  - rewrite V2, V1. unfold wrap_int, int_range in *.
    destruct (Z.eq_dec (deref (store m) (MP_edge m)) (- 2 ^ 31)) as [-> | Hne];
      [reflexivity |].
    rewrite (Z.mod_small (- deref (store m) (MP_edge m) + 2 ^ 31)) by lia.
    replace ((- deref (store m) (MP_edge m) + 2 ^ 31 - 2 ^ 31) * -1 + 2 ^ 31)
      with (deref (store m) (MP_edge m) + 2 ^ 31) by lia.
    rewrite Z.mod_small by lia. lia.
Qed.

(** X18.  The comma stores the next byte of the input in the current edge
    and consumes it; at the end of the input it stores -1.  Every other
    edge is unchanged, in both revisions. *)
Theorem read_byte (i : nat) (m : machine) :
  store_ok (store m) ->
  exists s,
    Src.exec i ","%char m = Running (set_stdin (set_store m s) (tl (stdin m)))
    /\ Root.exec i ","%char m = Running (set_stdin (set_store m s) (tl (stdin m)))
    /\ (stdin m = [] -> deref s (MP_edge m) = -1)
    /\ (forall b rest, stdin m = b :: rest -> 0 <= b <= 255 -> deref s (MP_edge m) = b)
    /\ forall e, 0 <= fst e -> e <> MP_edge m -> deref s e = deref (store m) e.
Proof.
  intros Hok.
  destruct (write_current_edge m (fun _ => fst (getchar (stdin m))) Hok)
    as (s & Hs & Hval & Hframe & _).
  exists s.
  assert (HSrc : Src.exec i ","%char m = Running (set_stdin (set_store m s) (tl (stdin m)))).
  { change (Src.exec i ","%char m)
      with (let '(edge, m1) := current_edge m in
            let '(ch, rest) := getchar (stdin m1) in
            Running (set_stdin (set_store m1 (assign (store m1) edge ch)) rest)).
    rewrite <- Hs.
    destruct (current_edge_spec m Hok) as (_ & Hm & _).
    destruct (current_edge m) as [edge m1]. cbn [snd] in Hm.
    assert (Hin : stdin m1 = stdin m) by (rewrite Hm; reflexivity).
    rewrite Hin. destruct (stdin m); reflexivity. }
  split; [exact HSrc | split; [| split; [| split; [| exact Hframe]]]].
  - rewrite exec_revisions;
      [exact HSrc | reflexivity | discriminate | discriminate | discriminate
      | left; reflexivity].
  - intros Hin. rewrite Hval, Hin. reflexivity.
  - intros b rest Hin Hb. rewrite Hval, Hin. cbn [getchar fst].
    apply wrap_int_small. unfold int_range. lia.
Qed.

Lemma skip_to_number_none (input : list int) :
  Forall (fun b => isdigit b = false /\ b <> 43 /\ b <> 45) input ->
  skip_to_number input = (EOF, []).
Proof.
  induction input as [| b rest IH]; intros H; cbn [skip_to_number]; [reflexivity |].
  apply Forall_cons in H. destruct H as [(Hd & Hp & Hm) Hrest].
  rewrite Hd. destruct (Z.eqb_spec b 43); [contradiction |].
  destruct (Z.eqb_spec b 45); [contradiction |]. cbn [negb andb]. apply IH. exact Hrest.
Qed.

(** X19.  When the rest of the input holds no digit and no sign, the
    question mark consumes it all and stores 0 in the current edge; every
    other edge is unchanged, in both revisions. *)
Theorem read_number_at_end (i : nat) (m : machine) :
  store_ok (store m) ->
  Forall (fun b => isdigit b = false /\ b <> 43 /\ b <> 45) (stdin m) ->
  exists s,
    Src.exec i "?"%char m = Running (set_stdin (set_store m s) [])
    /\ Root.exec i "?"%char m = Running (set_stdin (set_store m s) [])
    /\ deref s (MP_edge m) = 0
    /\ forall e, 0 <= fst e -> e <> MP_edge m -> deref s e = deref (store m) e.
Proof.
  intros Hok Hin.
  destruct (write_current_edge m (fun _ => 0) Hok) as (s & Hs & Hval & Hframe & _).
  exists s.
  assert (HSrc : Src.exec i "?"%char m = Running (set_stdin (set_store m s) [])).
  { change (Src.exec i "?"%char m)
      with (let '(ch, rest) := skip_to_number (stdin m) in
            let '(edge, m1) := current_edge m in
            let m2 := set_store m1 (assign (store m1) edge 0) in
            if ch =? EOF then Running (set_stdin m2 rest)
            else
              match scanf_d (ch :: rest) with
              | (Some v, rest) =>
                  Running (set_stdin (set_store m2 (assign (store m2) edge v)) rest)
              | (None, rest) => Running (set_stdin m2 rest)
              end).
    rewrite (skip_to_number_none _ Hin), <- Hs.
    destruct (current_edge m) as [edge m1]. reflexivity. }
  split; [exact HSrc | split; [| split; [| exact Hframe]]].
  - rewrite exec_revisions;
      [exact HSrc | reflexivity | discriminate | discriminate | discriminate
      | left; reflexivity].
  - rewrite Hval. reflexivity.
Qed.

(** X20.  The semicolon writes one byte, the current edge modulo 256 taken in
    0..255 also for a negative edge, and changes no edge, in both
    revisions. *)
Theorem write_byte (i : nat) (m : machine) :
  store_ok (store m) ->
  exists s b,
    Src.exec i ";"%char m = Running (set_stdout (set_store m s) (stdout m ++ [Putc b]))
    /\ Root.exec i ";"%char m = Running (set_stdout (set_store m s) (stdout m ++ [Putc b]))
    /\ 0 <= b <= 255
    /\ b = deref (store m) (MP_edge m) mod 256
    /\ forall e, deref s e = deref (store m) e.
Proof.
  intros Hok.
  destruct (current_edge_spec m Hok) as (Hedge & Hm & _ & Hderef & _).
  assert (HSrc : Src.exec i ";"%char m
                 = Running (set_stdout (set_store m (store (snd (current_edge m))))
                              (stdout m ++ [Putc (deref (store m) (MP_edge m) mod 256)]))).
  { change (Src.exec i ";"%char m)
      with (let '(edge, m1) := current_edge m in
            Running (set_stdout m1 (stdout m1 ++ [Putc (modulo (deref (store m1) edge) 256)]))).
    destruct (current_edge m) as [edge m1]. cbn [fst snd] in *. subst edge.
    rewrite modulo_mod, Hderef by lia.
    transitivity (Running (set_stdout (set_store m (store m1))
                             (stdout (set_store m (store m1))
                              ++ [Putc (deref (store m) (MP_edge m) mod 256)])));
      [do 2 f_equal; [exact Hm | f_equal; exact (f_equal stdout Hm)] | reflexivity]. }
  exists (store (snd (current_edge m))), (deref (store m) (MP_edge m) mod 256).
  split; [exact HSrc | split; [| split; [| split; [reflexivity | exact Hderef]]]].
  - rewrite exec_revisions;
      [exact HSrc | reflexivity | discriminate | discriminate | discriminate
      | left; reflexivity].
  - pose proof (Z.mod_pos_bound (deref (store m) (MP_edge m)) 256). lia.
Qed.

Lemma set_store_same (m : machine) : set_store m (store m) = m.
Proof. destruct m. reflexivity. Qed.

(** The current edge, when its cell is allocated. *)
Lemma current_edge_allocated (m : machine) :
  store_ok (store m) -> allocated (store m) (MP m) -> current_edge m = (MP_edge m, m).
Proof.
  intros Hok Hin. unfold current_edge.
  rewrite (get_memory_edge_allocated _ _ Hok Hin), set_store_same. reflexivity.
Qed.




Lemma quot_in_range (L R : long) :
  int_range L -> int_range R -> R <> 0 -> ~ (L = - 2 ^ 31 /\ R = -1) ->
  int_range (Z.quot L R) /\ int_range (Z.rem L R).
Proof.
  unfold int_range. intros HL HR Hnz Hov.
  pose proof (Z.quot_rem' L R) as Hqr.
  pose proof (Z.rem_bound_abs L R Hnz) as Hrem.
  assert (Hq : Z.abs (Z.quot L R) <= Z.abs L).
  { destruct (Z.eq_dec L 0) as [-> | HL0]; [rewrite Z.quot_0_l by exact Hnz; lia |].
    rewrite <- Z.quot_abs by exact Hnz.
    apply Z.quot_le_upper_bound; [lia |]. nia. }
  split; [| lia].
  destruct (Z.eq_dec R (-1)) as [-> | HR1].
  - assert (Z.quot L (-1) = - L).
    { replace (-1) with (- (1)) by reflexivity. rewrite Z.quot_opp_r, Z.quot_1_r; lia. }
    lia.
  - destruct (Z.eq_dec L (- 2 ^ 31)) as [-> | HLmin]; [| lia].
    destruct (Z.eq_dec R 1) as [-> | HR2]; [rewrite Z.quot_1_r; lia |].
    assert (Z.abs (Z.quot (- 2 ^ 31) R) < 2 ^ 31); [| lia].
    rewrite <- Z.quot_abs by exact Hnz.
    apply Z.quot_lt_upper_bound; [lia | lia |]. nia.
Qed.

(** The division the machine can do, and the one on which it traps. *)
Lemma divide_defined (L R : long) :
  R <> 0 -> ~ (L = - 2 ^ 31 /\ R = -1) ->
  divide L R = Some (Z.quot L R) /\ remainder L R = Some (Z.rem L R).
Proof.
  intros Hnz Hov. unfold divide, remainder.
  destruct (Z.eqb_spec R 0); [contradiction |].
  destruct (Z.eqb_spec L (- 2 ^ 31)), (Z.eqb_spec R (-1)); cbn; try (split; reflexivity).
  exfalso. apply Hov. split; assumption.
Qed.

Lemma divide_traps (L R : long) :
  R = 0 \/ (L = - 2 ^ 31 /\ R = -1) -> divide L R = None /\ remainder L R = None.
Proof.
  intros [-> | [-> ->]]; unfold divide, remainder; cbn.
  - split; reflexivity.
  - split; reflexivity.
Qed.

(** What [:] and [%] do in the machine [m] with the instruction dispatch
    [exec], on the left neighbour [L] and the right neighbour [R]. *)
Lemma divide_spec (exec : nat -> ascii -> machine -> outcome)
    (arith : (int -> int -> option long) -> machine -> outcome)
    (i : nat) (m : machine) (L R : long) :
  exec i ":"%char m = arith divide m ->
  exec i "%"%char m = arith remainder m ->
  (forall op, arith op m
              = match op L R with
                | Some v => Running (set_store m (assign (store m) (MP_edge m) v))
                | None => Trap
                end) ->
  store_ok (store m) -> allocated (store m) (MP m) ->
  (R <> 0 -> ~ (L = - 2 ^ 31 /\ R = -1) ->
   sets_edge (exec i ":"%char m) m (Z.quot L R)
   /\ sets_edge (exec i "%"%char m) m (Z.rem L R)
   /\ L = R * Z.quot L R + Z.rem L R
   /\ Z.abs (Z.rem L R) < Z.abs R
   /\ 0 <= Z.rem L R * L
   /\ (int_range L -> int_range R -> int_range (Z.quot L R) /\ int_range (Z.rem L R)))
  /\ (R = 0 \/ (L = - 2 ^ 31 /\ R = -1) ->
      exec i ":"%char m = Trap /\ exec i "%"%char m = Trap).
Proof.
  intros -> -> Harith Hok Hin. rewrite !Harith. split.
  - intros Hnz Hov. destruct (divide_defined L R Hnz Hov) as [-> ->].
    split; [apply sets_edge_assign; assumption |].
    split; [apply sets_edge_assign; assumption |].
    split; [apply Z.quot_rem' |].
    split; [apply Z.rem_bound_abs; exact Hnz |].
    split; [apply Z.rem_sign_mul; exact Hnz |].
    intros HL HR. apply quot_in_range; assumption.
  - intros Htrap. destruct (divide_traps L R Htrap) as [-> ->]. split; reflexivity.
Qed.

(** X17.  When the cell of the current edge and the cells of its two
    neighbours are inside the array: with a right neighbour [R] that is not zero,
    and not [-1] under the smallest [int], the colon stores the quotient
    [q] and the percent sign the remainder [r] of the left neighbour [L] by
    [R], truncated toward zero ([L = R * q + r], [|r| < |R|], [r] has the
    sign of [L]; both are in the range of [int] when [L] and [R] are), and
    every other edge is unchanged; with a right neighbour that is zero, or
    [-1] under the smallest [int], the division traps.  This holds in both
    revisions, each with its own [get_neighbor]. *)
Theorem divide_neighbours (i : nat) (m : machine) :
  store_ok (store m) ->
  (let L := deref (store m) (neighbor_edge m LEFT) in
   let R := deref (store m) (neighbor_edge m RIGHT) in
   neighbours_in_array neighbor_edge m ->
   (R <> 0 -> ~ (L = - 2 ^ 31 /\ R = -1) ->
    sets_edge (Src.exec i ":"%char m) m (Z.quot L R)
    /\ sets_edge (Src.exec i "%"%char m) m (Z.rem L R)
    /\ L = R * Z.quot L R + Z.rem L R
    /\ Z.abs (Z.rem L R) < Z.abs R
    /\ 0 <= Z.rem L R * L
    /\ (int_range L -> int_range R -> int_range (Z.quot L R) /\ int_range (Z.rem L R)))
   /\ (R = 0 \/ (L = - 2 ^ 31 /\ R = -1) ->
       Src.exec i ":"%char m = Trap /\ Src.exec i "%"%char m = Trap))
  /\ (let L := deref (store m) (Root_neighbor_edge m LEFT) in
      let R := deref (store m) (Root_neighbor_edge m RIGHT) in
      neighbours_in_array Root_neighbor_edge m ->
      (R <> 0 -> ~ (L = - 2 ^ 31 /\ R = -1) ->
       sets_edge (Root.exec i ":"%char m) m (Z.quot L R)
       /\ sets_edge (Root.exec i "%"%char m) m (Z.rem L R)
       /\ L = R * Z.quot L R + Z.rem L R
       /\ Z.abs (Z.rem L R) < Z.abs R
       /\ 0 <= Z.rem L R * L
       /\ (int_range L -> int_range R -> int_range (Z.quot L R) /\ int_range (Z.rem L R)))
      /\ (R = 0 \/ (L = - 2 ^ 31 /\ R = -1) ->
          Root.exec i ":"%char m = Trap /\ Root.exec i "%"%char m = Trap)).
Proof.
  intros Hok. cbv zeta. destruct (neighbours_in_array_allocated m Hok) as [-> ->].
  split; intros Hin.
  - apply (divide_spec Src.exec Src.arith); try reflexivity; [| exact Hok | apply Hin].
    intros op. apply Src_arith_spec; assumption.
  - apply (divide_spec Root.exec Root.arith); try reflexivity; [| exact Hok | apply Hin].
    intros op. apply Root_arith_spec; assumption.
Qed.

Lemma set_IP_index_back (m : machine) (a : int) :
  set_IP_index (set_IP_index m a) (IP_index m) = m.
Proof. destruct m. reflexivity. Qed.

(** X21.  With the active index in 0..5, the two brackets undo each other in
    either order: the machine is exactly the one before.  This holds in both
    revisions. *)
Theorem brackets_inverse (i : nat) (m : machine) :
  0 <= IP_index m <= 5 ->
  (exists m1, Src.exec i "["%char m = Running m1 /\ Src.exec i "]"%char m1 = Running m)
  /\ (exists m1, Src.exec i "]"%char m = Running m1 /\ Src.exec i "["%char m1 = Running m)
  /\ (exists m1, Root.exec i "["%char m = Running m1 /\ Root.exec i "]"%char m1 = Running m)
  /\ (exists m1, Root.exec i "]"%char m = Running m1 /\ Root.exec i "["%char m1 = Running m).
Proof.
  intros Hi.
  assert (Hdown : ((IP_index m - 1) mod 6 + 1) mod 6 = IP_index m).
  { rewrite Zplus_mod_idemp_l. replace (IP_index m - 1 + 1) with (IP_index m) by lia.
    apply Z.mod_small. lia. }
  assert (Hup : ((IP_index m + 1) mod 6 - 1) mod 6 = IP_index m).
  { rewrite Zminus_mod_idemp_l. replace (IP_index m + 1 - 1) with (IP_index m) by lia.
    apply Z.mod_small. lia. }
  assert (Hback : forall a b, (a mod 6 + b) mod 6 = IP_index m ->
            set_IP_index (set_IP_index m (modulo a 6))
              (modulo (IP_index (set_IP_index m (modulo a 6)) + b) 6) = m).
  { intros a b H. cbn [IP_index set_IP_index]. rewrite !modulo_mod by lia.
    rewrite H. apply set_IP_index_back. }
  split; [| split; [| split]]; eexists; (split; [reflexivity |]).
  - rewrite Src_exec_right_bracket. f_equal. apply (Hback (IP_index m - 1) 1). exact Hdown.
  - rewrite Src_exec_left_bracket. f_equal. apply (Hback (IP_index m + 1) (-1)). exact Hup.
  - rewrite Root_exec_right_bracket. f_equal. apply (Hback (IP_index m + 1) (-1)). exact Hup.
  - rewrite Root_exec_left_bracket. f_equal. apply (Hback (IP_index m - 1) 1). exact Hdown.
Qed.

Lemma alter_fixed {A : Type} (f : A -> A) (i : nat) (l : list A) :
  (forall x, l !! i = Some x -> f x = x) -> alter f i l = l.
Proof.
  intros Hf. apply list_eq. intros j.
  destruct (Nat.eq_dec i j) as [<- | Hne].
  - rewrite list_lookup_alter_eq. destruct (l !! i) as [x |] eqn:Hx; [| reflexivity].
    cbn. rewrite (Hf x eq_refl). reflexivity.
  - rewrite list_lookup_alter_ne by exact Hne. reflexivity.
Qed.

Lemma set_IPs_back (m : machine) (l : list IP) : set_IPs (set_IPs m l) (IPs m) = m.
Proof. destruct m. reflexivity. Qed.

Lemma mirror_twice (mirror : direction -> direction) (i : nat) (m : machine) :
  (forall d, mirror (mirror d) = d) ->
  let m1 := set_IPs m (alter (set_direction (mirror (ip_direction (IP_at m i)))) i (IPs m)) in
  set_IPs m1 (alter (set_direction (mirror (ip_direction (IP_at m1 i)))) i (IPs m1)) = m.
Proof.
  intros Hinv m1.
  transitivity (set_IPs m1 (IPs m)); [f_equal | apply set_IPs_back].
  unfold IP_at, m1. cbn [IPs set_IPs]. rewrite list_lookup_alter_eq.
  rewrite list_alter_alter_eq. apply alter_fixed.
  intros ip Hip. unfold IP_at. rewrite Hip. cbn. rewrite Hinv. destruct ip. reflexivity.
Qed.

(** X22.  Each of the four mirrors is an involution on directions: the same
    mirror executed twice by an IP leaves the machine as it was.  The two
    revisions have the same mirrors. *)
Theorem mirrors_involutive (i : nat) (m : machine) :
  (forall d, mirror_slash (mirror_slash d) = d
             /\ mirror_backslash (mirror_backslash d) = d
             /\ mirror_underscore (mirror_underscore d) = d
             /\ mirror_bar (mirror_bar d) = d)
  /\ (exists m1, Src.exec i "/"%char m = Running m1 /\ Src.exec i "/"%char m1 = Running m)
  /\ (exists m1, Src.exec i "\"%char m = Running m1 /\ Src.exec i "\"%char m1 = Running m)
  /\ (exists m1, Src.exec i "_"%char m = Running m1 /\ Src.exec i "_"%char m1 = Running m)
  /\ (exists m1, Src.exec i "|"%char m = Running m1 /\ Src.exec i "|"%char m1 = Running m)
  /\ (forall c, c = "/"%char \/ c = "\"%char \/ c = "_"%char \/ c = "|"%char ->
                Root.exec i c m = Src.exec i c m).
Proof.
  assert (H1 : forall d, mirror_slash (mirror_slash d) = d) by (intros []; reflexivity).
  assert (H2 : forall d, mirror_backslash (mirror_backslash d) = d) by (intros []; reflexivity).
  assert (H3 : forall d, mirror_underscore (mirror_underscore d) = d) by (intros []; reflexivity).
  assert (H4 : forall d, mirror_bar (mirror_bar d) = d) by (intros []; reflexivity).
  split; [intros d; repeat split; auto |].
  split; [eexists; split; [reflexivity | exact (f_equal Running (mirror_twice _ i m H1))] |].
  split; [eexists; split; [reflexivity | exact (f_equal Running (mirror_twice _ i m H2))] |].
  split; [eexists; split; [reflexivity | exact (f_equal Running (mirror_twice _ i m H3))] |].
  split; [eexists; split; [reflexivity | exact (f_equal Running (mirror_twice _ i m H4))] |].
  intros c [-> | [-> | [-> | ->]]]; reflexivity.
Qed.


(** ** Advancing and skipping *)

Lemma choose_reflection_frame (np nq nr : long) (m : machine) :
  store_ok (store m) ->
  exists s,
    snd (choose_reflection np nq nr m) = set_store m s
    /\ forall e, deref s e = deref (store m) e.
Proof.
  intros Hok. unfold choose_reflection.
  destruct (current_edge_spec m Hok) as (_ & Hset & _ & Hderef & _).
  destruct (current_edge m) as [e m0]. cbn [snd] in Hset, Hderef.
  repeat match goal with
    | |- context [if ?b then _ else _] => destruct b
    end; cbn [snd];
    first [ exists (store m0); split; [exact Hset | exact Hderef]
          | exists (store m); split; [symmetry; apply set_store_same | reflexivity] ].
Qed.

Lemma step_norm (p q : long) (d : direction) :
  Z.abs (p + fst (direction_offset d)) + Z.abs (q + snd (direction_offset d))
  + Z.abs (- (p + fst (direction_offset d)) - (q + snd (direction_offset d)))
  <= Z.abs p + Z.abs q + Z.abs (- p - q) + 2.
Proof. destruct d; cbn [direction_offset fst snd]; lia. Qed.

Lemma advance_spec (i : nat) (m : machine) :
  machine_ok m -> (i < 6)%nat ->
  let R := program_rings m in
  let np := ip_p (IP_at m i) + fst (direction_offset (ip_direction (IP_at m i))) in
  let nq := ip_q (IP_at m i) + snd (direction_offset (ip_direction (IP_at m i))) in
  exists m' p' q',
    advance i m = Some m'
    /\ IPs m' = alter (set_position p' q') i (IPs m)
    /\ inside p' q' R
    /\ ((inside np nq R /\ p' = np /\ q' = nq)
        \/ (~ inside np nq R
            /\ mem_ring (ip_p (IP_at m i)) (ip_q (IP_at m i)) = R - 1
            /\ mem_ring p' q' = R - 1))
    /\ MP m' = MP m /\ IP_index m' = IP_index m
    /\ stdin m' = stdin m /\ stdout m' = stdout m
    /\ program m' = program m /\ program_rings m' = program_rings m
    /\ forall e, deref (store m') e = deref (store m) e.
Proof.
  intros Hm Hi R np nq. destruct (lookup_IP_at m i Hm Hi) as [_ Hin].
  unfold IP_inside, inside in Hin. fold R in Hin.
  pose proof (step_norm (ip_p (IP_at m i)) (ip_q (IP_at m i)) (ip_direction (IP_at m i)))
    as Hstep. fold np nq in Hstep.
  pose proof (mem_ring_double (ip_p (IP_at m i)) (ip_q (IP_at m i))) as Hring.
  unfold advance. fold np nq R.
  destruct (Z.geb_spec (Z.abs np + Z.abs nq + Z.abs (- np - nq)) (2 * R)) as [Hout | Hstay].
  - destruct (choose_reflection_safe np nq m Hm) as (a & Ha & _).
    destruct (choose_reflection_frame np nq (- np - nq) m (machine_ok_store m Hm))
      as (s & Hs & Hderef).
    destruct (choose_reflection np nq (- np - nq) m) as [o m1].
    cbn [fst snd] in *. subst o m1.
    assert (Hnot : ~ inside np nq R) by (unfold inside; lia).
    destruct a; eexists; eexists; eexists;
      (split; [reflexivity |]); (split; [reflexivity |]);
      (split; [unfold inside; lia |]);
      (split; [right; split; [exact Hnot | split; [lia |]] |]);
      try (repeat split; try reflexivity; exact Hderef).
    + pose proof (mem_ring_double (- ip_p (IP_at m i)) (ip_p (IP_at m i) + ip_q (IP_at m i))). lia.
    + pose proof (mem_ring_double (ip_p (IP_at m i) + ip_q (IP_at m i)) (- ip_q (IP_at m i))). lia.
    + pose proof (mem_ring_double (- ip_q (IP_at m i)) (- ip_p (IP_at m i))). lia.
  - assert (Hnew : inside np nq R) by (apply inside_even_bound; exact Hstay).
    exists (set_IPs m (alter (set_position np nq) i (IPs m))), np, nq.
    split; [reflexivity | split; [reflexivity | split; [exact Hnew |]]].
    split; [left; repeat split; assumption |].
    repeat split; reflexivity.
Qed.

Lemma IP_at_alter (m : machine) (f : IP -> IP) (i : nat) :
  IPs m !! i = Some (IP_at m i) ->
  IP_at (set_IPs m (alter f i (IPs m))) i = f (IP_at m i).
Proof.
  intros Hip. unfold IP_at at 1. cbn [IPs set_IPs].
  rewrite list_lookup_alter_eq, Hip. reflexivity.
Qed.

(** X12.  The dollar sign sets [ignore_next] of the executing IP and changes
    nothing else.  An iteration whose active IP has the flag set dispatches
    no instruction: it clears the flag and advances the IP; the memory
    pointer, the active index, the streams and every edge value are
    unchanged.  Both revisions agree. *)
Theorem skip_one_instruction (m : machine) :
  machine_ok m ->
  let i := Z.to_nat (IP_index m) in
  (exists m1,
      Src.exec i "$"%char m = Running m1
      /\ Root.exec i "$"%char m = Running m1
      /\ ignore_next (IP_at m1 i) = true
      /\ ip_p (IP_at m1 i) = ip_p (IP_at m i) /\ ip_q (IP_at m1 i) = ip_q (IP_at m i)
      /\ ip_direction (IP_at m1 i) = ip_direction (IP_at m i)
      /\ store m1 = store m /\ MP m1 = MP m /\ IP_index m1 = IP_index m)
  /\ (ignore_next (IP_at m i) = true ->
      exists m',
        Src.step m = Running m'
        /\ Root.step m = Running m'
        /\ ignore_next (IP_at m' i) = false
        /\ MP m' = MP m /\ IP_index m' = IP_index m
        /\ stdin m' = stdin m /\ stdout m' = stdout m
        /\ forall e, deref (store m') e = deref (store m) e).
Proof.
  intros Hm i.
  assert (Hi : (i < 6)%nat) by (destruct Hm as (_ & _ & _ & _ & Hi & _); unfold i; lia).
  destruct (lookup_IP_at m i Hm Hi) as [Hip _].
  split.
  - exists (set_IPs m (alter (set_ignore_next true) i (IPs m))).
    split; [reflexivity | split; [reflexivity |]].
    rewrite (IP_at_alter m _ i Hip). repeat split.
  - intros Hflag.
    set (m0 := set_IPs m (alter (set_ignore_next false) i (IPs m))).
    assert (Hm0 : machine_ok m0).
    { apply machine_ok_redirect; [intros ?; split; reflexivity | exact Hm]. }
    destruct (advance_spec i m0 Hm0 Hi)
      as (m' & p' & q' & Hadv & HIPs & _ & _ & HMP & Hidx & Hin & Hout & _ & _ & Hderef).
    exists m'.
    assert (HSrc : Src.step m = Running m').
    { unfold Src.step. fold i. rewrite Hflag. fold m0. rewrite Hadv. reflexivity. }
    assert (HRoot : Root.step m = Running m').
    { unfold Root.step. fold i. rewrite Hflag. fold m0. rewrite Hadv. reflexivity. }
    split; [exact HSrc | split; [exact HRoot | split]].
    + unfold IP_at at 1. rewrite HIPs. unfold m0. cbn [IPs set_IPs].
      rewrite !list_lookup_alter_eq, Hip. reflexivity.
    + repeat split; assumption.
Qed.

(** ** Programs without breakpoints *)















(** X11.  At startup the active IP is IP 0, it heads east and stands on
    cell 0 of the program array: the first instruction fetched is the first
    byte of the source that is neither a backtick nor white space, or [.]
    when the source has none.  Both revisions start with the same IPs and
    program. *)
Theorem startup_first_cell (source : list ascii) (input : list int) :
  let m := Src.startup source input in
  IP_index m = 0
  /\ axial_to_index (ip_p (IP_at m 0)) (ip_q (IP_at m 0)) (program_rings m) = 0
  /\ ip_direction (IP_at m 0) = E
  /\ value <$> (program m !! 0%nat) = Some (hd "."%char (instruction_chars source))
  /\ IPs (Root.startup source input) = IPs m
  /\ program (Root.startup source input) = program m.
Proof.
  unfold Src.startup, Root.startup.
  pose proof (load_program_fit source) as [(HR & Hle & _) Hlen].
  pose proof (load_program_values_eq source) as Hval.
  destruct (load_program source) as [cells R]. cbn [fst snd] in *.
  cbn [IP_index IPs program program_rings IP_at initial_IPs].
  split; [reflexivity | split; [| split; [reflexivity | split; [| split; reflexivity]]]].
  - unfold IP_at. cbn. apply axial_to_index_first. exact HR.
  - destruct cells as [| cell cells'].
    + cbn in Hlen. pose proof (hex_size_lower R HR). lia.
    + cbn [lookup]. cbn. cbn [map] in Hval.
      destruct (instruction_chars source) as [| c rest].
      * cbn [app length] in Hval. 
        destruct (Z.to_nat (hex_size R) - 0)%nat; cbn in Hval; [discriminate |].
        injection Hval as -> _. reflexivity.
      * injection Hval as -> _. reflexivity.
Qed.

(** ** Further statements and instances *)

(** Evaluate a closed goal. *)
Ltac eval_goal := vm_compute; repeat constructor; try discriminate.

(** X4.  The program array is filled row by row: inside the hexagon a step
    to the east leads to the next index, and the corner where IP 0 starts,
    [(0, -(R - 1))], has index 0. *)
Theorem axial_to_index_row_major (p q R : long) :
  inside p q R -> inside (p - 1) (q + 1) R ->
  axial_to_index (p - 1) (q + 1) R = axial_to_index p q R + 1
  /\ axial_to_index 0 (- (R - 1)) R = 0.
Proof.
  intros Hin Hin'. split.
  - apply axial_to_index_east_step; assumption.
  - apply axial_to_index_first. unfold inside in Hin. lia.
Qed.

(** X5.  The loader returns an array of exactly [H(R)] cells for the ring
    count [R] it returns, and [R] is the least ring count, at least 1, whose
    hexagon holds the instruction bytes of the source. *)
Theorem load_program_shape (source : list ascii) :
  rings_fit (length (instruction_chars source)) (snd (load_program source))
  /\ Z.of_nat (length (fst (load_program source))) = hex_size (snd (load_program source)).
Proof. apply load_program_fit. Qed.

(** X6.  The cells of the loaded program hold, in order, the bytes of the
    source that are neither backticks nor white space, followed by [.] up
    to the size of the hexagon. *)
Theorem load_program_values (source : list ascii) :
  map value (fst (load_program source))
  = instruction_chars source
    ++ replicate (Z.to_nat (hex_size (snd (load_program source)))
                  - length (instruction_chars source))%nat "."%char.
Proof. apply load_program_values_eq. Qed.

(** X10.  In a consistent machine, advancing an IP always succeeds and puts
    it on a cell of the program: the neighbour it faces when that cell is
    inside the hexagon; otherwise the IP was on the outermost ring and lands
    on the outermost ring again.  Only the position of that IP changes: the
    other IPs, its direction, the memory pointer, the active index, the
    streams and every edge value stay. *)
Theorem advance_stays_inside (i : nat) (m : machine) :
  machine_ok m -> (i < 6)%nat ->
  let R := program_rings m in
  let np := ip_p (IP_at m i) + fst (direction_offset (ip_direction (IP_at m i))) in
  let nq := ip_q (IP_at m i) + snd (direction_offset (ip_direction (IP_at m i))) in
  exists m' p' q',
    advance i m = Some m'
    /\ IPs m' = alter (set_position p' q') i (IPs m)
    /\ inside p' q' R
    /\ ((inside np nq R /\ p' = np /\ q' = nq)
        \/ (~ inside np nq R
            /\ mem_ring (ip_p (IP_at m i)) (ip_q (IP_at m i)) = R - 1
            /\ mem_ring p' q' = R - 1))
    /\ MP m' = MP m /\ IP_index m' = IP_index m
    /\ stdin m' = stdin m /\ stdout m' = stdout m
    /\ program m' = program m /\ program_rings m' = program_rings m
    /\ forall e, deref (store m') e = deref (store m) e.
Proof. apply advance_spec. Qed.

(** X24.  The two revisions execute an instruction alike when it is neither
    a digit, nor a bracket, nor the hash, and either it does not look to
    the left or the pointer is not on axis [X].  They part on the left
    brace with the pointer outwards on axis [X]: the earlier revision then
    moves to the next cell, the later one stays on its cell. *)
Theorem revisions_agree (i : nat) (c : ascii) (m : machine) :
  isdigit (char_code c) = false ->
  c <> "["%char -> c <> "]"%char -> c <> "#"%char ->
  (looks_left c = false \/ mp_axis (MP m) <> X -> Root.exec i c m = Src.exec i c m)
  /\ (mp_axis (MP m) = X -> mp_direction (MP m) = OUT ->
      Src.exec i "{"%char m
      = Running (set_MP m {| mp_p := mp_p (MP m); mp_q := mp_q (MP m);
                             mp_axis := X; mp_direction := IN |})
      /\ Root.exec i "{"%char m
         = Running (set_MP m {| mp_p := mp_p (MP m) + 1; mp_q := mp_q (MP m);
                                mp_axis := X; mp_direction := IN |})).
Proof.
  intros Hd Hl Hr Hh. split; [apply exec_revisions; assumption |].
  intros Hax Hdir.
  change (Src.exec i "{"%char m) with (Running (set_MP m (Src.move_mp (MP m) LEFT))).
  change (Root.exec i "{"%char m) with (Running (set_MP m (Root.move_mp (MP m) LEFT))).
  destruct (MP m) as [p q a o]. cbn in Hax, Hdir. subst a o. cbn.
  repeat (rewrite neighbor_axis_table; cbn).
  split; do 2 f_equal; f_equal; lia.
Qed.

(** *** Instances *)

Lemma get_memory_cell_in_bounds_witness :
  store_ok initial_store
  /\ fst (get_memory_cell 1 0 initial_store) = axial_to_mem_index 1 0.
Proof.
  assert (H : store_ok initial_store) by eval_goal.
  split; [exact H | apply (get_memory_cell_in_bounds 1 0 initial_store H)].
Defined.

Lemma get_memory_cell_growth_witness :
  store_ok initial_store
  /\ memory_rings (snd (get_memory_cell 2 0 initial_store))
     = Z.max (memory_rings initial_store) (mem_ring 2 0 + 1).
Proof.
  assert (H : store_ok initial_store) by eval_goal.
  split; [exact H | apply (get_memory_cell_growth 2 0 initial_store H)].
Defined.

Lemma axial_to_index_injective_witness :
  inside 0 (-1) 2 /\ inside 0 (-1) 2 /\ (0 = 0 /\ -1 = -1).
Proof.
  assert (H : inside 0 (-1) 2) by eval_goal.
  split; [exact H | split; [exact H |]].
  exact (axial_to_index_injective 0 (-1) 0 (-1) 2 H H eq_refl).
Defined.

Lemma axial_to_index_row_major_witness :
  inside 0 (-1) 2 /\ inside (0 - 1) (-1 + 1) 2
  /\ axial_to_index (0 - 1) (-1 + 1) 2 = axial_to_index 0 (-1) 2 + 1.
Proof.
  assert (H1 : inside 0 (-1) 2) by eval_goal.
  assert (H2 : inside (0 - 1) (-1 + 1) 2) by eval_goal.
  split; [exact H1 | split; [exact H2 |]].
  apply (axial_to_index_row_major 0 (-1) 2 H1 H2).
Defined.

Lemma load_program_no_breakpoint_witness :
  Forall (fun c => char_code c <> 96) (list_ascii_of_string "1!@")
  /\ Forall (fun cell => debug cell = false)
       (fst (load_program (list_ascii_of_string "1!@"))).
Proof.
  assert (H : Forall (fun c => char_code c <> 96) (list_ascii_of_string "1!@"))
    by eval_goal.
  split; [exact H | exact (load_program_no_breakpoint _ H)].
Defined.



Lemma advance_stays_inside_witness :
  machine_ok (Src.startup [] []) /\ (0 < 6)%nat
  /\ exists m', advance 0 (Src.startup [] []) = Some m'.
Proof.
  assert (H1 : machine_ok (Src.startup [] [])) by eval_goal.
  assert (H2 : (0 < 6)%nat) by lia.
  split; [exact H1 | split; [exact H2 |]].
  destruct (advance_stays_inside 0 (Src.startup [] []) H1 H2) as (m' & _ & _ & Hadv & _).
  exists m'. exact Hadv.
Defined.

Lemma skip_one_instruction_witness :
  machine_ok machine_skipping
  /\ ignore_next (IP_at machine_skipping (Z.to_nat (IP_index machine_skipping))) = true
  /\ exists m', Src.step machine_skipping = Running m'
                /\ ignore_next (IP_at m' (Z.to_nat (IP_index machine_skipping))) = false.
Proof.
  assert (H1 : machine_ok machine_skipping) by eval_goal.
  assert (H2 : ignore_next (IP_at machine_skipping (Z.to_nat (IP_index machine_skipping)))
               = true) by reflexivity.
  split; [exact H1 | split; [exact H2 |]].
  destruct (skip_one_instruction machine_skipping H1) as [_ Hskip].
  destruct (Hskip H2) as (m' & Hstep & _ & Hflag & _).
  exists m'. split; [exact Hstep | exact Hflag].
Defined.

Lemma letter_sets_edge_witness :
  isalpha (char_code "H") = true
  /\ store_ok (store (Src.startup [] []))
  /\ exists s, Src.exec 0 "H"%char (Src.startup [] []) = Running (set_store (Src.startup [] []) s)
               /\ deref s (MP_edge (Src.startup [] [])) = 72.
Proof.
  assert (H1 : isalpha (char_code "H") = true) by reflexivity.
  assert (H2 : store_ok (store (Src.startup [] []))) by eval_goal.
  split; [exact H1 | split; [exact H2 |]].
  destruct (letter_sets_edge 0 "H"%char (Src.startup [] []) H1 H2) as (s & HS & _ & Hv & _).
  exists s. split; [exact HS | exact Hv].
Defined.

Lemma increment_decrement_wrap_witness :
  store_ok (store (Src.startup [] []))
  /\ int_range (deref (store (Src.startup [] [])) (MP_edge (Src.startup [] [])))
  /\ exists s, Src.exec 0 ")"%char (Src.startup [] []) = Running (set_store (Src.startup [] []) s)
               /\ deref s (MP_edge (Src.startup [] [])) = 1.
Proof.
  assert (H1 : store_ok (store (Src.startup [] []))) by eval_goal.
  assert (H2 : int_range (deref (store (Src.startup [] [])) (MP_edge (Src.startup [] []))))
    by eval_goal.
  split; [exact H1 | split; [exact H2 |]].
  destruct (increment_decrement_wrap 0 (Src.startup [] []) H1 H2)
    as (s1 & _ & _ & Hexec & Hval & _).
  exists s1. split; [exact Hexec | exact Hval].
Defined.

Lemma negate_twice_witness :
  store_ok (store (after "7" (Src.startup [] [])))
  /\ int_range (deref (store (after "7" (Src.startup [] [])))
                  (MP_edge (after "7" (Src.startup [] []))))
  /\ exists s, Src.exec 0 "~"%char (after "7" (Src.startup [] []))
               = Running (set_store (after "7" (Src.startup [] [])) s)
               /\ deref s (MP_edge (after "7" (Src.startup [] []))) = -7.
Proof.
  assert (H1 : store_ok (store (after "7" (Src.startup [] [])))) by eval_goal.
  assert (H2 : int_range (deref (store (after "7" (Src.startup [] [])))
                            (MP_edge (after "7" (Src.startup [] []))))) by eval_goal.
  split; [exact H1 | split; [exact H2 |]].
  destruct (negate_twice 0 (after "7" (Src.startup [] [])) H1 H2)
    as (s1 & _ & Hexec & Hval & _).
  exists s1. split; [exact Hexec | exact Hval].
Defined.


Lemma divide_neighbours_witness :
  store_ok (store machine_7_2)
  /\ neighbours_in_array neighbor_edge machine_7_2
  /\ exists s, Src.exec 0 ":"%char machine_7_2 = Running (set_store machine_7_2 s)
               /\ deref s (MP_edge machine_7_2) = 3.
Proof.
  assert (H : store_ok (store machine_7_2)) by eval_goal.
  assert (Hin : neighbours_in_array neighbor_edge machine_7_2) by eval_goal.
  split; [exact H | split; [exact Hin |]].
  destruct (divide_neighbours 0 machine_7_2 H) as [Hsrc _].
  destruct (Hsrc Hin) as [Hdiv _].
  assert (H1 : deref (store machine_7_2) (neighbor_edge machine_7_2 RIGHT) <> 0)
    by eval_goal.
  assert (H2 : ~ (deref (store machine_7_2) (neighbor_edge machine_7_2 LEFT) = - 2 ^ 31
                  /\ deref (store machine_7_2) (neighbor_edge machine_7_2 RIGHT) = -1))
    by (intros [K _]; vm_compute in K; discriminate K).
  destruct (Hdiv H1 H2) as ((s & Hexec & Hval & _) & _).
  exists s. split; [exact Hexec | rewrite Hval; reflexivity].
Defined.

Lemma read_byte_witness :
  store_ok (store (Src.startup [] [65]))
  /\ exists s, Src.exec 0 ","%char (Src.startup [] [65])
               = Running (set_stdin (set_store (Src.startup [] [65]) s) []).
Proof.
  assert (H : store_ok (store (Src.startup [] [65]))) by eval_goal.
  split; [exact H |].
  destruct (read_byte 0 (Src.startup [] [65]) H) as (s & Hexec & _).
  exists s. exact Hexec.
Defined.

Lemma read_number_at_end_witness :
  store_ok (store (Src.startup [] [32; 120]))
  /\ Forall (fun b => isdigit b = false /\ b <> 43 /\ b <> 45) (stdin (Src.startup [] [32; 120]))
  /\ exists s, Src.exec 0 "?"%char (Src.startup [] [32; 120])
               = Running (set_stdin (set_store (Src.startup [] [32; 120]) s) []).
Proof.
  assert (H1 : store_ok (store (Src.startup [] [32; 120]))) by eval_goal.
  assert (H2 : Forall (fun b => isdigit b = false /\ b <> 43 /\ b <> 45)
                 (stdin (Src.startup [] [32; 120]))) by eval_goal.
  split; [exact H1 | split; [exact H2 |]].
  destruct (read_number_at_end 0 (Src.startup [] [32; 120]) H1 H2) as (s & Hexec & _).
  exists s. exact Hexec.
Defined.

Lemma write_byte_witness :
  store_ok (store (Src.startup [] []))
  /\ exists s b, Src.exec 0 ";"%char (Src.startup [] [])
                 = Running (set_stdout (set_store (Src.startup [] []) s)
                              (stdout (Src.startup [] []) ++ [Putc b])).
Proof.
  assert (H : store_ok (store (Src.startup [] []))) by eval_goal.
  split; [exact H |].
  destruct (write_byte 0 (Src.startup [] []) H) as (s & b & Hexec & _).
  exists s, b. exact Hexec.
Defined.

Lemma brackets_inverse_witness :
  0 <= IP_index (Src.startup [] []) <= 5
  /\ exists m1, Src.exec 0 "["%char (Src.startup [] []) = Running m1
                /\ Src.exec 0 "]"%char m1 = Running (Src.startup [] []).
Proof.
  assert (H : 0 <= IP_index (Src.startup [] []) <= 5) by eval_goal.
  split; [exact H |].
  destruct (brackets_inverse 0 (Src.startup [] []) H) as [Hdown _]. exact Hdown.
Defined.

Lemma revisions_agree_witness :
  isdigit (char_code "+") = false
  /\ "+"%char <> "["%char /\ "+"%char <> "]"%char /\ "+"%char <> "#"%char
  /\ Root.exec 0 "+"%char (Src.startup [] []) = Src.exec 0 "+"%char (Src.startup [] []).
Proof.
  assert (H1 : isdigit (char_code "+") = false) by reflexivity.
  assert (H2 : "+"%char <> "["%char) by discriminate.
  assert (H3 : "+"%char <> "]"%char) by discriminate.
  assert (H4 : "+"%char <> "#"%char) by discriminate.
  split; [exact H1 | split; [exact H2 | split; [exact H3 | split; [exact H4 |]]]].
  apply (revisions_agree 0 "+"%char (Src.startup [] []) H1 H2 H3 H4).
  right. discriminate.
Defined.

(** The arm of [&] in a machine whose current cell is allocated, with
    [get_neighbor] and [move] for the neighbour functions of the revision
    and [arm] for the outcome of the arm. *)
Lemma ampersand_spec
    (get_neighbor : memory_pointer -> neighbor -> memory_store -> edge_ptr * memory_store)
    (move : memory_pointer -> neighbor -> memory_pointer) (m : machine) :
  (forall ptr side s, get_neighbor ptr side s = get_memory_edge (move ptr side) s) ->
  store_ok (store m) -> allocated (store m) (MP m) ->
  let side := if deref (store m) (MP_edge m) <=? 0 then LEFT else RIGHT in
  let arm :=
    let '(edge, m) := current_edge m in
    let '(n, s) := get_neighbor (MP m) (if deref (store m) edge <=? 0 then LEFT else RIGHT)
                     (store m) in
    if memory_rings s =? memory_rings (store m)
    then Running (set_store m (assign s edge (deref s n)))
    else Stale in
  (allocated (store m) (move (MP m) side) ->
   sets_edge arm m (deref (store m) (pointer_edge (move (MP m) side))))
  /\ (~ allocated (store m) (move (MP m) side) -> arm = Stale).
Proof.
  intros Hnb Hok Hin side arm. subst arm.
  rewrite (current_edge_allocated m Hok Hin). fold side. rewrite Hnb.
  split.
  - intros Hside. rewrite (get_memory_edge_allocated _ _ Hok Hside), Z.eqb_refl.
    apply sets_edge_assign; assumption.
  - intros Hside.
    pose proof (get_memory_edge_rings (move (MP m) side) (store m) Hok) as Hrings.
    destruct (get_memory_edge (move (MP m) side) (store m)) as [n s]. cbn [snd] in Hrings.
    destruct (Z.eqb_spec (memory_rings s) (memory_rings (store m))) as [Heq | _];
      [| reflexivity].
    exfalso. apply Hside. unfold allocated. lia.
Qed.

(** X25.  In a machine whose current cell is inside the array, with [side]
    the left when the current edge is zero or negative and the right when
    it is positive: the ampersand copies the neighbour on that side, the
    edge [get_neighbor] returns, into the current edge and leaves every
    other edge unchanged when the cell of that neighbour is inside the
    array, and otherwise stores through a pointer taken before the call
    that reallocates the array; the caret does what the brace of that side
    does.  This holds in both revisions, each with its own
    [get_neighbor]. *)
Theorem copy_and_conditional_move (i : nat) (m : machine) :
  store_ok (store m) -> in_array (store m) (MP_edge m) ->
  let side := if deref (store m) (MP_edge m) <=? 0 then LEFT else RIGHT in
  let brace := match side with LEFT => "{"%char | RIGHT => "}"%char end in
  ((in_array (store m) (neighbor_edge m side) ->
    sets_edge (Src.exec i "&"%char m) m (deref (store m) (neighbor_edge m side)))
   /\ (~ in_array (store m) (neighbor_edge m side) -> Src.exec i "&"%char m = Stale)
   /\ Src.exec i "^"%char m = Src.exec i brace m)
  /\ ((in_array (store m) (Root_neighbor_edge m side) ->
       sets_edge (Root.exec i "&"%char m) m (deref (store m) (Root_neighbor_edge m side)))
      /\ (~ in_array (store m) (Root_neighbor_edge m side) -> Root.exec i "&"%char m = Stale)
      /\ Root.exec i "^"%char m = Root.exec i brace m).
Proof.
  intros Hok Hin side brace.
  change (MP_edge m) with (pointer_edge (MP m)) in Hin.
  rewrite (in_array_allocated _ _ Hok) in Hin.
  destruct (neighbor_edge_move m side) as [-> ->].
  rewrite !(in_array_allocated _ _ Hok).
  assert (Hcaret : forall move : memory_pointer -> neighbor -> memory_pointer,
            (let '(edge, m) := current_edge m in
             Running (set_MP m (move (MP m)
                                  (if deref (store m) edge <=? 0 then LEFT else RIGHT))))
            = Running (set_MP m (move (MP m) side))).
  { intros move. rewrite (current_edge_allocated m Hok Hin). reflexivity. }
  split.
  - destruct (ampersand_spec Src.get_neighbor Src.move_mp m get_neighbor_move_mp Hok Hin)
      as [Hcopy Hstale].
    split; [exact Hcopy | split; [exact Hstale |]].
    change (Src.exec i "^"%char m) with
      (let '(edge, m) := current_edge m in
       Running (set_MP m (Src.move_mp (MP m)
                            (if deref (store m) edge <=? 0 then LEFT else RIGHT)))).
    rewrite Hcaret. subst brace. destruct side; reflexivity.
  - destruct (ampersand_spec Root.get_neighbor Root.move_mp m Root_get_neighbor_move_mp
                Hok Hin) as [Hcopy Hstale].
    split; [exact Hcopy | split; [exact Hstale |]].
    change (Root.exec i "^"%char m) with
      (let '(edge, m) := current_edge m in
       Running (set_MP m (Root.move_mp (MP m)
                            (if deref (store m) edge <=? 0 then LEFT else RIGHT)))).
    rewrite Hcaret. subst brace. destruct side; reflexivity.
Qed.

Lemma copy_and_conditional_move_witness :
  store_ok (store machine_7_2)
  /\ in_array (store machine_7_2) (MP_edge machine_7_2)
  /\ exists s, Src.exec 0 "&"%char machine_7_2 = Running (set_store machine_7_2 s)
               /\ deref s (MP_edge machine_7_2) = 7.
Proof.
  assert (H1 : store_ok (store machine_7_2)) by eval_goal.
  assert (H2 : in_array (store machine_7_2) (MP_edge machine_7_2)) by eval_goal.
  split; [exact H1 | split; [exact H2 |]].
  destruct (copy_and_conditional_move 0 machine_7_2 H1 H2) as [(Hcopy & _) _].
  destruct Hcopy as (s & Hexec & Hval & _); [eval_goal |].
  exists s. split; [exact Hexec | rewrite Hval; reflexivity].
Defined.
